(** * A shallow embedding of the i18n loader (i18n.ts) and of the tab
      controller (tabs.ts) of the site, with the properties of its
      specification stated and proved over it, and after them further
      properties of the code: the URL and the stored preference, the
      translation of the page, the cache, and the content and the rotation
      of the tabs.

    Conventions of the embedding.
    - A JavaScript string is a [string] of bytes (its UTF-8 encoding).
      Every character the code looks at ('.', '[', ']', the digits, the
      letters of the locale codes, '{', '}', '$') is ASCII, a single byte.
    - A value parsed from a JSON asset is a [json] tree; [null] returned by
      a function is [None].
    - Module state (the translation cache, the active language) and the DOM
      are threaded explicitly. An [async] function is given twice: as one
      step, for a call that is awaited with nothing running in between, and
      in its two turns, before and after its [await], for calls that
      overlap.
    - Timers ([setTimeout], [setInterval]) are delayed tasks on a logical
      clock in milliseconds. *)

From Stdlib Require Import ZArith NArith Ascii String List Bool Lia.
From stdpp Require Import base option list gmap strings.
From Equations Require Import Equations.
Import ListNotations.
Local Open Scope string_scope.
Set Warnings "-register-all".

(** ** JavaScript values and string primitives *)

Module JS.

(** What [JSON.parse] (a JSON module import) can produce. A number is only
    ever tested for truthiness by this code; [JNum 0] stands for [0] and
    any other [JNum] for a non-zero number. *)
Inductive json : Type :=
| JNull
| JBool (b : bool)
| JNum (n : Z)
| JStr (s : string)
| JArr (items : list json)
| JObj (fields : list (string * json)).

(** [ToBoolean]. *)
Definition truthy (v : json) : bool :=
  match v with
  | JNull => false
  | JBool b => b
  | JNum n => negb (n =? 0)%Z
  | JStr s => negb (String.eqb s "")
  | JArr _ | JObj _ => true
  end.

(** Own property of a plain object: the fields of a parsed object literal,
    the first binding of a name being the one that counts. *)
Fixpoint assoc {A : Type} (k : string) (fields : list (string * A)) : option A :=
  match fields with
  | [] => None
  | (k', v) :: rest => if String.eqb k k' then Some v else assoc k rest
  end.

(** [obj[k] = v]: replaces the binding in place, or appends a new one. *)
Fixpoint obj_set {A : Type} (k : string) (v : A) (fields : list (string * A))
  : list (string * A) :=
  match fields with
  | [] => [(k, v)]
  | (k', v') :: rest =>
      if String.eqb k k' then (k, v) :: rest else (k', v') :: obj_set k v rest
  end.

Definition is_digit (c : ascii) : bool :=
  let n := N_of_ascii c in ((48 <=? n) && (n <=? 57))%N.

Definition digit_value (c : ascii) : N := (N_of_ascii c - 48)%N.

(** [parseInt(ds, 10)] on a string of decimal digits. *)
Definition parseInt (ds : string) : N :=
  fold_left (fun acc c => (10 * acc + digit_value c)%N) (list_ascii_of_string ds) 0%N.

(** [key.split(".")]: never empty, the empty string gives one empty segment. *)
Fixpoint split_dot (s : string) : list string :=
  match s with
  | EmptyString => [EmptyString]
  | String c rest =>
      if Ascii.eqb c "." then EmptyString :: split_dot rest
      else match split_dot rest with
           | [] => [String c EmptyString]
           | seg :: segs => String c seg :: segs
           end
  end.

(** The characters the regular expression atom [.] refuses: LF, CR and, in
    UTF-8, U+2028 and U+2029 (E2 80 A8, E2 80 A9). *)
Fixpoint has_line_terminator (cs : list ascii) : bool :=
  match cs with
  | [] => false
  | c :: rest =>
      let n := N_of_ascii c in
      if ((n =? 10) || (n =? 13))%N then true
      else match rest with
           | c1 :: c2 :: _ =>
               if ((n =? 226) && (N_of_ascii c1 =? 128)
                   && ((N_of_ascii c2 =? 168) || (N_of_ascii c2 =? 169)))%N
               then true else has_line_terminator rest
           | _ => has_line_terminator rest
           end
  end.

(** Longest prefix of digits, and the rest. *)
Fixpoint span_digits (cs : list ascii) : list ascii * list ascii :=
  match cs with
  | c :: rest =>
      if is_digit c then let '(ds, tl) := span_digits rest in (c :: ds, tl)
      else ([], cs)
  | [] => ([], [])
  end.

(** [k.match(/^(.+?)\[(\d+)\]$/)]: the groups [(match[1], match[2])], or
    [None] for no match. The segment is read from its end: a closing
    bracket, the digits, an opening bracket, and a non-empty name in front
    that [.] accepts. *)
Definition match_bracket (k : string) : option (string * string) :=
  match rev (list_ascii_of_string k) with
  | c :: r1 =>
      if Ascii.eqb c "]" then
        let '(ds_rev, r2) := span_digits r1 in
        match ds_rev, r2 with
        | _ :: _, o :: (_ :: _) as name_rev =>
            if Ascii.eqb o "[" && negb (has_line_terminator (rev name_rev))
            then Some (string_of_list_ascii (rev name_rev),
                       string_of_list_ascii (rev ds_rev))
            else None
        | _, _ => None
        end
      else None
  | [] => None
  end.

(** A canonical array index as a property name: ["0"], or digits that do
    not start with ['0']. *)
Definition canonical_index (k : string) : option N :=
  match k with
  | EmptyString => None
  | String c rest =>
      if forallb is_digit (list_ascii_of_string k)
         && (negb (Ascii.eqb c "0") || String.eqb rest "")
      then Some (parseInt k) else None
  end.

(** [arr[i]] for [i < arr.length]. *)
Definition array_get (items : list json) (i : N) : option json :=
  if (i <? N.of_nat (length items))%N then items !! N.to_nat i else None.

(** [result && typeof result === "object" && k in result], and then
    [result[k]]: [None] when the test fails. Of an array the properties are
    its indices and [length]. Members inherited from [Object.prototype] and
    [Array.prototype] are left out: they are functions and prototype
    objects, from which no string can be reached. *)
Definition get_property (result : json) (k : string) : option json :=
  match result with
  | JObj fields => assoc k fields
  | JArr items =>
      if String.eqb k "length" then Some (JNum (Z.of_nat (length items)))
      else match canonical_index k with
           | Some i => array_get items i
           | None => None
           end
  | _ => None
  end.

(** [str.substring(0, 2)]. *)
Definition substring_0_2 (s : string) : string :=
  match s with
  | String a (String b _) => String a (String b EmptyString)
  | _ => s
  end.

Definition lower_ascii (c : ascii) : ascii :=
  let n := N_of_ascii c in
  if ((65 <=? n) && (n <=? 90))%N then ascii_of_N (n + 32) else c.

(** [str.toLowerCase()], on the ASCII letters. A character outside ASCII
    never lowers to a letter of a locale code, so membership in the list of
    locales is not affected by the others. *)
Fixpoint toLowerCase (s : string) : string :=
  match s with
  | EmptyString => EmptyString
  | String c rest => String (lower_ascii c) (toLowerCase rest)
  end.

(** The query of a URL as [URLSearchParams] reads it: name and value pairs
    in order, a name possibly repeated. *)
Definition params_get (name : string) (q : list (string * string)) : option string :=
  assoc name q.

Definition params_delete (name : string) (q : list (string * string))
  : list (string * string) :=
  List.filter (fun kv => negb (String.eqb (fst kv) name)) q.

(** [searchParams.set]: the first pair of that name takes the value and the
    others go; a new name is appended. *)
Fixpoint params_set (name value : string) (q : list (string * string))
  : list (string * string) :=
  match q with
  | [] => [(name, value)]
  | (k, v) :: rest =>
      if String.eqb k name then (name, value) :: params_delete name rest
      else (k, v) :: params_set name value rest
  end.

End JS.

(** ** i18n.ts: locale detection, namespace loading, cache, key lookup *)

Module I18n.
Import JS.

Inductive LocaleCode : Type := en | de.

Inductive Namespace : Type :=
| common | home | shipper | carrier | faq | about | footer | get_started
| corridor | privacy | cookies | terms | imprint | investor | careers | jobs
| capital | apply.

Inductive LanguageSource : Type :=
| src_url | src_localStorage | src_html | src_browser | src_default | src_manual.

#[global] Instance LocaleCode_eq_dec : EqDecision LocaleCode.
Proof. solve_decision. Defined.

#[global] Instance LocaleCode_countable : Countable LocaleCode.
Proof.
  refine (inj_countable' (fun l => match l with en => false | de => true end)
            (fun b => if b then de else en) _).
  intros []; reflexivity.
Defined.

#[global] Instance Namespace_eq_dec : EqDecision Namespace.
Proof. solve_decision. Defined.

Definition locale_code (l : LocaleCode) : string :=
  match l with en => "en" | de => "de" end.

Definition namespace_name (n : Namespace) : string :=
  match n with
  | common => "common" | home => "home" | shipper => "shipper"
  | carrier => "carrier" | faq => "faq" | about => "about"
  | footer => "footer" | get_started => "get-started"
  | corridor => "corridor" | privacy => "privacy" | cookies => "cookies"
  | terms => "terms" | imprint => "imprint" | investor => "investor"
  | careers => "careers" | jobs => "jobs" | capital => "capital"
  | apply => "apply"
  end.

Definition availableLocales : list LocaleCode := [en; de].

Definition translationNamespaces : list Namespace :=
  [common; home; shipper; carrier; faq; about; footer; get_started; corridor;
   privacy; cookies; terms; imprint; investor; careers; jobs; apply; capital].

Definition defaultLanguage : LocaleCode := en.

Definition STORAGE_KEY : string := "preferred_language".

(** [availableLocales.includes(s)] for a string [s], with the locale it is. *)
Definition includes (s : string) : option LocaleCode :=
  List.find (fun l => String.eqb (locale_code l) s) availableLocales.

(** How a call ends: [return v], or an exception (a rejected promise). *)
Inductive outcome (A : Type) : Type :=
| Returned (a : A)
| Thrown (err : string).
Arguments Returned {A} a.
Arguments Thrown {A} err.

(** *** Language detection *)

(** What [detectLanguage] reads from the browser. [storage_denied] says
    that the browser refuses the page its storage (cookies blocked, a
    frame without the right to it): every access to [localStorage] then
    raises a [SecurityError]. [localStorage] is what the storage holds; it is taken
    to have room for the preference. *)
Record Browser : Type := {
  location_search : list (string * string);
  storage_denied : bool;
  localStorage : gmap string string;
  html_lang : option string;
  navigator_userLanguage : option string;
  navigator_language : string
}.

(** [localStorage.getItem(key)]. *)
Definition getItem (key : string) (w : Browser) : outcome (option string) :=
  if storage_denied w then Thrown "SecurityError"
  else Returned (localStorage w !! key).

(** [x && availableLocales.includes(x)] for a value that may be [null]. *)
Definition valid_locale (x : option string) : option LocaleCode :=
  match x with
  | Some s => if String.eqb s "" then None else includes s
  | None => None
  end.

(** [navigator.userLanguage || navigator.language]. *)
Definition browser_language (w : Browser) : string :=
  match navigator_userLanguage w with
  | Some s => if String.eqb s "" then navigator_language w else s
  | None => navigator_language w
  end.

(** The exception of [localStorage.getItem] is not caught: it ends the
    call. *)
Definition detectLanguage (w : Browser) : outcome (LocaleCode * LanguageSource) :=
  let langFromUrl := params_get "lang" (location_search w) in
  match valid_locale langFromUrl with
  | Some l => Returned (l, src_url)
  | None =>
  match getItem STORAGE_KEY w with
  | Thrown err => Thrown err
  | Returned langFromStorage =>
  match valid_locale langFromStorage with
  | Some l => Returned (l, src_localStorage)
  | None =>
  let fromHtml :=
    match html_lang w with
    | Some langFromHtml =>
        if String.eqb langFromHtml "" then None
        else includes (toLowerCase (substring_0_2 langFromHtml))
    | None => None
    end in
  match fromHtml with
  | Some l => Returned (l, src_html)
  | None =>
  let browserLang := toLowerCase (substring_0_2 (browser_language w)) in
  match includes browserLang with
  | Some l => Returned (l, src_browser)
  | None => Returned (defaultLanguage, src_default)
  end end end end end.

(** *** Key lookup *)

(** One round of the loop of [getNestedTranslation]: [None] is the early
    [return null]. *)
Definition descend (result : json) (k : string) : option json :=
  match match_bracket k with
  | Some (propName, digits) =>
      let index := parseInt digits in
      match get_property result propName with
      | Some (JArr items) => array_get items index
      | Some _ => None
      | None => None
      end
  | None => get_property result k
  end.

Fixpoint walk (result : json) (keys : list string) : option json :=
  match keys with
  | [] => Some result
  | k :: rest =>
      match descend result k with
      | Some r => walk r rest
      | None => None
      end
  end.

Definition getNestedTranslation (key : string) (json_ : json) : option string :=
  match walk json_ (split_dot key) with
  | Some (JStr s) => Some s
  | _ => None
  end.

(** *** Module state and effects *)

(** A [NamespacedTranslations] object is mutated in place by
    [loadSingleNamespace] and compared by identity, so these objects live in
    a heap and are named by their address; the documents inside are never
    mutated and are plain values. [imports] logs every call of an import
    function of [localeImportMap]. *)
Record Store : Type := {
  translationCache : gmap LocaleCode nat;
  heap : list (list (string * json));
  imports : list (LocaleCode * Namespace);
  pageLanguage : LocaleCode;
  languageSource : LanguageSource
}.

Definition with_cache (c : gmap LocaleCode nat) (st : Store) : Store :=
  {| translationCache := c; heap := heap st; imports := imports st;
     pageLanguage := pageLanguage st; languageSource := languageSource st |}.

Definition with_heap (h : list (list (string * json))) (st : Store) : Store :=
  {| translationCache := translationCache st; heap := h; imports := imports st;
     pageLanguage := pageLanguage st; languageSource := languageSource st |}.

Definition log_import (l : LocaleCode) (n : Namespace) (st : Store) : Store :=
  {| translationCache := translationCache st; heap := heap st;
     imports := imports st ++ [(l, n)];
     pageLanguage := pageLanguage st; languageSource := languageSource st |}.

(** The object at an address; every address the code holds is allocated. *)
Definition deref (st : Store) (r : nat) : list (string * json) :=
  match heap st !! r with Some o => o | None => [] end.

Definition M (A : Type) : Type := Store -> outcome A * Store.

Definition ret {A : Type} (a : A) : M A := fun st => (Returned a, st).

Definition bind {A B : Type} (c : M A) (k : A -> M B) : M B :=
  fun st =>
    match c st with
    | (Returned a, st1) => k a st1
    | (Thrown e, st1) => (Thrown e, st1)
    end.

Notation "'let*' x ':=' c 'in' k" := (bind c (fun x => k))
  (at level 10, x pattern, c at level 100, k at level 200).

(** [new Object] with the given fields: a fresh address. *)
Definition alloc (o : list (string * json)) : M nat :=
  fun st => (Returned (length (heap st)), with_heap (heap st ++ [o]) st).

(** *** Loading *)

(** The promise of a dynamic [import()]: rejected, or resolved with a
    module whose [default] export is the parsed JSON file. *)
Inductive import_result : Type :=
| Rejects (err : string)
| Resolves (default_export : json).

(** [module.default || module]; the module itself is an object holding the
    export. *)
Definition module_or_default (d : json) : json :=
  if truthy d then d else JObj [("default", d)].

(** How far a locale is from the default one along the fallback. *)
Definition fallback_depth (l : LocaleCode) : nat :=
  match l with en => 0 | de => 1 end.

Section Loader.

(** The import functions of [localeImportMap], one per locale and
    namespace: the table is total on [LocaleCode] and [Namespace], so the
    [throw] for a missing import function cannot be reached. *)
Variable localeImportMap : LocaleCode -> Namespace -> import_result.

(** The [try] block of [loadNamespace]. *)
Definition import_namespace (locale : LocaleCode) (namespace : Namespace) : M json :=
  fun st =>
    match localeImportMap locale namespace with
    | Rejects err => (Thrown err, log_import locale namespace st)
    | Resolves d => (Returned (module_or_default d), log_import locale namespace st)
    end.

Equations loadNamespace (locale : LocaleCode) (namespace : Namespace) (st : Store)
  : outcome json * Store by wf (fallback_depth locale) lt :=
loadNamespace locale namespace st with import_namespace locale namespace st => {
  | (Returned translations, st1) => (Returned translations, st1)
  | (Thrown err, st1) with decide (locale = defaultLanguage) => {
      | left _ => (Returned (JObj []), st1)
      | right _ => loadNamespace defaultLanguage namespace st1 } }.
Next Obligation. destruct locale; [contradiction | simpl; lia]. Qed.

(** [loadNamespace] from its [await] on, for a call that has started its
    import: the [return] of the [try] block, or the [catch], which calls
    [loadNamespace] for the default language. *)
Definition loadNamespace_settled (locale : LocaleCode) (namespace : Namespace) : M json :=
  fun st =>
    match localeImportMap locale namespace with
    | Resolves d => (Returned (module_or_default d), st)
    | Rejects err =>
        if decide (locale = defaultLanguage) then (Returned (JObj []), st)
        else loadNamespace defaultLanguage namespace st
    end.

(** [translationNamespaces.map(async (namespace) => ...)]: each call of the
    arrow function runs [loadNamespace] up to its [await], so the imports of
    [locale] are started one after the other, in the order of the list,
    before any of them has settled. *)
Definition start_each (locale : LocaleCode) (namespaces : list Namespace) (st : Store)
  : Store :=
  fold_left (fun st1 namespace => log_import locale namespace st1) namespaces st.

(** [await Promise.all(namespacePromises)]: each load goes on from its
    [await]. They are taken in the order of the list; the table of imports
    being fixed, what each returns does not depend on the order in which
    the imports settle. *)
Fixpoint settle_each (locale : LocaleCode) (namespaces : list Namespace)
  : M (list (Namespace * json)) :=
  match namespaces with
  | [] => ret []
  | namespace :: rest =>
      let* translations := loadNamespace_settled locale namespace in
      let* results := settle_each locale rest in
      ret ((namespace, translations) :: results)
  end.

(** [results.forEach(...)] filling [combinedTranslations]. *)
Definition combine (results : list (Namespace * json)) : list (string * json) :=
  fold_left (fun combined r => obj_set (namespace_name (fst r)) (snd r) combined)
    results [].

(** The [try] block of [loadLocaleFile] from its [await] on. *)
Definition settle_and_cache (locale : LocaleCode) : M nat :=
  let* results := settle_each locale translationNamespaces in
  let* combinedTranslations := alloc (combine results) in
  fun st =>
    (Returned combinedTranslations,
     with_cache (<[locale := combinedTranslations]> (translationCache st)) st).

(** The [try] block of [loadLocaleFile]. *)
Definition load_and_cache (locale : LocaleCode) : M nat :=
  fun st => settle_and_cache locale (start_each locale translationNamespaces st).

(** [useCache && translationCache.has(locale)], with the entry. *)
Definition cache_hit (useCache : bool) (locale : LocaleCode) (st : Store) : option nat :=
  if useCache then translationCache st !! locale else None.

(** A call that is awaited with nothing else running before it ends.
    Returns the address of the document set. *)
Equations loadLocaleFile (locale : LocaleCode) (useCache : bool) (st : Store)
  : outcome nat * Store by wf (fallback_depth locale) lt :=
loadLocaleFile locale useCache st with cache_hit useCache locale st => {
  | Some cached => (Returned cached, st)
  | None with load_and_cache locale st => {
      | (Returned combinedTranslations, st1) => (Returned combinedTranslations, st1)
      | (Thrown err, st1) with decide (locale = defaultLanguage) => {
          | left _ => (Thrown err, st1)
          | right _ => loadLocaleFile defaultLanguage useCache st1 } } }.
Next Obligation. destruct locale; [contradiction | simpl; lia]. Qed.

(** [cached[namespace]] when the cache has the locale and the value is
    truthy. *)
Definition cached_namespace (locale : LocaleCode) (namespace : Namespace) (st : Store)
  : option json :=
  match translationCache st !! locale with
  | Some r =>
      match assoc (namespace_name namespace) (deref st r) with
      | Some v => if truthy v then Some v else None
      | None => None
      end
  | None => None
  end.

(** [if (!translationCache.has(locale)) translationCache.set(locale, {})],
    then the entry. *)
Definition cache_entry (locale : LocaleCode) : M nat :=
  fun st =>
    match translationCache st !! locale with
    | Some r => (Returned r, st)
    | None =>
        (let* r := alloc [] in
         fun st1 => (Returned r, with_cache (<[locale := r]> (translationCache st1)) st1)) st
    end.

(** A call that is awaited with nothing else running before it ends. *)
Definition loadSingleNamespace (locale : LocaleCode) (namespace : Namespace) : M json :=
  fun st =>
    match cached_namespace locale namespace st with
    | Some cached => (Returned cached, st)
    | None =>
        (let* translations := loadNamespace locale namespace in
         let* r := cache_entry locale in
         fun st1 =>
           (Returned translations,
            with_heap (<[r := obj_set (namespace_name namespace) translations (deref st1 r)]>
                         (heap st1)) st1)) st
    end.

(** *** Calls that overlap

    An [async] function runs up to its first [await] when it is called and
    goes on when what it awaits has settled; other calls may run in between.
    [loadLocaleFile] and [loadSingleNamespace] await once, between their
    look at the cache and their write to it. *)

(** [loadLocaleFile] up to its [await]: [Some cached] is the early
    [return], [None] a call that has started its loads and awaits them. *)
Definition loadLocaleFile_called (locale : LocaleCode) (useCache : bool) (st : Store)
  : option nat * Store :=
  match cache_hit useCache locale st with
  | Some cached => (Some cached, st)
  | None => (None, start_each locale translationNamespaces st)
  end.

(** [loadLocaleFile] from its [await] on. *)
Definition loadLocaleFile_resumed (locale : LocaleCode) (useCache : bool) (st : Store)
  : outcome nat * Store :=
  match settle_and_cache locale st with
  | (Returned combinedTranslations, st1) => (Returned combinedTranslations, st1)
  | (Thrown err, st1) =>
      if decide (locale = defaultLanguage) then (Thrown err, st1)
      else loadLocaleFile defaultLanguage useCache st1
  end.

(** [loadSingleNamespace] up to its [await]. *)
Definition loadSingleNamespace_called (locale : LocaleCode) (namespace : Namespace)
  (st : Store) : option json * Store :=
  match cached_namespace locale namespace st with
  | Some cached => (Some cached, st)
  | None => (None, log_import locale namespace st)
  end.

(** [loadSingleNamespace] from its [await] on. *)
Definition loadSingleNamespace_resumed (locale : LocaleCode) (namespace : Namespace)
  : M json :=
  let* translations := loadNamespace_settled locale namespace in
  let* r := cache_entry locale in
  fun st1 =>
    (Returned translations,
     with_heap (<[r := obj_set (namespace_name namespace) translations (deref st1 r)]>
                  (heap st1)) st1).

Definition clearCache (locale : option LocaleCode) (st : Store) : Store :=
  match locale with
  | Some l => with_cache (delete l (translationCache st)) st
  | None => with_cache ∅ st
  end.

End Loader.

(** *** Programmatic lookup *)

(** The pattern [new RegExp(`{${varKey}}`, "g")] compiles to. When the name
    has none of the syntax characters of regular expressions, the braces
    around it are either a braced quantifier with nothing in front, which
    is a [SyntaxError], or plain characters, and the pattern matches the
    text [{varKey}] and nothing else. Any other name gives a pattern that
    is not interpreted here. *)
Inductive placeholder_pattern : Type :=
| Literal (needle : string)
| NothingToRepeat
| OtherPattern.

Definition syntax_character (c : ascii) : bool :=
  existsb (Ascii.eqb c) (list_ascii_of_string "^$\.*+?()[]{}|").

(** Digits, digits and a comma, or digits, a comma and digits. *)
Definition quantifier_body (body : list ascii) : bool :=
  let '(ds, rest) := span_digits body in
  match ds, rest with
  | _ :: _, [] => true
  | _ :: _, c :: rest1 =>
      Ascii.eqb c "," &&
      match snd (span_digits rest1) with [] => true | _ => false end
  | _, _ => false
  end.

Definition compile_placeholder (varKey : string) : placeholder_pattern :=
  let body := list_ascii_of_string varKey in
  if existsb syntax_character body then OtherPattern
  else if quantifier_body body then NothingToRepeat
  else Literal ("{" ++ varKey ++ "}").

(** The replacement text of [String.prototype.replace] for a pattern
    without capture groups: [$$], [$&], [$`] and [$'] are expanded, any
    other character stands for itself. *)
Fixpoint expand_replacement (value matched before after : list ascii) : list ascii :=
  match value with
  | [] => []
  | c :: rest =>
      if Ascii.eqb c "$" then
        match rest with
        | c1 :: rest1 =>
            if Ascii.eqb c1 "$" then c :: expand_replacement rest1 matched before after
            else if Ascii.eqb c1 "&" then matched ++ expand_replacement rest1 matched before after
            else if Ascii.eqb c1 "`" then before ++ expand_replacement rest1 matched before after
            else if Ascii.eqb c1 "'" then after ++ expand_replacement rest1 matched before after
            else c :: expand_replacement rest matched before after
        | [] => [c]
        end
      else c :: expand_replacement rest matched before after
  end.

Fixpoint is_prefix (needle text : list ascii) : bool :=
  match needle, text with
  | [], _ => true
  | a :: needle1, b :: text1 => Ascii.eqb a b && is_prefix needle1 text1
  | _ :: _, [] => false
  end.

(** The scan of a global replace: [before_rev] is the text already passed,
    [skip] the characters of a match still to step over. *)
Fixpoint replace_scan (needle value before_rev rest : list ascii) (skip : nat)
  : list ascii :=
  match rest with
  | [] => []
  | c :: rest1 =>
      match skip with
      | S k => replace_scan needle value (c :: before_rev) rest1 k
      | O =>
          if is_prefix needle rest then
            expand_replacement value needle (rev before_rev) (drop (length needle) rest)
            ++ replace_scan needle value (c :: before_rev) rest1 (length needle - 1)
          else c :: replace_scan needle value (c :: before_rev) rest1 0
      end
  end.

(** [text.replace(/needle/g, value)] for a pattern of plain characters. *)
Definition replace_literal (needle value text : string) : string :=
  string_of_list_ascii
    (replace_scan (list_ascii_of_string needle) (list_ascii_of_string value) []
       (list_ascii_of_string text) 0).

Section Lookup.

Variable localeImportMap : LocaleCode -> Namespace -> import_result.

(** What the regular expression engine does with a source outside the two
    cases of [compile_placeholder]: arguments are the name, the text and
    the replacement. *)
Variable other_replace : string -> string -> string -> outcome string.

(** [text.replace(new RegExp(`{${varKey}}`, "g"), value)]. *)
Definition replace_placeholder (varKey value text : string) : outcome string :=
  match compile_placeholder varKey with
  | Literal needle => Returned (replace_literal needle value text)
  | NothingToRepeat => Thrown "SyntaxError"
  | OtherPattern => other_replace varKey text value
  end.

(** [Object.entries(variables).forEach(...)]; [entries] is the list
    [Object.entries] gives. *)
Fixpoint replace_each (entries : list (string * string)) (text : string)
  : outcome string :=
  match entries with
  | [] => Returned text
  | (varKey, value) :: rest =>
      match replace_placeholder varKey value text with
      | Returned text1 => replace_each rest text1
      | Thrown err => Thrown err
      end
  end.

Definition t (key : string) (variables : option (list (string * string))) : M string :=
  fun st =>
    match loadLocaleFile localeImportMap (pageLanguage st) true st with
    | (Thrown err, st1) => (Thrown err, st1)
    | (Returned r, st1) =>
        match getNestedTranslation key (JObj (deref st1 r)) with
        | None => (Returned key, st1)
        | Some text =>
            if String.eqb text "" then (Returned key, st1)
            else match variables with
                 | None => (Returned text, st1)
                 | Some entries => (replace_each entries text, st1)
                 end
        end
    end.

End Lookup.

End I18n.

(** ** tabs.ts: the tab controller *)

Module Tabs.
Import JS.
Local Open Scope Z_scope.

(** The configuration after its defaults are filled in. The selectors and
    the two attribute names decide which elements and which attribute values
    the page below lists; they are not kept. *)
Record TabConfig : Type := {
  queryParam : string;
  defaultTab : string;
  showAll : bool;
  animationType : string;
  animationDuration : Z;
  staggerDelay : Z;
  autoRotate : bool;
  autoRotateInterval : Z
}.

(** An element matched by [tabSelector]: [tab_value] is
    [getAttribute(tabAttribute)]. *)
Record TabElement : Type := {
  tab_value : option string;
  tab_classes : list string
}.

(** An element matched by [contentSelector]: [content_value] is
    [getAttribute(contentAttribute)], [css_delay] and [css_duration] are the
    custom properties [--delay] and [--duration] in milliseconds. *)
Record ContentElement : Type := {
  content_value : option string;
  style_display : string;
  content_classes : list string;
  css_delay : option Z;
  css_duration : option Z;
  data_animate : option string;
  offsetHeight : Z
}.

Inductive MinHeight : Type :=
| MinHeightInitial
| MinHeightPx (px : Z)
| MinHeightUnset.

(** [contents[0].parentElement]. Layout is not recomputed: [offsetHeight]
    is what the page says. *)
Record WrapperElement : Type := {
  style_minHeight : MinHeight;
  style_transition : option Z;
  wrapper_offsetHeight : Z
}.

(** The callbacks handed to [setTimeout] and [setInterval]. *)
Inductive Task : Type :=
| HideItem (item : nat)
| ShowItems (itemsToShow : list nat)
| MeasureWrapper
| ReleaseWrapper
| RestartRotation
| RotationTick.

(** A pending timer: [handle] is the id [setTimeout] or [setInterval]
    returned, [stamp] the order in which timers were armed, [delay] the
    delay asked for and [due] the time it runs at the earliest. *)
Record Timer : Type := {
  handle : positive;
  stamp : nat;
  due : Z;
  delay : Z;
  repeat_ : bool;
  task : Task
}.

(** The page and the variables [initTabs] closes over. [activations] and
    [fired] are a record of what was done, latest first: the arguments of
    the calls of [switchContent], and the timers run with the time of the
    run. Elements are named by their position in [tabs] and [contents]. *)
Record Page : Type := {
  tabs : list TabElement;
  contents : list ContentElement;
  wrapper : option WrapperElement;
  search : list (string * string);
  pushed : list (list (string * string));
  frame_requests : list nat;
  currentTabIndex : nat;
  autoRotateInterval_id : option positive;
  now : Z;
  timers : list Timer;
  next_handle : positive;
  next_stamp : nat;
  activations : list (string * bool);
  fired : list (Z * Timer)
}.

Definition set_tabs (v : list TabElement) (p : Page) : Page :=
  {| tabs := v; contents := contents p; wrapper := wrapper p; search := search p;
     pushed := pushed p; frame_requests := frame_requests p;
     currentTabIndex := currentTabIndex p;
     autoRotateInterval_id := autoRotateInterval_id p; now := now p;
     timers := timers p; next_handle := next_handle p; next_stamp := next_stamp p;
     activations := activations p; fired := fired p |}.

Definition set_contents (v : list ContentElement) (p : Page) : Page :=
  {| tabs := tabs p; contents := v; wrapper := wrapper p; search := search p;
     pushed := pushed p; frame_requests := frame_requests p;
     currentTabIndex := currentTabIndex p;
     autoRotateInterval_id := autoRotateInterval_id p; now := now p;
     timers := timers p; next_handle := next_handle p; next_stamp := next_stamp p;
     activations := activations p; fired := fired p |}.

Definition set_wrapper (v : option WrapperElement) (p : Page) : Page :=
  {| tabs := tabs p; contents := contents p; wrapper := v; search := search p;
     pushed := pushed p; frame_requests := frame_requests p;
     currentTabIndex := currentTabIndex p;
     autoRotateInterval_id := autoRotateInterval_id p; now := now p;
     timers := timers p; next_handle := next_handle p; next_stamp := next_stamp p;
     activations := activations p; fired := fired p |}.

(** [history.pushState] or a navigation: the query of the current URL, and
    the record of the URLs pushed. *)
Definition set_location (v : list (string * string)) (push : bool) (p : Page) : Page :=
  {| tabs := tabs p; contents := contents p; wrapper := wrapper p; search := v;
     pushed := if push then v :: pushed p else pushed p;
     frame_requests := frame_requests p;
     currentTabIndex := currentTabIndex p;
     autoRotateInterval_id := autoRotateInterval_id p; now := now p;
     timers := timers p; next_handle := next_handle p; next_stamp := next_stamp p;
     activations := activations p; fired := fired p |}.

Definition set_frame_requests (v : list nat) (p : Page) : Page :=
  {| tabs := tabs p; contents := contents p; wrapper := wrapper p; search := search p;
     pushed := pushed p; frame_requests := v;
     currentTabIndex := currentTabIndex p;
     autoRotateInterval_id := autoRotateInterval_id p; now := now p;
     timers := timers p; next_handle := next_handle p; next_stamp := next_stamp p;
     activations := activations p; fired := fired p |}.

Definition set_currentTabIndex (v : nat) (p : Page) : Page :=
  {| tabs := tabs p; contents := contents p; wrapper := wrapper p; search := search p;
     pushed := pushed p; frame_requests := frame_requests p;
     currentTabIndex := v;
     autoRotateInterval_id := autoRotateInterval_id p; now := now p;
     timers := timers p; next_handle := next_handle p; next_stamp := next_stamp p;
     activations := activations p; fired := fired p |}.

Definition set_autoRotateInterval_id (v : option positive) (p : Page) : Page :=
  {| tabs := tabs p; contents := contents p; wrapper := wrapper p; search := search p;
     pushed := pushed p; frame_requests := frame_requests p;
     currentTabIndex := currentTabIndex p;
     autoRotateInterval_id := v; now := now p;
     timers := timers p; next_handle := next_handle p; next_stamp := next_stamp p;
     activations := activations p; fired := fired p |}.

Definition set_now (v : Z) (p : Page) : Page :=
  {| tabs := tabs p; contents := contents p; wrapper := wrapper p; search := search p;
     pushed := pushed p; frame_requests := frame_requests p;
     currentTabIndex := currentTabIndex p;
     autoRotateInterval_id := autoRotateInterval_id p; now := v;
     timers := timers p; next_handle := next_handle p; next_stamp := next_stamp p;
     activations := activations p; fired := fired p |}.

Definition set_timers (v : list Timer) (p : Page) : Page :=
  {| tabs := tabs p; contents := contents p; wrapper := wrapper p; search := search p;
     pushed := pushed p; frame_requests := frame_requests p;
     currentTabIndex := currentTabIndex p;
     autoRotateInterval_id := autoRotateInterval_id p; now := now p;
     timers := v; next_handle := next_handle p; next_stamp := next_stamp p;
     activations := activations p; fired := fired p |}.

Definition record_activation (tabValue : string) (animate : bool) (p : Page) : Page :=
  {| tabs := tabs p; contents := contents p; wrapper := wrapper p; search := search p;
     pushed := pushed p; frame_requests := frame_requests p;
     currentTabIndex := currentTabIndex p;
     autoRotateInterval_id := autoRotateInterval_id p; now := now p;
     timers := timers p; next_handle := next_handle p; next_stamp := next_stamp p;
     activations := (tabValue, animate) :: activations p; fired := fired p |}.

Definition record_fired (tm : Timer) (p : Page) : Page :=
  {| tabs := tabs p; contents := contents p; wrapper := wrapper p; search := search p;
     pushed := pushed p; frame_requests := frame_requests p;
     currentTabIndex := currentTabIndex p;
     autoRotateInterval_id := autoRotateInterval_id p; now := now p;
     timers := timers p; next_handle := next_handle p; next_stamp := next_stamp p;
     activations := activations p; fired := (now p, tm) :: fired p |}.

(** *** Timers *)

(** Arms a timer [d] milliseconds from now (a negative delay counts as 0)
    and returns its handle. *)
Definition arm (repeats : bool) (tk : Task) (d : Z) (p : Page) : positive * Page :=
  let tm := {| handle := next_handle p; stamp := next_stamp p;
               due := now p + Z.max 0 d; delay := d; repeat_ := repeats; task := tk |} in
  (next_handle p,
   {| tabs := tabs p; contents := contents p; wrapper := wrapper p; search := search p;
      pushed := pushed p; frame_requests := frame_requests p;
      currentTabIndex := currentTabIndex p;
      autoRotateInterval_id := autoRotateInterval_id p; now := now p;
      timers := timers p ++ [tm];
      next_handle := Pos.succ (next_handle p); next_stamp := S (next_stamp p);
      activations := activations p; fired := fired p |}).

Definition setTimeout (tk : Task) (d : Z) (p : Page) : Page := snd (arm false tk d p).

Definition setInterval (tk : Task) (d : Z) (p : Page) : positive * Page := arm true tk d p.

Definition clearInterval (h : positive) (p : Page) : Page :=
  set_timers (List.filter (fun tm => negb (Pos.eqb (handle tm) h)) (timers p)) p.

(** Which of two timers runs first: the one due earlier, and of two due at
    the same time the one armed first. *)
Definition earlier (a b : Timer) : bool :=
  (due a <? due b) || ((due a =? due b) && (stamp a <? stamp b)%nat).

Fixpoint next_timer (ts : list Timer) : option Timer :=
  match ts with
  | [] => None
  | tm :: rest =>
      match next_timer rest with
      | Some m => if earlier m tm then Some m else Some tm
      | None => Some tm
      end
  end.

(** *** classList *)

Definition class_contains (c : string) (cl : list string) : bool :=
  existsb (String.eqb c) cl.

Definition class_add (c : string) (cl : list string) : list string :=
  if class_contains c cl then cl else cl ++ [c].

Definition class_remove (c : string) (cl : list string) : list string :=
  List.filter (fun x => negb (String.eqb x c)) cl.

(** *** The controller *)

Section Controller.

Variable config : TabConfig.

(** The three classes of an active trigger. *)
Definition active_classes : list string := ["active"; "text-primary"; "bg-primary-bg"].

Definition mark_tab (activeTab i : nat) (tab : TabElement) : TabElement :=
  if Nat.eqb i activeTab then
    {| tab_value := tab_value tab;
       tab_classes :=
         class_remove "text-text-secondary"
           (class_add "bg-primary-bg" (class_add "text-primary"
              (class_add "active" (tab_classes tab)))) |}
  else
    {| tab_value := tab_value tab;
       tab_classes :=
         class_add "text-text-secondary"
           (class_remove "bg-primary-bg" (class_remove "text-primary"
              (class_remove "active" (tab_classes tab)))) |}.

Definition updateActiveTab (activeTab : nat) (p : Page) : Page :=
  set_tabs (imap (mark_tab activeTab) (tabs p)) p.

Definition updateURL (tabValue : string) (p : Page) : Page :=
  if String.eqb tabValue (defaultTab config)
  then set_location (params_delete (queryParam config) (search p)) true p
  else set_location (params_set (queryParam config) tabValue (search p)) true p.

Definition shouldShow (tabValue : string) (content : ContentElement) : bool :=
  let same :=
    match content_value content with
    | Some contentValue => String.eqb contentValue tabValue
    | None => false
    end in
  if showAll config then String.eqb tabValue "all" || same else same.

(** The positions in [cs], counted from [i], of the elements [f] accepts. *)
Fixpoint positions (f : ContentElement -> bool) (i : nat) (cs : list ContentElement)
  : list nat :=
  match cs with
  | [] => []
  | c :: rest => if f c then i :: positions f (S i) rest else positions f (S i) rest
  end.

Definition itemsToShow (tabValue : string) (p : Page) : list nat :=
  positions (shouldShow tabValue) 0 (contents p).

Definition itemsToHide (tabValue : string) (p : Page) : list nat :=
  positions (fun c => negb (shouldShow tabValue c)) 0 (contents p).

Definition hideDuration : Z := 200.

(** [itemsToHide.reduce((total, item) => total + item.offsetHeight, 0)]. *)
Definition hidingContentHeight (items : list nat) (p : Page) : Z :=
  fold_left
    (fun total item =>
       total + match contents p !! item with Some c => offsetHeight c | None => 0 end)
    items 0.

Definition pin_wrapper (h : Z) (p : Page) : Page :=
  match wrapper p with
  | Some w =>
      if 0 <? h
      then set_wrapper (Some {| style_minHeight := MinHeightPx h;
                                style_transition := style_transition w;
                                wrapper_offsetHeight := wrapper_offsetHeight w |}) p
      else p
  | None => p
  end.

Definition hide_now (c : ContentElement) : ContentElement :=
  {| content_value := content_value c; style_display := "none";
     content_classes := class_remove "is-visible" (content_classes c);
     css_delay := css_delay c; css_duration := css_duration c;
     data_animate := data_animate c; offsetHeight := offsetHeight c |}.

Definition fade_out (index : nat) (c : ContentElement) : ContentElement :=
  {| content_value := content_value c; style_display := style_display c;
     content_classes := class_remove "is-visible" (content_classes c);
     css_delay := Some (Z.of_nat index * 30); css_duration := Some hideDuration;
     data_animate := data_animate c; offsetHeight := offsetHeight c |}.

Definition display_none (c : ContentElement) : ContentElement :=
  {| content_value := content_value c; style_display := "none";
     content_classes := content_classes c;
     css_delay := css_delay c; css_duration := css_duration c;
     data_animate := data_animate c; offsetHeight := offsetHeight c |}.

Definition reveal (index : nat) (c : ContentElement) : ContentElement :=
  {| content_value := content_value c; style_display := "block";
     content_classes := class_remove "is-visible" (content_classes c);
     css_delay := Some (Z.of_nat index * staggerDelay config);
     css_duration := Some (animationDuration config);
     data_animate := Some (animationType config); offsetHeight := offsetHeight c |}.

Definition make_visible (c : ContentElement) : ContentElement :=
  {| content_value := content_value c; style_display := style_display c;
     content_classes := class_add "is-visible" (content_classes c);
     css_delay := css_delay c; css_duration := css_duration c;
     data_animate := data_animate c; offsetHeight := offsetHeight c |}.

(** The body of [itemsToHide.forEach((item, index) => ...)]. *)
Definition hide_item (animate : bool) (index item : nat) (p : Page) : Page :=
  if animate then
    setTimeout (HideItem item) (hideDuration + Z.of_nat index * 30)
      (set_contents (alter (fade_out index) item (contents p)) p)
  else set_contents (alter hide_now item (contents p)) p.

Fixpoint hide_items (animate : bool) (index : nat) (items : list nat) (p : Page) : Page :=
  match items with
  | [] => p
  | item :: rest => hide_items animate (S index) rest (hide_item animate index item p)
  end.

Definition hideCompleteDelay (animate : bool) (items : list nat) : Z :=
  if animate then hideDuration + (Z.of_nat (length items) - 1) * 30 else 0.

Definition switchContent (tabValue : string) (animate : bool) (p : Page) : Page :=
  let toHide := itemsToHide tabValue p in
  let toShow := itemsToShow tabValue p in
  let p1 :=
    match toHide with
    | _ :: _ =>
        if negb (showAll config) then pin_wrapper (hidingContentHeight toHide p) p else p
    | [] => p
    end in
  let p2 := hide_items animate 0 toHide p1 in
  setTimeout (ShowItems toShow) (hideCompleteDelay animate toHide)
    (record_activation tabValue animate p2).

(** The body of [itemsToShow.forEach((item, index) => ...)]. *)
Definition show_item (index item : nat) (p : Page) : Page :=
  set_frame_requests (frame_requests p ++ [item])
    (set_contents (alter (reveal index) item (contents p)) p).

Fixpoint show_items (index : nat) (items : list nat) (p : Page) : Page :=
  match items with
  | [] => p
  | item :: rest => show_items (S index) rest (show_item index item p)
  end.

(** The callback of the show phase. *)
Definition show_phase (items : list nat) (p : Page) : Page :=
  let p1 := show_items 0 items p in
  match wrapper p1 with
  | Some w =>
      if negb (showAll config) then
        let settle :=
          animationDuration config + staggerDelay config * Z.of_nat (length items) in
        setTimeout ReleaseWrapper (settle + 50)
          (setTimeout MeasureWrapper settle
             (set_wrapper
                (Some {| style_minHeight := style_minHeight w;
                         style_transition := Some (animationDuration config);
                         wrapper_offsetHeight := wrapper_offsetHeight w |}) p1))
      else p1
  | None => p1
  end.

(** [requestAnimationFrame] callbacks: the next frame runs them all. *)
Definition animation_frame (p : Page) : Page :=
  set_frame_requests []
    (fold_left (fun q item => set_contents (alter make_visible item (contents q)) q)
       (frame_requests p) p).

Definition measure_wrapper (p : Page) : Page :=
  match wrapper p with
  | Some w => pin_wrapper (wrapper_offsetHeight w) p
  | None => p
  end.

Definition release_wrapper (p : Page) : Page :=
  match wrapper p with
  | Some w =>
      set_wrapper (Some {| style_minHeight := MinHeightUnset;
                           style_transition := style_transition w;
                           wrapper_offsetHeight := wrapper_offsetHeight w |}) p
  | None => p
  end.

(** A discriminator that passes [if (tabValue)]. *)
Definition truthy_value (v : option string) : option string :=
  match v with
  | Some s => if String.eqb s "" then None else Some s
  | None => None
  end.

(** The callback of [setInterval] in [startAutoRotation]. *)
Definition rotate (p : Page) : Page :=
  let p1 := set_currentTabIndex (Nat.modulo (currentTabIndex p + 1) (length (tabs p))) p in
  match tabs p1 !! currentTabIndex p1 with
  | Some nextTab =>
      match truthy_value (tab_value nextTab) with
      | Some tabValue =>
          switchContent tabValue true
            (updateURL tabValue (updateActiveTab (currentTabIndex p1) p1))
      | None => p1
      end
  | None => p1
  end.

Definition startAutoRotation (p : Page) : Page :=
  let p1 :=
    match autoRotateInterval_id p with
    | Some id => clearInterval id p
    | None => p
    end in
  let '(id, p2) := setInterval RotationTick (autoRotateInterval config) p1 in
  set_autoRotateInterval_id (Some id) p2.

Definition run_task (tk : Task) (p : Page) : Page :=
  match tk with
  | HideItem item => set_contents (alter display_none item (contents p)) p
  | ShowItems items => show_phase items p
  | MeasureWrapper => measure_wrapper p
  | ReleaseWrapper => release_wrapper p
  | RestartRotation => startAutoRotation p
  | RotationTick => rotate p
  end.

(** [Array.from(tabs).findIndex(tab => tab.getAttribute(tabAttribute) === v)],
    [None] for -1. *)
Fixpoint find_tab (v : string) (i : nat) (ts : list TabElement) : option nat :=
  match ts with
  | [] => None
  | tab :: rest =>
      match tab_value tab with
      | Some a => if String.eqb a v then Some i else find_tab v (S i) rest
      | None => find_tab v (S i) rest
      end
  end.

(** [urlParams.get(queryParam) || defaultTab]. *)
Definition url_or_default (p : Page) : string :=
  match params_get (queryParam config) (search p) with
  | Some v => if String.eqb v "" then defaultTab config else v
  | None => defaultTab config
  end.

(** The click listener of the trigger at position [i]. *)
Definition click (i : nat) (p : Page) : Page :=
  match tabs p !! i with
  | Some tab =>
      match truthy_value (tab_value tab) with
      | Some tabValue =>
          let p1 :=
            match autoRotateInterval_id p with
            | Some id => set_autoRotateInterval_id None (clearInterval id p)
            | None => p
            end in
          let p2 := set_currentTabIndex i p1 in
          let p3 := switchContent tabValue true (updateURL tabValue (updateActiveTab i p2)) in
          if autoRotate config
          then setTimeout RestartRotation (autoRotateInterval config) p3
          else p3
      | None => p
      end
  | None => p
  end.

(** The [popstate] listener, after the browser restored the query [restored]. *)
Definition popstate (restored : list (string * string)) (p : Page) : Page :=
  let p0 := set_location restored false p in
  let tabValue := url_or_default p0 in
  match find_tab tabValue 0 (tabs p0) with
  | Some i => set_currentTabIndex i (switchContent tabValue true (updateActiveTab i p0))
  | None => p0
  end.

(** The body of [initTabs]; the two listeners above are registered by it. *)
Definition initTabs (p : Page) : Page :=
  match tabs p, contents p with
  | [], _ => p
  | _, [] => p
  | _ :: _, _ :: _ =>
      let initialTab := url_or_default p in
      let p1 :=
        set_autoRotateInterval_id None
          (set_currentTabIndex
             (match find_tab initialTab 0 (tabs p) with Some i => i | None => 0%nat end) p) in
      let p2 :=
        match find_tab initialTab 0 (tabs p1) with
        | Some i => updateActiveTab i p1
        | None => p1
        end in
      let p3 := switchContent initialTab false p2 in
      let p4 :=
        match wrapper p3 with
        | Some _ => setTimeout MeasureWrapper 100 p3
        | None => p3
        end in
      if autoRotate config
      then setTimeout RestartRotation (autoRotateInterval config) p4
      else p4
  end.

(** *** The event loop *)

Definition remove_stamp (s : nat) (ts : list Timer) : list Timer :=
  List.filter (fun tm => negb (Nat.eqb (stamp tm) s)) ts.

(** Arms a repeating timer again after its callback, unless the callback
    cleared it. *)
Definition rearm (tm : Timer) (p : Page) : Page :=
  if existsb (fun x => Nat.eqb (stamp x) (stamp tm)) (timers p) then
    let again := {| handle := handle tm; stamp := next_stamp p;
                    due := now p + Z.max 0 (delay tm); delay := delay tm;
                    repeat_ := true; task := task tm |} in
    {| tabs := tabs p; contents := contents p; wrapper := wrapper p; search := search p;
       pushed := pushed p; frame_requests := frame_requests p;
       currentTabIndex := currentTabIndex p;
       autoRotateInterval_id := autoRotateInterval_id p; now := now p;
       timers := remove_stamp (stamp tm) (timers p) ++ [again];
       next_handle := next_handle p; next_stamp := S (next_stamp p);
       activations := activations p; fired := fired p |}
  else p.

(** Runs the timer that is next, not before it is due. *)
Definition fire (p : Page) : Page :=
  match next_timer (timers p) with
  | None => p
  | Some tm =>
      let p1 := record_fired tm (set_now (Z.max (now p) (due tm)) p) in
      if repeat_ tm then rearm tm (run_task (task tm) p1)
      else run_task (task tm) (set_timers (remove_stamp (stamp tm) (timers p1)) p1)
  end.

(** What can happen to a page once [initTabs] has run. *)
Inductive Event : Type :=
| Click (i : nat)
| Popstate (restored : list (string * string))
| Fire
| Frame
| Elapse (d : Z).

Definition step (e : Event) (p : Page) : Page :=
  match e with
  | Click i => click i p
  | Popstate restored => popstate restored p
  | Fire => fire p
  | Frame => animation_frame p
  | Elapse d => set_now (now p + Z.max 0 d) p
  end.

Definition run (es : list Event) (p : Page) : Page := fold_left (fun q e => step e q) es p.

End Controller.

End Tabs.

(** ** The i18n loader as the specification words it *)

Module I18nSpec.
Import JS I18n.

(** What a segment must look like for the bracket pattern to match it. *)
Definition bracket_shape (k name digits : string) : Prop :=
  k = name ++ "[" ++ digits ++ "]"
  /\ name <> "" /\ has_line_terminator (list_ascii_of_string name) = false
  /\ digits <> "" /\ forallb is_digit (list_ascii_of_string digits) = true.

(** The segment [k] is a name with a trailing [[N]]. *)
Definition bracket_segment (k name : string) (index : N) : Prop :=
  exists digits, bracket_shape k name digits /\ index = parseInt digits.

(** [reaches v keys leaf]: walking the segments [keys] down from [v] ends at
    [leaf]. A plain segment names a property that is present; a segment
    with an index names a property that is an array, and an element of it
    that is in bounds. *)
Inductive reaches : json -> list string -> json -> Prop :=
| reaches_here (v : json) : reaches v [] v
| reaches_name (v w leaf : json) (k : string) (rest : list string) :
    (forall name index, ~ bracket_segment k name index) ->
    get_property v k = Some w ->
    reaches w rest leaf ->
    reaches v (k :: rest) leaf
| reaches_index (v w leaf : json) (k name : string) (index : N)
    (items : list json) (rest : list string) :
    bracket_segment k name index ->
    get_property v name = Some (JArr items) ->
    items !! N.to_nat index = Some w ->
    reaches w rest leaf ->
    reaches v (k :: rest) leaf.

Definition doc_ab : json := JObj [("a", JObj [("b", JStr "hello")])].

Definition doc_items : json := JObj [("items", JArr [JStr "x"; JStr "y"; JStr "z"])].

(** A capital letter of the Latin alphabet made small; any other character
    is left as it is. *)
Definition small (c : ascii) : ascii :=
  match c with
  | "A" => "a" | "B" => "b" | "C" => "c" | "D" => "d" | "E" => "e" | "F" => "f"
  | "G" => "g" | "H" => "h" | "I" => "i" | "J" => "j" | "K" => "k" | "L" => "l"
  | "M" => "m" | "N" => "n" | "O" => "o" | "P" => "p" | "Q" => "q" | "R" => "r"
  | "S" => "s" | "T" => "t" | "U" => "u" | "V" => "v" | "W" => "w" | "X" => "x"
  | "Y" => "y" | "Z" => "z"
  | _ => c
  end%char.

(** The first two characters, lowercased. *)
Definition normalized (s : string) : string :=
  string_of_list_ascii (map small (take 2 (list_ascii_of_string s))).

(** The language the user agent reports: the older [userLanguage] where a
    browser has it, [language] otherwise. *)
Definition reported_language (w : Browser) : string :=
  match navigator_userLanguage w with
  | Some s => if decide (s = "") then navigator_language w else s
  | None => navigator_language w
  end.

(** The sources of a language in the order of priority of the
    specification, each with its tag: the URL parameter and the stored
    preference as they are, the document attribute and the browser language
    normalized. *)
Definition candidates (w : Browser) : list (option string * LanguageSource) :=
  [ (params_get "lang" (location_search w), src_url);
    (localStorage w !! STORAGE_KEY, src_localStorage);
    (normalized <$> html_lang w, src_html);
    (Some (normalized (reported_language w)), src_browser) ].

(** The first candidate whose value is a supported locale, or the default. *)
Fixpoint first_supported (cs : list (option string * LanguageSource))
  : LocaleCode * LanguageSource :=
  match cs with
  | [] => (en, src_default)
  | (Some s, source) :: rest =>
      match includes s with
      | Some l => (l, source)
      | None => first_supported rest
      end
  | (None, _) :: rest => first_supported rest
  end.

(** A page opened with the query [q], the stored preference [stored] if
    any, the document attribute [html] and the browser language [language];
    the storage can be read. *)
Definition browser_with (q : list (string * string)) (stored html : option string)
  (language : string) : Browser :=
  {| location_search := q;
     storage_denied := false;
     localStorage := match stored with
                     | Some l => {[ STORAGE_KEY := l ]}
                     | None => ∅
                     end;
     html_lang := html;
     navigator_userLanguage := None;
     navigator_language := language |}.

(** The page of the example: [?lang=de], the stored preference "en", a
    document in French, an English browser. *)
Definition browser_example : Browser :=
  browser_with [("lang", "de")] (Some "en") (Some "fr") "en".

(** A German document in an English browser that refuses the page its
    storage, opened without a query. *)
Definition browser_blocked : Browser :=
  {| location_search := [];
     storage_denied := true;
     localStorage := ∅;
     html_lang := Some "de";
     navigator_userLanguage := None;
     navigator_language := "en" |}.

(** An old browser that reports German in [userLanguage] and English in
    [language], on a page that says nothing. *)
Definition browser_old : Browser :=
  {| location_search := [];
     storage_denied := false;
     localStorage := ∅;
     html_lang := None;
     navigator_userLanguage := Some "de-CH";
     navigator_language := "en-US" |}.

Definition is_object (v : json) : Prop := exists fields, v = JObj fields.

Section LoaderSpec.

Variable assets : LocaleCode -> Namespace -> import_result.

(** What the load of a namespace of the default locale gives. *)
Definition default_document (N : Namespace) : json :=
  match assets defaultLanguage N with
  | Resolves d => module_or_default d
  | Rejects _ => JObj []
  end.

(** What [loadNamespace] returns, and what it imports on the way. *)
Definition loaded_document (L : LocaleCode) (N : Namespace) : json :=
  match assets L N with
  | Resolves d => module_or_default d
  | Rejects _ => default_document N
  end.

Definition load_trace (L : LocaleCode) (N : Namespace) : list (LocaleCode * Namespace) :=
  match assets L N with
  | Resolves _ => [(L, N)]
  | Rejects _ => if decide (L = defaultLanguage) then [(L, N)] else [(L, N); (defaultLanguage, N)]
  end.

Definition log_imports (l : list (LocaleCode * Namespace)) (st : Store) : Store :=
  {| translationCache := translationCache st; heap := heap st;
     imports := imports st ++ l;
     pageLanguage := pageLanguage st; languageSource := languageSource st |}.

(** The document set a whole load of [L] builds. *)
Definition full_set (L : LocaleCode) : list (string * json) :=
  combine (map (fun n => (n, loaded_document L n)) translationNamespaces).

(** The import [loadNamespace] makes for the default language after the
    import for [L] has failed. *)
Definition fallback_trace (L : LocaleCode) (N : Namespace) : list (LocaleCode * Namespace) :=
  match assets L N with
  | Resolves _ => []
  | Rejects _ => if decide (L = defaultLanguage) then [] else [(defaultLanguage, N)]
  end.

(** The imports of a whole load of [L]: every namespace for [L], then for
    the default language those that have failed. *)
Definition locale_trace (L : LocaleCode) : list (LocaleCode * Namespace) :=
  map (fun n => (L, n)) translationNamespaces
  ++ flat_map (fallback_trace L) translationNamespaces.

(** The store after a whole load of [L] that missed the cache. *)
Definition after_load (L : LocaleCode) (st : Store) : Store :=
  with_cache (<[L := length (heap st)]> (translationCache st))
    (with_heap (heap st ++ [full_set L]) (log_imports (locale_trace L) st)).

(** A document set that holds every namespace. *)
Definition complete (o : list (string * json)) : Prop :=
  forall n : Namespace, exists doc, assoc (namespace_name n) o = Some doc.

(** The cache has no entry for [L], or one that holds every namespace. *)
Definition absent_or_complete (L : LocaleCode) (st : Store) : Prop :=
  match translationCache st !! L with
  | Some r => complete (deref st r)
  | None => True
  end.

End LoaderSpec.

(** Every import succeeds and gives an empty document. *)
Definition assets_empty : LocaleCode -> Namespace -> import_result :=
  fun _ _ => Resolves (JObj []).

(** The module as it is loaded: nothing cached. *)
Definition store_initial : Store :=
  {| translationCache := ∅; heap := []; imports := [];
     pageLanguage := en; languageSource := src_default |}.

(** The exported functions that reach the cache. [translatePage] and
    [changeLanguage] reach it through [loadLocaleFile(pageLanguage)] alone,
    as [t] does. *)
Inductive Call : Type :=
| CallLoadLocaleFile (locale : LocaleCode) (useCache : bool)
| CallLoadSingleNamespace (locale : LocaleCode) (namespace : Namespace)
| CallClearCache (locale : option LocaleCode)
| CallT (key : string) (variables : option (list (string * string))).

(** A call that has started its imports and awaits them. *)
Inductive Pending : Type :=
| PendingLocale (locale : LocaleCode) (useCache : bool)
| PendingNamespace (locale : LocaleCode) (namespace : Namespace).

(** The module with calls under way: its store, and the calls that await
    their imports, in the order in which they were made. *)
Record Running : Type := {
  running : Store;
  unsettled : list Pending
}.

(** What happens to the module: a call is made, which runs up to its
    [await], if it has one; or the imports of the pending call at position
    [i] have settled, and the call runs to its end. A call that is awaited
    is a call made and settled before anything else happens. *)
Inductive Turn : Type :=
| Made (c : Call)
| Settled (i : nat).

(** The call removes the entry of [L]: [clearCache(L)] or [clearCache()]. *)
Definition clears (L : LocaleCode) (e : Turn) : bool :=
  match e with
  | Made (CallClearCache (Some l)) => bool_decide (l = L)
  | Made (CallClearCache None) => true
  | _ => false
  end.

(** The call loads [L] past the cache: [loadLocaleFile(L, false)]. *)
Definition reloads (L : LocaleCode) (e : Turn) : bool :=
  match e with
  | Made (CallLoadLocaleFile l false) => bool_decide (l = L)
  | _ => false
  end.

(** A pending load of the whole of [L]: a call that did not return the
    entry of the cache. *)
Definition loads (L : LocaleCode) (c : Pending) : bool :=
  match c with
  | PendingLocale l _ => bool_decide (l = L)
  | PendingNamespace _ _ => false
  end.

(** No load of the whole of [L] is pending. *)
Definition none_loads (L : LocaleCode) (waiting : list Pending) : bool :=
  forallb (fun c => negb (loads L c)) waiting.

Section CallsSpec.

Variable assets : LocaleCode -> Namespace -> import_result.

Definition called_locale (locale : LocaleCode) (useCache : bool) (m : Running) : Running :=
  match loadLocaleFile_called locale useCache (running m) with
  | (Some _, st) => {| running := st; unsettled := unsettled m |}
  | (None, st) =>
      {| running := st; unsettled := unsettled m ++ [PendingLocale locale useCache] |}
  end.

Definition called_namespace (locale : LocaleCode) (namespace : Namespace) (m : Running)
  : Running :=
  match loadSingleNamespace_called locale namespace (running m) with
  | (Some _, st) => {| running := st; unsettled := unsettled m |}
  | (None, st) =>
      {| running := st; unsettled := unsettled m ++ [PendingNamespace locale namespace] |}
  end.

(** [t] awaits [loadLocaleFile(pageLanguage)] and leaves the module alone
    after it; [clearCache] does not await. *)
Definition made (c : Call) (m : Running) : Running :=
  match c with
  | CallLoadLocaleFile locale useCache => called_locale locale useCache m
  | CallLoadSingleNamespace locale namespace => called_namespace locale namespace m
  | CallClearCache locale =>
      {| running := clearCache locale (running m); unsettled := unsettled m |}
  | CallT _ _ => called_locale (pageLanguage (running m)) true m
  end.

Definition resumed (c : Pending) (st : Store) : Store :=
  match c with
  | PendingLocale locale useCache => snd (loadLocaleFile_resumed assets locale useCache st)
  | PendingNamespace locale namespace =>
      snd (loadSingleNamespace_resumed assets locale namespace st)
  end.

Definition turn (e : Turn) (m : Running) : Running :=
  match e with
  | Made c => made c m
  | Settled i =>
      match unsettled m !! i with
      | Some c => {| running := resumed c (running m); unsettled := delete i (unsettled m) |}
      | None => m
      end
  end.

Definition turns (es : list Turn) (m : Running) : Running :=
  fold_left (fun m1 e => turn e m1) es m.

End CallsSpec.

(** The module with nothing under way. *)
Definition at_rest (st : Store) : Running := {| running := st; unsettled := [] |}.

(** Replacing every occurrence of [needle] in a text by [value], from left
    to right, an occurrence starting where the previous one ended at the
    earliest. *)
Equations replace_all (needle value text : list ascii) : list ascii
  by wf (length text) lt :=
replace_all needle value [] := [];
replace_all needle value (c :: rest) with is_prefix needle (c :: rest) => {
  | true := (value ++ replace_all needle value (drop (length needle - 1) rest))%list
  | false := c :: replace_all needle value rest }.
Next Obligation. simpl. rewrite length_drop. lia. Qed.

(** The text with every [{name}] replaced by [value]. *)
Definition substitute (name value text : string) : string :=
  string_of_list_ascii
    (replace_all (list_ascii_of_string ("{" ++ name ++ "}")) (list_ascii_of_string value)
       (list_ascii_of_string text)).

(** One variable after the other, in the order of the entries. *)
Definition substitute_all (entries : list (string * string)) (text : string) : string :=
  fold_left (fun txt kv => substitute (fst kv) (snd kv) txt) entries text.

(** A variable whose name the pattern takes as plain characters, and whose
    value the replacement takes as plain characters. *)
Definition plain_variable (kv : string * string) : Prop :=
  existsb syntax_character (list_ascii_of_string (fst kv)) = false
  /\ quantifier_body (list_ascii_of_string (fst kv)) = false
  /\ existsb (Ascii.eqb "$") (list_ascii_of_string (snd kv)) = false.

(** The English "common" document of the examples; every other document is
    empty. *)
Definition assets_greeting : LocaleCode -> Namespace -> import_result :=
  fun l n =>
    match l, n with
    | en, common =>
        Resolves (JObj [("hello", JStr "Hello, {name}!");
                        ("numbered", JStr "Hello {0}");
                        ("blank", JStr "")])
    | _, _ => Resolves (JObj [])
    end.

(** An engine that leaves the text alone on the patterns not interpreted. *)
Definition other_replace_id : string -> string -> string -> outcome string :=
  fun _ text _ => Returned text.

End I18nSpec.

(** ** The tab controller as the specification words it *)

Module TabsSpec.
Import JS Tabs.
Local Open Scope Z_scope.

(** [reshape p ...]: the page [p] with its content blocks, wrapper, frame
    requests and record of activations replaced, and timers added. *)
Definition reshape (p : Page) (cs : list ContentElement) (w : option WrapperElement)
  (fr : list nat) (acts : list (string * bool)) (added : list Timer)
  (h : positive) (s : nat) : Page :=
  {| tabs := tabs p; contents := cs; wrapper := w; search := search p;
     pushed := pushed p; frame_requests := fr;
     currentTabIndex := currentTabIndex p;
     autoRotateInterval_id := autoRotateInterval_id p; now := now p;
     timers := timers p ++ added; next_handle := h; next_stamp := s;
     activations := acts; fired := fired p |}.

(** The timers added are timeouts, none of them a rotation tick, armed with
    stamps from [next_stamp p] on and handles from [next_handle p] on. *)
Definition adds (p : Page) (added : list Timer) (h : positive) (s : nat) : Prop :=
  Forall (fun tm => task tm <> RotationTick /\ repeat_ tm = false
                    /\ (next_stamp p <= stamp tm < s)%nat
                    /\ (next_handle p <= handle tm < h)%positive) added
  /\ NoDup (map stamp added)
  /\ (next_stamp p <= s)%nat /\ (next_handle p <= h)%positive.

(** [q] is [p] after changes to the content and timeouts armed for it. *)
Definition extends (p q : Page) : Prop :=
  exists cs w fr acts added h s,
    q = reshape p cs w fr acts added h s /\ adds p added h s.

(** The trigger carries the three classes of an active trigger. *)
Definition carries_all (tab : TabElement) : bool :=
  forallb (fun c => class_contains c (tab_classes tab)) active_classes.

(** The trigger carries none of them. *)
Definition carries_none (tab : TabElement) : bool :=
  forallb (fun c => negb (class_contains c (tab_classes tab))) active_classes.

(** The value of the last [switchContent]. *)
Definition current_value (p : Page) : option string := fst <$> head (activations p).

(** The trigger at position [i] declares the value [v] and is the one
    active trigger of the page. *)
Definition one_active (p : Page) (i : nat) (v : string) : Prop :=
  (exists tab, tabs p !! i = Some tab /\ tab_value tab = Some v /\ carries_all tab = true)
  /\ (forall j tab, j <> i -> tabs p !! j = Some tab -> carries_none tab = true).

Definition tab_invariant (p : Page) : Prop :=
  exists i v, current_value p = Some v /\ one_active p i v.

(** The triggers and the record of activations are as they were. *)
Definition same_triggers (p q : Page) : Prop :=
  tabs q = tabs p /\ activations q = activations p.

(** The configuration [main.ts] gives [initTabs] for the tech tabs. *)
Definition tech_config : TabConfig :=
  {| queryParam := "tech"; defaultTab := "ai-matching"; showAll := false;
     animationType := "fade-left"; animationDuration := 600; staggerDelay := 1000;
     autoRotate := true; autoRotateInterval := 5000 |}.

Definition trigger (v : string) : TabElement := {| tab_value := Some v; tab_classes := [] |}.

Definition block (v : string) : ContentElement :=
  {| content_value := Some v; style_display := ""; content_classes := [];
     css_delay := None; css_duration := None; data_animate := None; offsetHeight := 120 |}.

(** Three triggers and their three blocks, loaded with the query [q]. *)
Definition tech_page (q : list (string * string)) : Page :=
  {| tabs := [trigger "ai-matching"; trigger "real-time"; trigger "analytics"];
     contents := [block "ai-matching"; block "real-time"; block "analytics"];
     wrapper := Some {| style_minHeight := MinHeightInitial; style_transition := None;
                        wrapper_offsetHeight := 120 |};
     search := q; pushed := []; frame_requests := [];
     currentTabIndex := 0; autoRotateInterval_id := None;
     now := 0; timers := []; next_handle := 1%positive; next_stamp := 0%nat;
     activations := []; fired := [] |}.

(** A rotation tick that is pending belongs to the interval whose handle
    the controller holds; the stamps of the pending timers are distinct and
    below the next one; and only rotation ticks repeat. *)
Definition timers_tracked (p : Page) : Prop :=
  (forall tm, In tm (timers p) -> task tm = RotationTick ->
              autoRotateInterval_id p = Some (handle tm))
  /\ (forall tm, In tm (timers p) -> (stamp tm < next_stamp p)%nat)
  /\ NoDup (map stamp (timers p))
  /\ (forall tm, In tm (timers p) -> repeat_ tm = true -> task tm = RotationTick).

(** The timers, the clock and the handle of the interval are as they were. *)
Definition same_scheduler (p q : Page) : Prop :=
  timers q = timers p
  /\ autoRotateInterval_id q = autoRotateInterval_id p
  /\ next_stamp q = next_stamp p /\ next_handle q = next_handle p
  /\ now q = now p /\ fired q = fired p.

(** [q] is [p] after changes to the triggers, the URL and the content, and
    timeouts armed for the content. *)
Definition advances (p q : Page) : Prop :=
  exists q0, same_scheduler p q0 /\ extends q0 q.

Section RotationSpec.

Variable config : TabConfig.

(** The interval [startAutoRotation] arms on the page [p]. *)
Definition rotation_timer (p : Page) : Timer :=
  {| handle := next_handle p; stamp := next_stamp p;
     due := now p + Z.max 0 (autoRotateInterval config);
     delay := autoRotateInterval config; repeat_ := true; task := RotationTick |}.

(** The page of [click] once the interval is cleared. *)
Definition cleared (p : Page) : Page :=
  match autoRotateInterval_id p with
  | Some id => set_autoRotateInterval_id None (clearInterval id p)
  | None => p
  end.





End RotationSpec.

End TabsSpec.

(** ** i18n.ts: the active language, the page and its translation *)

Module I18nPage.
Import JS I18n.

(** *** The URL and the stored preference *)

Definition with_search (q : list (string * string)) (w : Browser) : Browser :=
  {| location_search := q; storage_denied := storage_denied w;
     localStorage := localStorage w; html_lang := html_lang w;
     navigator_userLanguage := navigator_userLanguage w;
     navigator_language := navigator_language w |}.

Definition with_storage (s : gmap string string) (w : Browser) : Browser :=
  {| location_search := location_search w; storage_denied := storage_denied w;
     localStorage := s; html_lang := html_lang w;
     navigator_userLanguage := navigator_userLanguage w;
     navigator_language := navigator_language w |}.

Definition with_html_lang (a : option string) (w : Browser) : Browser :=
  {| location_search := location_search w; storage_denied := storage_denied w;
     localStorage := localStorage w; html_lang := a;
     navigator_userLanguage := navigator_userLanguage w;
     navigator_language := navigator_language w |}.

(** [url.searchParams.set("lang", language)], the URL put back with
    [history.replaceState]. *)
Definition updateUrlLanguage (language : LocaleCode) (w : Browser) : Browser :=
  with_search (params_set "lang" (locale_code language) (location_search w)) w.

(** [localStorage.setItem(key, value)]. *)
Definition setItem (key value : string) (w : Browser) : outcome Browser :=
  if storage_denied w then Thrown "SecurityError"
  else Returned (with_storage (<[key := value]> (localStorage w)) w).


Definition saveLanguagePreference (language : LocaleCode) (w : Browser) : outcome Browser :=
  setItem STORAGE_KEY (locale_code language) w.


(** *** The elements of the page *)

(** An element [querySelectorAll("[data-i18n]")] returns: the attribute,
    the entries of [element.dataset], and the markup last written to
    [innerHTML]. *)
Record TextElement : Type := {
  data_i18n : string;
  dataset : list (string * string);
  innerHTML : string
}.

(** An element with [data-i18n-placeholder]; [is_field] is
    [element instanceof HTMLInputElement || element instanceof
    HTMLTextAreaElement]. *)
Record FieldElement : Type := {
  data_i18n_placeholder : string;
  is_field : bool;
  placeholder : string
}.

(** An element with [data-i18n-content] and its [content] attribute. *)
Record MetaElement : Type := {
  data_i18n_content : string;
  content : option string
}.

(** A [select] among the language selectors: the values of its options
    and the value it shows. *)
Record SelectElement : Type := {
  option_values : list string;
  select_value : string
}.

(** The module state, the browser, and the elements the three queries of
    [translatePage] and the query of [updateLanguageSelectors] return.
    Elements are told apart by their position; the lists of the second and
    third query are those of the page once the texts are written. *)
Record Site : Type := {
  store : Store;
  window : Browser;
  text_elements : list TextElement;
  placeholder_elements : list FieldElement;
  content_elements : list MetaElement;
  language_selectors : list SelectElement
}.

Definition with_store (st : Store) (s : Site) : Site :=
  {| store := st; window := window s; text_elements := text_elements s;
     placeholder_elements := placeholder_elements s;
     content_elements := content_elements s;
     language_selectors := language_selectors s |}.

Definition with_window (w : Browser) (s : Site) : Site :=
  {| store := store s; window := w; text_elements := text_elements s;
     placeholder_elements := placeholder_elements s;
     content_elements := content_elements s;
     language_selectors := language_selectors s |}.

(** [pageLanguage = language; languageSource = source]. *)
Definition set_language (language : LocaleCode) (source : LanguageSource) (st : Store)
  : Store :=
  {| translationCache := translationCache st; heap := heap st; imports := imports st;
     pageLanguage := language; languageSource := source |}.

Definition getLanguageInfo (st : Store) : LocaleCode * LanguageSource :=
  (pageLanguage st, languageSource st).

(** *** Variables of a text *)

(** A line terminator starts here: the atom [.] refuses to go on. *)
Definition line_terminator_ahead (cs : list ascii) : bool :=
  match cs with
  | [] => false
  | c :: rest =>
      let n := N_of_ascii c in
      ((n =? 10) || (n =? 13))%N
      || match rest with
         | c1 :: c2 :: _ =>
             ((n =? 226) && (N_of_ascii c1 =? 128)
              && ((N_of_ascii c2 =? 168) || (N_of_ascii c2 =? 169)))%N
         | _ => false
         end
  end.

(** [(.*?)}] from here: the characters up to the first closing brace and
    with it, when no line terminator comes before it. *)
Fixpoint close_brace (cs : list ascii) : option (list ascii) :=
  match cs with
  | [] => None
  | c :: rest =>
      if Ascii.eqb c "}" then Some [c]
      else if line_terminator_ahead cs then None
      else match close_brace rest with
           | Some m => Some (c :: m)
           | None => None
           end
  end.

(** The matches of [/{(.*?)}/g] from left to right; [skip] counts the
    characters of the last match still to step over. *)
Fixpoint placeholders_from (cs : list ascii) (skip : nat) : list string :=
  match cs with
  | [] => []
  | c :: rest =>
      match skip with
      | S k => placeholders_from rest k
      | O =>
          if Ascii.eqb c "{" then
            match close_brace rest with
            | Some m => string_of_list_ascii (c :: m) :: placeholders_from rest (length m)
            | None => placeholders_from rest 0
            end
          else placeholders_from rest 0
      end
  end.

(** [text.match(/{(.*?)}/g)], the empty list for [null]. *)
Definition placeholders (text : string) : list string :=
  placeholders_from (list_ascii_of_string text) 0.

(** [variable.slice(1, -1)]. *)
Definition slice_1_m1 (variable : string) : string :=
  string_of_list_ascii (removelast (tl (list_ascii_of_string variable))).

(** The scan of [text.replace(needle, value)] for a string [needle]: the
    first occurrence is replaced, [before_rev] being the text passed. *)
Fixpoint replace_first_from (needle value before_rev rest : list ascii) {struct rest}
  : list ascii :=
  if is_prefix needle rest then
    expand_replacement value needle (rev before_rev) (drop (length needle) rest)
    ++ drop (length needle) rest
  else match rest with
       | [] => []
       | c :: rest1 => c :: replace_first_from needle value (c :: before_rev) rest1
       end.

Definition replace_first (needle value text : string) : string :=
  string_of_list_ascii
    (replace_first_from (list_ascii_of_string needle) (list_ascii_of_string value) []
       (list_ascii_of_string text)).

Section Translation.

Variable localeImportMap : LocaleCode -> Namespace -> import_result.

(** What the [try] block of [processVariables] gives for a data value, a
    variable and the text so far:
    [processedText.replace(variable, new Function(`return (${value})`)())],
    or the exception of the construction, of the call or of the
    replacement. The expression is taken to leave the page and the module
    alone. *)
Variable evaluated : string -> string -> string -> outcome string.

(** The [try] and its [catch]. *)
Definition replace_variable (variable value processedText : string) : string :=
  match evaluated value variable processedText with
  | Returned replaced => replaced
  | Thrown _ => replace_first variable value processedText
  end.

(** The body of [Object.entries(element.dataset).forEach(...)]. *)
Definition apply_entry (variable varName processedText : string)
  (entry : string * string) : string :=
  if String.eqb (fst entry) varName && negb (String.eqb (snd entry) "")
  then replace_variable variable (snd entry) processedText
  else processedText.

Definition processVariables (text : string) (element : TextElement) : string :=
  match placeholders text with
  | [] => text
  | variables =>
      fold_left
        (fun processedText variable =>
           fold_left (apply_entry variable (slice_1_m1 variable)) (dataset element)
             processedText)
        variables text
  end.

(** *** Translating the page *)

(** A key that passes [if (!key) return] and a text that passes
    [if (!text)]. *)
Definition translation (key : string) (json_ : json) : option string :=
  if String.eqb key "" then None
  else match getNestedTranslation key json_ with
       | Some text => if String.eqb text "" then None else Some text
       | None => None
       end.

Definition translate_text (json_ : json) (element : TextElement) : TextElement :=
  match translation (data_i18n element) json_ with
  | Some text =>
      {| data_i18n := data_i18n element; dataset := dataset element;
         innerHTML := processVariables text element |}
  | None => element
  end.

Definition translate_placeholder (json_ : json) (element : FieldElement) : FieldElement :=
  match translation (data_i18n_placeholder element) json_ with
  | Some text =>
      if is_field element then
        {| data_i18n_placeholder := data_i18n_placeholder element;
           is_field := true; placeholder := text |}
      else element
  | None => element
  end.

Definition translate_content (json_ : json) (element : MetaElement) : MetaElement :=
  match translation (data_i18n_content element) json_ with
  | Some text =>
      {| data_i18n_content := data_i18n_content element; content := Some text |}
  | None => element
  end.

(** [selector.value = v] on a [select]: the option of that value is the
    one selected, and none is when no option has it. *)
Definition set_select_value (v : string) (selector : SelectElement) : SelectElement :=
  {| option_values := option_values selector;
     select_value := if existsb (String.eqb v) (option_values selector) then v else "" |}.

Definition updateLanguageSelectors (language : LocaleCode)
  (selectors : list SelectElement) : list SelectElement :=
  map (fun selector =>
         if String.eqb (select_value selector) (locale_code language) then selector
         else set_select_value (locale_code language) selector)
    selectors.

Definition translatePage (s : Site) : Site :=
  match loadLocaleFile localeImportMap (pageLanguage (store s)) true (store s) with
  | (Returned r, st1) =>
      let json_ := JObj (deref st1 r) in
      {| store := st1;
         window := with_html_lang (Some (locale_code (pageLanguage st1))) (window s);
         text_elements := map (translate_text json_) (text_elements s);
         placeholder_elements := map (translate_placeholder json_) (placeholder_elements s);
         content_elements := map (translate_content json_) (content_elements s);
         language_selectors := updateLanguageSelectors (pageLanguage st1)
                                 (language_selectors s) |}
  | (Thrown _, st1) => with_store st1 s
  end.

(** [newLanguage] is whatever string the caller hands in. The promise is
    rejected when the preference cannot be saved: the language is changed
    and the URL written by then, the page is not translated. *)
Definition changeLanguage (newLanguage : string) (updateUrl savePreference : bool)
  (s : Site) : outcome unit * Site :=
  match includes newLanguage with
  | None => (Returned tt, s)
  | Some language =>
      let s1 := with_store (set_language language src_manual (store s)) s in
      let s2 := if updateUrl then with_window (updateUrlLanguage language (window s1)) s1
                else s1 in
      if savePreference then
        match saveLanguagePreference language (window s2) with
        | Returned w => (Returned tt, translatePage (with_window w s2))
        | Thrown err => (Thrown err, s2)
        end
      else (Returned tt, translatePage s2)
  end.

(** The promise is rejected when the detection throws; nothing is changed
    then. *)
Definition redetectLanguage (s : Site) : outcome unit * Site :=
  match detectLanguage (window s) with
  | Returned detected =>
      (Returned tt,
       translatePage (with_store (set_language (fst detected) (snd detected) (store s)) s))
  | Thrown err => (Thrown err, s)
  end.

End Translation.

End I18nPage.

(** ** The translation of the page as its properties word it *)

Module I18nPageSpec.
Import JS I18n I18nPage.

Section TranslationSpec.

Variable assets : LocaleCode -> Namespace -> import_result.

(** The store a load of the active language leaves. *)
Definition loaded_store (st : Store) : Store :=
  snd (loadLocaleFile assets (pageLanguage st) true st).

(** The document set a load of the active language returns. *)
Definition loaded_set (st : Store) : json :=
  match fst (loadLocaleFile assets (pageLanguage st) true st) with
  | Returned r => JObj (deref (loaded_store st) r)
  | Thrown _ => JObj []
  end.

End TranslationSpec.

(** What [detectLanguage] answers from the URL and the storage alone:
    [fallback] when neither names a supported language, and the error of
    the storage when it is reached and cannot be read. *)
Definition preferred (w : Browser) (fallback : LocaleCode * LanguageSource)
  : outcome (LocaleCode * LanguageSource) :=
  match valid_locale (params_get "lang" (location_search w)) with
  | Some fromUrl => Returned (fromUrl, src_url)
  | None =>
      if storage_denied w then Thrown "SecurityError"
      else match valid_locale (localStorage w !! STORAGE_KEY) with
           | Some fromStorage => Returned (fromStorage, src_localStorage)
           | None => Returned fallback
           end
  end.

(** The text has a variable that names a data attribute with a value. *)
Definition names_data (text : string) (element : TextElement) : Prop :=
  exists variable key value,
    In variable (placeholders text) /\ In (key, value) (dataset element)
    /\ key = slice_1_m1 variable /\ value <> "".

(** The entries of the dataset under the name [name]. *)
Definition data_named (name : string) (element : TextElement) : list (string * string) :=
  List.filter (fun entry => String.eqb (fst entry) name) (dataset element).

(** An expression that is no JavaScript: the evaluation throws. *)
Definition evaluation_fails : string -> string -> string -> outcome string :=
  fun _ _ _ => Thrown "ReferenceError".

(** A page with a heading, a search field, a description and a selector,
    opened as [browser_example] says, German detected from the URL, before
    anything is loaded. *)
Definition site_example : Site :=
  {| store := set_language de src_url I18nSpec.store_initial;
     window := I18nSpec.browser_example;
     text_elements :=
       [{| data_i18n := "common.hello"; dataset := [("name", "Alice")]; innerHTML := "" |}];
     placeholder_elements :=
       [{| data_i18n_placeholder := "common.search"; is_field := true; placeholder := "" |}];
     content_elements := [{| data_i18n_content := "common.blank"; content := None |}];
     language_selectors := [{| option_values := ["en"; "de"]; select_value := "en" |}] |}.

(** The German assets are missing; the English ones are those of the
    examples. *)
Definition assets_english_only : LocaleCode -> Namespace -> import_result :=
  fun l n =>
    match l with
    | de => Rejects "404"
    | en => I18nSpec.assets_greeting en n
    end.

(** The imports of the namespace [n] among those of a log. *)
Definition imports_of (n : Namespace) (log : list (LocaleCode * Namespace))
  : list (LocaleCode * Namespace) :=
  List.filter (fun x => bool_decide (snd x = n)) log.

(** Every object the cache names is on the heap, and no two locales name
    the same object. *)
Definition well_formed (st : Store) : Prop :=
  (forall l r, translationCache st !! l = Some r -> r < length (heap st))
  /\ (forall l1 l2 r,
        translationCache st !! l1 = Some r -> translationCache st !! l2 = Some r ->
        l1 = l2).

End I18nPageSpec.

(** ** The content of the tabs as its properties word it *)

Module TabsContentSpec.
Import JS Tabs TabsSpec.
Local Open Scope Z_scope.

(** The classes [updateActiveTab] adds and removes. *)
Definition managed_classes : list string :=
  ["active"; "text-primary"; "bg-primary-bg"; "text-text-secondary"].

(** A callback of [switchContent]: it hides a block or shows blocks. *)
Definition content_task (tk : Task) : bool :=
  match tk with
  | HideItem _ | ShowItems _ => true
  | _ => false
  end.

(** The block is in the layout and faded in. *)
Definition shown (c : ContentElement) : Prop :=
  style_display c = "block" /\ class_contains "is-visible" (content_classes c) = true.

(** The block is out of the layout and not faded in. *)
Definition hidden (c : ContentElement) : Prop :=
  style_display c = "none" /\ class_contains "is-visible" (content_classes c) = false.

(** The triggers and the blocks of [q] are those of [p], with the values
    they declare, in the same order. *)
Definition same_elements (p q : Page) : Prop :=
  map tab_value (tabs q) = map tab_value (tabs p)
  /\ map content_value (contents q) = map content_value (contents p).

(** The rotation ticks that are pending. *)
Definition pending_ticks (p : Page) : list Timer :=
  List.filter (fun tm => match task tm with RotationTick => true | _ => false end)
    (timers p).

(** The interval the controller holds is pending with a single tick, which
    repeats; when it holds none, no tick is pending. *)
Definition one_interval (p : Page) : Prop :=
  match autoRotateInterval_id p with
  | Some id =>
      exists tm, pending_ticks p = [tm] /\ handle tm = id /\ repeat_ tm = true
  | None => pending_ticks p = []
  end.

(** The configuration [main.ts] gives [initTabs] for the feature tabs: no
    rotation, [autoRotateInterval] at its default. *)
Definition feature_config : TabConfig :=
  {| queryParam := "feature"; defaultTab := "individuals"; showAll := false;
     animationType := "fade-up"; animationDuration := 600; staggerDelay := 0;
     autoRotate := false; autoRotateInterval := 5000 |}.

(** Three triggers and their three blocks. *)
Definition feature_page : Page :=
  {| tabs := [trigger "individuals"; trigger "teams"; trigger "companies"];
     contents := [block "individuals"; block "teams"; block "companies"];
     wrapper := Some {| style_minHeight := MinHeightInitial; style_transition := None;
                        wrapper_offsetHeight := 120 |};
     search := []; pushed := []; frame_requests := [];
     currentTabIndex := 0; autoRotateInterval_id := None;
     now := 0; timers := []; next_handle := 1%positive; next_stamp := 0%nat;
     activations := []; fired := [] |}.

(** The feature tabs loaded and settled, then a click on the second trigger
    and, 20 ms later, a click on the first, and everything that was armed
    run. *)
Definition two_quick_clicks : Page :=
  run feature_config
    ([Click 1; Elapse 20; Click 0] ++ repeat Fire 12 ++ [Frame])
    (run feature_config (repeat Fire 4 ++ [Frame]) (initTabs feature_config feature_page)).

(** What is left to run of a timeout: itself, and for the show phase the
    two timers it arms for the wrapper. A rotation tick, which comes again
    and again, counts for nothing. *)
Definition timer_weight (tm : Timer) : nat :=
  match task tm with
  | ShowItems _ => 3
  | RotationTick => 0
  | _ => 1
  end.

Definition pending_weight (p : Page) : nat :=
  list_sum (map timer_weight (timers p)).

(** The handles given out are below the next one, so is the handle of the
    interval the controller holds, and no timeout shares it. *)
Definition handles_apart (p : Page) : Prop :=
  (forall tm, In tm (timers p) -> (handle tm < next_handle p)%positive)
  /\ (forall id, autoRotateInterval_id p = Some id -> (id < next_handle p)%positive)
  /\ (forall tm, In tm (timers p) -> task tm <> RotationTick ->
                 autoRotateInterval_id p <> Some (handle tm)).

(** The content is at rest: no callback of a switch is pending and no
    frame is requested. *)
Definition content_quiet (p : Page) : bool :=
  forallb (fun tm => negb (content_task (task tm))) (timers p)
  && match frame_requests p with [] => true | _ :: _ => false end.

(** No timer is pending but rotation ticks. *)
Definition only_ticks (p : Page) : bool :=
  forallb (fun tm => match task tm with RotationTick => true | _ => false end) (timers p).

(** The event leaves the content to the switch under way: it is no click
    and no navigation, and the timer it runs, if it runs one, is no rotation
    tick. *)
Definition undisturbed (e : Event) (p : Page) : bool :=
  match e with
  | Click _ | Popstate _ => false
  | Fire =>
      match next_timer (timers p) with
      | Some tm => match task tm with RotationTick => false | _ => true end
      | None => true
      end
  | Frame | Elapse _ => true
  end.

Section SettlingSpec.

Variable config : TabConfig.

(** Every event of the run leaves the content to the switch under way. *)
Fixpoint undisturbed_run (es : list Event) (p : Page) : bool :=
  match es with
  | [] => true
  | e :: rest => undisturbed e p && undisturbed_run rest (step config e p)
  end.

(** [q] is the page [p] right after [switchContent(tabValue, _)] was called
    on it: by itself, by the click on a trigger that declares the value, by
    a navigation to the value, or by the rotation tick that comes next and
    lands on a trigger that declares the value. *)
Inductive switches (tabValue : string) (p : Page) : Page -> Prop :=
| switches_call (animate : bool) :
    switches tabValue p (switchContent config tabValue animate p)
| switches_click (i : nat) (tab : TabElement) :
    tabs p !! i = Some tab -> truthy_value (tab_value tab) = Some tabValue ->
    switches tabValue p (click config i p)
| switches_popstate (restored : list (string * string)) (i : nat) :
    url_or_default config (set_location restored false p) = tabValue ->
    find_tab tabValue 0 (tabs p) = Some i ->
    switches tabValue p (popstate config restored p)
| switches_tick (tm : Timer) (tab : TabElement) :
    next_timer (timers p) = Some tm -> task tm = RotationTick ->
    tabs p !! Nat.modulo (currentTabIndex p + 1) (length (tabs p)) = Some tab ->
    truthy_value (tab_value tab) = Some tabValue ->
    switches tabValue p (fire config p).

(** The blocks of [q] are as a switch to [tabValue] called on [p] is to
    leave them: a block the switch is to show (it declares the value, or
    the group shows all and the value is "all") is in the layout and faded
    in, every other block is out of the layout and not faded in. *)
Definition settled (tabValue : string) (p q : Page) : Prop :=
  forall i c,
    contents p !! i = Some c ->
    exists c1,
      contents q !! i = Some c1
      /\ content_value c1 = content_value c
      /\ (shouldShow config tabValue c = true -> shown c1)
      /\ (shouldShow config tabValue c = false -> hidden c1).

(** Where a page [q] stands after [switchContent(tabValue, _)] was called
    on the page [p], on which the content was at rest. The callbacks of a
    switch that are pending are those of this switch. A block not to show
    is faded out, and out of the layout unless the timer that takes it out
    is pending; a block to show is in the layout, and faded in or about to
    be at the next frame, unless the timer of the show phase is pending. *)
Definition settling (tabValue : string) (p q : Page) : Prop :=
  map content_value (contents q) = map content_value (contents p)
  /\ timers_tracked q
  /\ handles_apart q
  /\ (forall tm,
        In tm (timers q) -> content_task (task tm) = true ->
        task tm = ShowItems (itemsToShow config tabValue p)
        \/ exists i c,
             task tm = HideItem i /\ contents p !! i = Some c
             /\ shouldShow config tabValue c = false)
  /\ (forall i c,
        contents p !! i = Some c -> shouldShow config tabValue c = false ->
        ~ In i (frame_requests q)
        /\ exists c1,
             contents q !! i = Some c1
             /\ content_value c1 = content_value c
             /\ class_contains "is-visible" (content_classes c1) = false
             /\ (style_display c1 = "none"
                 \/ exists tm, In tm (timers q) /\ task tm = HideItem i))
  /\ (forall i c,
        contents p !! i = Some c -> shouldShow config tabValue c = true ->
        (exists tm, In tm (timers q)
                    /\ task tm = ShowItems (itemsToShow config tabValue p))
        \/ exists c1,
             contents q !! i = Some c1
             /\ content_value c1 = content_value c
             /\ style_display c1 = "block"
             /\ (class_contains "is-visible" (content_classes c1) = true
                 \/ In i (frame_requests q))).

End SettlingSpec.


(** The tech tabs loaded and at rest: the content timers of [initTabs] have
    run and the frame is drawn; the restart of the rotation is pending. *)
Definition tech_loaded : Page :=
  run tech_config (repeat Fire 4 ++ [Frame]) (initTabs tech_config (tech_page [])).

End TabsContentSpec.

(** ** Properties of the i18n loader *)

Module I18nFacts.
Import JS I18n I18nSpec.

(** *** Strings as lists of characters *)

Lemma list_ascii_app (a b : string) :
  list_ascii_of_string (a ++ b) = (list_ascii_of_string a ++ list_ascii_of_string b)%list.
Proof. induction a as [|c a IH]; simpl; [reflexivity | now rewrite IH]. Qed.

Lemma string_of_list_inj (a b : string) :
  list_ascii_of_string a = list_ascii_of_string b -> a = b.
Proof.
  intros H. rewrite <- (string_of_list_ascii_of_string a), H.
  apply string_of_list_ascii_of_string.
Qed.

Lemma span_digits_spec (cs ds tl : list ascii) :
  span_digits cs = (ds, tl) ->
  cs = (ds ++ tl)%list /\ forallb is_digit ds = true.
Proof.
  revert ds tl. induction cs as [|c cs IH]; intros ds tl; simpl.
  - intros [= <- <-]. split; reflexivity.
  - destruct (is_digit c) eqn:Hc.
    + destruct (span_digits cs) as [ds1 tl1]. intros [= <- <-].
      destruct (IH ds1 tl1 eq_refl) as [-> Hds]. split; [reflexivity|].
      simpl. now rewrite Hc, Hds.
    + intros [= <- <-]. split; reflexivity.
Qed.

Lemma span_digits_app (ds tl : list ascii) (c : ascii) :
  forallb is_digit ds = true -> is_digit c = false ->
  span_digits (ds ++ c :: tl) = (ds, c :: tl).
Proof.
  intros Hds Hc. induction ds as [|d ds IH]; simpl in *.
  - now rewrite Hc.
  - apply andb_prop in Hds as [Hd Hds]. rewrite Hd, (IH Hds). reflexivity.
Qed.

Lemma forallb_rev {A : Type} (f : A -> bool) (l : list A) :
  forallb f (rev l) = forallb f l.
Proof.
  induction l as [|x l IH]; simpl; [reflexivity|].
  rewrite forallb_app, IH. simpl. rewrite andb_true_r. apply andb_comm.
Qed.

Lemma match_bracket_sound (k name digits : string) :
  match_bracket k = Some (name, digits) -> bracket_shape k name digits.
Proof.
  unfold match_bracket, bracket_shape.
  destruct (rev (list_ascii_of_string k)) as [|c r1] eqn:Hrev; [discriminate|].
  destruct (Ascii.eqb c "]") eqn:Hc; [|discriminate].
  apply Ascii.eqb_eq in Hc. subst c.
  destruct (span_digits r1) as [ds_rev r2] eqn:Hspan.
  apply span_digits_spec in Hspan as [-> Hds].
  destruct ds_rev as [|d ds_rev]; [discriminate|].
  destruct r2 as [|o [|n name_rev]]; try discriminate.
  destruct (Ascii.eqb o "[") eqn:Ho; [|discriminate].
  apply Ascii.eqb_eq in Ho. subst o.
  destruct (has_line_terminator (rev (n :: name_rev))) eqn:Hlt; [discriminate|].
  simpl. intros [= <- <-].
  rewrite !list_ascii_of_string_of_list_ascii.
  assert (Hk : list_ascii_of_string k
               = (rev (n :: name_rev) ++ "["%char :: rev (d :: ds_rev) ++ ["]"%char])%list).
  { rewrite <- (rev_involutive (list_ascii_of_string k)), Hrev.
    simpl. rewrite !rev_app_distr. simpl. rewrite <- !app_assoc. reflexivity. }
  split; [|split; [|split; [|split]]].
  - apply string_of_list_inj. rewrite Hk, !list_ascii_app.
    rewrite !list_ascii_of_string_of_list_ascii. reflexivity.
  - intros H. apply (f_equal list_ascii_of_string) in H.
    rewrite list_ascii_of_string_of_list_ascii in H. simpl in H.
    now destruct (rev name_rev).
  - exact Hlt.
  - intros H. apply (f_equal list_ascii_of_string) in H.
    rewrite list_ascii_of_string_of_list_ascii in H. simpl in H.
    now destruct (rev ds_rev).
  - change (rev ds_rev ++ [d])%list with (rev (d :: ds_rev)).
    rewrite forallb_rev. exact Hds.
Qed.

Lemma match_bracket_complete (k name digits : string) :
  bracket_shape k name digits -> match_bracket k = Some (name, digits).
Proof.
  intros (-> & Hname & Hlt & Hdigits & Hds). unfold match_bracket.
  rewrite !list_ascii_app. simpl. rewrite !rev_app_distr. simpl.
  rewrite <- app_assoc. simpl. rewrite rev_app_distr. simpl.
  rewrite (span_digits_app (rev (list_ascii_of_string digits)) _ "[");
    [| now rewrite forallb_rev | reflexivity].
  destruct (rev (list_ascii_of_string digits)) as [|d ds] eqn:Hd.
  { exfalso. apply Hdigits, string_of_list_inj.
    rewrite <- (rev_involutive (list_ascii_of_string digits)), Hd. reflexivity. }
  destruct (rev (list_ascii_of_string name)) as [|n ns] eqn:Hn.
  { exfalso. apply Hname, string_of_list_inj.
    rewrite <- (rev_involutive (list_ascii_of_string name)), Hn. reflexivity. }
  rewrite <- Hn, <- Hd, !rev_involutive, Hlt. simpl.
  now rewrite !string_of_list_ascii_of_string.
Qed.

(** *** The walk of [getNestedTranslation], read from the specification *)

Lemma array_get_lookup (items : list json) (i : N) (w : json) :
  array_get items i = Some w <-> items !! N.to_nat i = Some w.
Proof.
  unfold array_get. destruct (N.ltb_spec i (N.of_nat (length items))) as [Hlt|Hge].
  - reflexivity.
  - split; [discriminate|]. intros H. apply lookup_lt_Some in H. lia.
Qed.

Lemma bracket_segment_match (k name : string) (index : N) :
  bracket_segment k name index <->
  exists digits, match_bracket k = Some (name, digits) /\ index = parseInt digits.
Proof.
  split; intros (digits & H & ->); exists digits; split; try reflexivity.
  - now apply match_bracket_complete.
  - now apply match_bracket_sound.
Qed.

Lemma descend_reaches (v w : json) (k : string) :
  descend v k = Some w <->
  ((forall name index, ~ bracket_segment k name index) /\ get_property v k = Some w)
  \/ (exists name index items,
        bracket_segment k name index /\ get_property v name = Some (JArr items)
        /\ items !! N.to_nat index = Some w).
Proof.
  unfold descend. destruct (match_bracket k) as [[name digits]|] eqn:Hm.
  - split.
    + intros H. right. exists name, (parseInt digits).
      destruct (get_property v name) as [[| | | |items|]|] eqn:Hp; try discriminate.
      exists items. split; [|split; [reflexivity|now apply array_get_lookup]].
      apply bracket_segment_match. now exists digits.
    + intros [[Hno _]|(name' & index & items & Hseg & Hp & Hi)].
      * exfalso. apply (Hno name (parseInt digits)).
        apply bracket_segment_match. now exists digits.
      * apply bracket_segment_match in Hseg as (digits' & Hm' & ->).
        rewrite Hm in Hm'. injection Hm' as <- <-.
        rewrite Hp. now apply array_get_lookup.
  - split.
    + intros H. left. split; [|exact H]. intros name index Hseg.
      apply bracket_segment_match in Hseg as (digits & Hm' & _). congruence.
    + intros [[_ H]|(name & index & items & Hseg & _)]; [exact H|].
      apply bracket_segment_match in Hseg as (digits & Hm' & _). congruence.
Qed.

Lemma walk_reaches (keys : list string) (v leaf : json) :
  walk v keys = Some leaf <-> reaches v keys leaf.
Proof.
  revert v. induction keys as [|k rest IH]; intros v; simpl.
  - split.
    + intros [= <-]. constructor.
    + intros H. inversion H. reflexivity.
  - destruct (descend v k) as [w|] eqn:Hd.
    + rewrite IH. apply descend_reaches in Hd. split.
      * intros Hr. destruct Hd as [[Hno Hp]|(name & index & items & Hseg & Hp & Hi)].
        -- eapply reaches_name; eauto.
        -- eapply reaches_index; eauto.
      * intros Hr.
        inversion Hr as [| ? w1 ? ? ? Hno1 Hp1 Hr1
                         | ? w1 ? ? name1 index1 items1 ? Hseg1 Hp1 Hi1 Hr1]; subst.
        -- destruct Hd as [[_ Hp]|(name & index & items & Hseg & _)].
           ++ congruence.
           ++ exfalso. eapply Hno1. exact Hseg.
        -- destruct Hd as [[Hno _]|(name' & index' & items' & Hseg & Hp & Hi)].
           ++ exfalso. eapply Hno. eassumption.
           ++ apply bracket_segment_match in Hseg as (d1 & Hm1 & ->).
              apply bracket_segment_match in Hseg1 as (d2 & Hm2 & ->).
              rewrite Hm1 in Hm2. injection Hm2 as <- <-.
              congruence.
    + split; [discriminate|]. intros Hr. exfalso.
      assert (Hsome : exists w, descend v k = Some w).
      { inversion Hr as [| ? w1 ? ? ? Hno1 Hp1 Hr1
                         | ? w1 ? ? name1 index1 items1 ? Hseg1 Hp1 Hi1 Hr1]; subst.
        - exists w1. apply descend_reaches. left. now split.
        - exists w1. apply descend_reaches. right. eauto 10. }
      destruct Hsome as [w Hw]. congruence.
Qed.

(** C1. [getNestedTranslation] returns a string exactly when walking the
    segments of the key (split on '.', a trailing [[N]] read as an array
    index) reaches a leaf that is this string, and [null] in every other
    case: a segment that is absent, a value on the way that is no object, an
    index out of bounds, or a last value that is no string. For
    [{"a":{"b":"hello"}}] it gives "hello" for "a.b" and [null] for "a.c" and
    "a.b.c"; for [{"items":["x","y","z"]}] it gives "y" for "items[1]" and
    [null] for "items[9]". *)
Theorem C1_getNestedTranslation_walk :
  (forall key doc s,
      getNestedTranslation key doc = Some s <-> reaches doc (split_dot key) (JStr s))
  /\ (forall key doc,
        getNestedTranslation key doc = None <->
        ~ exists s, reaches doc (split_dot key) (JStr s))
  /\ getNestedTranslation "a.b" doc_ab = Some "hello"
  /\ getNestedTranslation "a.c" doc_ab = None
  /\ getNestedTranslation "a.b.c" doc_ab = None
  /\ getNestedTranslation "items[1]" doc_items = Some "y"
  /\ getNestedTranslation "items[9]" doc_items = None.
Proof.
  assert (Hsome : forall key doc s,
             getNestedTranslation key doc = Some s
             <-> reaches doc (split_dot key) (JStr s)).
  { intros key doc s. rewrite <- walk_reaches. unfold getNestedTranslation.
    destruct (walk doc (split_dot key)) as [[| | |s'| |]|]; split;
      intros H; try discriminate; congruence. }
  split; [exact Hsome|]. split; [|repeat split; reflexivity].
  intros key doc. split.
  - intros Hnone [s Hs]. apply Hsome in Hs. congruence.
  - intros Hno. destruct (getNestedTranslation key doc) as [s|] eqn:Hg; [|reflexivity].
    exfalso. apply Hno. exists s. now apply Hsome.
Qed.

(** *** Language detection *)

Lemma includes_supported (s : string) (l : LocaleCode) :
  includes s = Some l <-> s = locale_code l.
Proof.
  unfold includes, availableLocales. cbn [List.find locale_code].
  destruct (String.eqb_spec "en" s) as [<-|Hen].
  - destruct l; split; intros H; simpl in *; try reflexivity; discriminate.
  - destruct (String.eqb_spec "de" s) as [<-|Hde].
    + destruct l; split; intros H; simpl in *; try reflexivity; discriminate.
    + split; [intros [=]|]. intros ->. destruct l; contradiction.
Qed.

Lemma valid_locale_includes (x : option string) :
  valid_locale x = match x with Some s => includes s | None => None end.
Proof.
  destruct x as [s|]; [|reflexivity]. simpl.
  destruct (String.eqb_spec s "") as [->|_]; reflexivity.
Qed.

Lemma small_lower (c : ascii) : small c = lower_ascii c.
Proof. destruct c as [[] [] [] [] [] [] [] []]; reflexivity. Qed.

Lemma normalized_code (s : string) : normalized s = toLowerCase (substring_0_2 s).
Proof.
  unfold normalized. destruct s as [|a [|b s]]; try reflexivity.
  - cbn. now rewrite small_lower.
  - cbn. now rewrite !small_lower.
Qed.

Lemma reported_browser_language (w : Browser) : reported_language w = browser_language w.
Proof.
  unfold reported_language, browser_language.
  destruct (navigator_userLanguage w) as [s|]; [|reflexivity].
  destruct (decide (s = "")) as [->|Hs]; [reflexivity|].
  destruct (String.eqb_spec s ""); [contradiction|reflexivity].
Qed.

(** What [detectLanguage] answers once the URL and the storage have named
    no supported language. *)
Lemma detectLanguage_readable (w : Browser) :
  storage_denied w = false ->
  detectLanguage w = Returned (first_supported (candidates w)).
Proof.
  intros Hread.
  assert (Hcons : forall x source rest,
             first_supported ((x, source) :: rest)
             = match match x with Some s => includes s | None => None end with
               | Some l => (l, source)
               | None => first_supported rest
               end).
  { intros [x|] source rest; reflexivity. }
  unfold candidates. rewrite !Hcons. unfold detectLanguage, getItem.
  rewrite Hread, !valid_locale_includes, reported_browser_language, normalized_code.
  destruct (match params_get "lang" (location_search w) with
            | Some s => includes s
            | None => None
            end); [reflexivity|].
  destruct (match localStorage w !! STORAGE_KEY with
            | Some s => includes s
            | None => None
            end); [reflexivity|].
  replace (match html_lang w with
           | Some langFromHtml =>
               if String.eqb langFromHtml "" then None
               else includes (toLowerCase (substring_0_2 langFromHtml))
           | None => None
           end)
    with (match normalized <$> html_lang w with
          | Some s => includes s
          | None => None
          end).
  - destruct (match normalized <$> html_lang w with
              | Some s => includes s
              | None => None
              end); [reflexivity|].
    destruct (includes (toLowerCase (substring_0_2 (browser_language w)))); reflexivity.
  - destruct (html_lang w) as [h|]; [|reflexivity]. cbn [fmap option_fmap option_map].
    rewrite normalized_code.
    destruct (String.eqb_spec h "") as [->|_]; reflexivity.
Qed.

Lemma detectLanguage_url (w : Browser) (l : LocaleCode) :
  valid_locale (params_get "lang" (location_search w)) = Some l ->
  detectLanguage w = Returned (l, src_url).
Proof. intros H. unfold detectLanguage. now rewrite H. Qed.

Lemma detectLanguage_denied (w : Browser) :
  valid_locale (params_get "lang" (location_search w)) = None ->
  storage_denied w = true ->
  detectLanguage w = Thrown "SecurityError".
Proof. intros H Hd. unfold detectLanguage, getItem. now rewrite H, Hd. Qed.

(** C2, as stated, fails: in a browser that refuses the page its storage,
    on a page opened without a supported language in the URL,
    [detectLanguage] returns no result: the [SecurityError] that reading the
    storage raises ends the call, although the document is in German and
    the browser in English. *)
Lemma C2_storage_unreadable :
  detectLanguage browser_blocked = Thrown "SecurityError"
  /\ (forall result, detectLanguage browser_blocked <> Returned result)
  /\ first_supported (drop 2 (candidates browser_blocked)) = (de, src_html).
Proof. split; [reflexivity|]. split; [discriminate|reflexivity]. Qed.

(** C2, amended. When the URL parameter names a supported language,
    [detectLanguage] returns it with the tag [url], whether the storage can
    be read or not. When it does not and the storage cannot be read,
    [detectLanguage] raises the error of the storage. When the storage can
    be read, what it returns is the first, in the order URL parameter,
    stored preference, document attribute (first two characters,
    lowercased), browser language (the same), whose value is one of "en" and
    "de", with the tag of that source, and "en" with the tag [default] when
    there is none. With
    [?lang=de], a stored "en", a document in an unsupported language and an
    English browser it is "de" from the URL; each later source is reached in
    its turn. *)
Theorem C2_detectLanguage_priority :
  (forall w l,
      valid_locale (params_get "lang" (location_search w)) = Some l ->
      detectLanguage w = Returned (l, src_url))
  /\ (forall w,
        valid_locale (params_get "lang" (location_search w)) = None ->
        storage_denied w = true ->
        detectLanguage w = Thrown "SecurityError")
  /\ (forall w,
        storage_denied w = false ->
        detectLanguage w = Returned (first_supported (candidates w)))
  /\ (forall x l, valid_locale x = Some l <-> x = Some (locale_code l))
  /\ (forall s l, includes s = Some l <-> s = locale_code l)
  /\ detectLanguage browser_example = Returned (de, src_url)
  /\ detectLanguage (browser_with [("lang", "fr")] (Some "de") (Some "en") "en")
     = Returned (de, src_localStorage)
  /\ detectLanguage (browser_with [] (Some "nl") (Some "DE-at") "en")
     = Returned (de, src_html)
  /\ detectLanguage (browser_with [] None (Some "fr") "De-CH")
     = Returned (de, src_browser)
  /\ detectLanguage browser_old = Returned (de, src_browser)
  /\ detectLanguage (browser_with [] None (Some "d") "deu-x")
     = Returned (de, src_browser)
  /\ detectLanguage (browser_with [] None None "fr-FR")
     = Returned (en, src_default).
Proof.
  split; [exact detectLanguage_url|]. split; [exact detectLanguage_denied|].
  split; [exact detectLanguage_readable|]. split; [|split; [exact includes_supported|]].
  - intros x l. rewrite valid_locale_includes. destruct x as [s|].
    + rewrite includes_supported. split; [now intros ->|now intros [= ->]].
    + split; discriminate.
  - repeat split; reflexivity.
Qed.

(** *** Loading a namespace *)

Section LoaderFacts.

Variable assets : LocaleCode -> Namespace -> import_result.

Lemma loadNamespace_unfold (L : LocaleCode) (N : Namespace) (st : Store) :
  loadNamespace assets L N st =
  match import_namespace assets L N st with
  | (Returned translations, st1) => (Returned translations, st1)
  | (Thrown err, st1) =>
      if decide (L = defaultLanguage) then (Returned (JObj []), st1)
      else loadNamespace assets defaultLanguage N st1
  end.
Proof.
  simp loadNamespace.
  destruct (import_namespace assets L N st) as [[tr|e] st1]; simpl; [reflexivity|].
  destruct (decide (L = defaultLanguage)); reflexivity.
Qed.

Lemma truthy_module_or_default (d : json) : truthy (module_or_default d) = true.
Proof. unfold module_or_default. destruct (truthy d) eqn:H; [exact H|reflexivity]. Qed.

Lemma loadNamespace_default (N : Namespace) (st : Store) :
  loadNamespace assets defaultLanguage N st
  = (Returned (default_document assets N), log_import defaultLanguage N st).
Proof.
  rewrite loadNamespace_unfold. unfold import_namespace, default_document.
  destruct (assets defaultLanguage N); reflexivity.
Qed.

Lemma loadNamespace_result (L : LocaleCode) (N : Namespace) (st : Store) :
  loadNamespace assets L N st
  = (Returned (loaded_document assets L N), log_imports (load_trace assets L N) st).
Proof.
  rewrite loadNamespace_unfold. unfold import_namespace, loaded_document, load_trace.
  destruct (assets L N) as [e|d] eqn:Ha.
  - destruct (decide (L = defaultLanguage)) as [->|Hne].
    + unfold default_document. rewrite Ha. reflexivity.
    + rewrite loadNamespace_default. unfold log_imports, log_import. simpl.
      now rewrite <- app_assoc.
  - reflexivity.
Qed.

(** C3. [loadNamespace] never throws and returns a value that is not
    [null]. When the import for the locale succeeds it is the document of the
    locale; when it fails and the locale is not the default one, it is what
    loading the namespace for the default locale returns; when the import
    for the default locale fails, it is the empty document. The documents
    being objects, as the assets are, so is the value returned. *)
Theorem C3_loadNamespace_never_throws (L : LocaleCode) (N : Namespace) (st : Store) :
  exists doc st1,
    loadNamespace assets L N st = (Returned doc, st1)
    /\ truthy doc = true
    /\ (forall d, assets L N = Resolves d -> doc = module_or_default d)
    /\ (forall e, assets L N = Rejects e -> L <> defaultLanguage ->
        loadNamespace assets L N st
        = loadNamespace assets defaultLanguage N (log_import L N st))
    /\ (forall e, assets defaultLanguage N = Rejects e ->
        (L = defaultLanguage \/ exists e1, assets L N = Rejects e1) ->
        doc = JObj [])
    /\ ((forall l n d, assets l n = Resolves d -> is_object d) -> is_object doc).
Proof.
  exists (loaded_document assets L N), (log_imports (load_trace assets L N) st).
  split; [apply loadNamespace_result|]. unfold loaded_document, default_document.
  split; [|split; [|split; [|split]]].
  - destruct (assets L N); [destruct (assets defaultLanguage N)|];
      try reflexivity; apply truthy_module_or_default.
  - intros d ->. reflexivity.
  - intros e He Hne. rewrite (loadNamespace_unfold L). unfold import_namespace.
    rewrite He. destruct (decide (L = defaultLanguage)); [contradiction|reflexivity].
  - intros e He [->|[e1 He1]].
    + now rewrite He.
    + now rewrite He1, He.
  - intros Hobj.
    assert (Hmod : forall l n d, assets l n = Resolves d -> is_object (module_or_default d)).
    { intros l n d Hd. destruct (Hobj l n d Hd) as [fields ->]. now exists fields. }
    destruct (assets L N) eqn:HL; [|exact (Hmod _ _ _ HL)].
    destruct (assets defaultLanguage N) eqn:HD; [now exists []|exact (Hmod _ _ _ HD)].
Qed.

(** *** Loading a locale and the cache *)

Lemma log_imports_nil (st : Store) : log_imports [] st = st.
Proof. destruct st. unfold log_imports. simpl. now rewrite app_nil_r. Qed.

Lemma log_imports_app (l1 l2 : list (LocaleCode * Namespace)) (st : Store) :
  log_imports l2 (log_imports l1 st) = log_imports (l1 ++ l2) st.
Proof. unfold log_imports. simpl. now rewrite app_assoc. Qed.

Lemma loadNamespace_settled_result (L : LocaleCode) (N : Namespace) (st : Store) :
  loadNamespace_settled assets L N st
  = (Returned (loaded_document assets L N), log_imports (fallback_trace assets L N) st).
Proof.
  unfold loadNamespace_settled, loaded_document, fallback_trace.
  destruct (assets L N) as [e|d] eqn:Ha; [|now rewrite log_imports_nil].
  destruct (decide (L = defaultLanguage)) as [->|Hne].
  - unfold default_document. now rewrite Ha, log_imports_nil.
  - apply loadNamespace_default.
Qed.

(** A load of a namespace that is awaited is its two turns in a row. *)
Lemma loadNamespace_turns (L : LocaleCode) (N : Namespace) (st : Store) :
  loadNamespace assets L N st = loadNamespace_settled assets L N (log_import L N st).
Proof.
  rewrite loadNamespace_result, loadNamespace_settled_result.
  f_equal. unfold load_trace, fallback_trace, log_imports, log_import. cbn.
  destruct (assets L N); [destruct (decide _)|]; cbn; now rewrite <- ?app_assoc.
Qed.

Lemma start_each_result (L : LocaleCode) (namespaces : list Namespace) (st : Store) :
  start_each L namespaces st = log_imports (map (fun n => (L, n)) namespaces) st.
Proof.
  unfold start_each. revert st. induction namespaces as [|n rest IH]; intros st;
    cbn [fold_left map].
  - now rewrite log_imports_nil.
  - rewrite IH. change (log_import L n st) with (log_imports [(L, n)] st).
    now rewrite log_imports_app.
Qed.

Lemma settle_each_result (L : LocaleCode) (namespaces : list Namespace) (st : Store) :
  settle_each assets L namespaces st
  = (Returned (map (fun n => (n, loaded_document assets L n)) namespaces),
     log_imports (flat_map (fallback_trace assets L) namespaces) st).
Proof.
  revert st. induction namespaces as [|n rest IH]; intros st; simpl.
  - unfold ret. now rewrite log_imports_nil.
  - unfold bind. rewrite loadNamespace_settled_result, IH. unfold ret.
    now rewrite log_imports_app.
Qed.

Lemma settle_and_cache_result (L : LocaleCode) (st : Store) :
  settle_and_cache assets L st
  = (Returned (length (heap st)),
     with_cache (<[L := length (heap st)]> (translationCache st))
       (with_heap (heap st ++ [full_set assets L])
          (log_imports (flat_map (fallback_trace assets L) translationNamespaces) st))).
Proof. unfold settle_and_cache, bind. rewrite settle_each_result. reflexivity. Qed.

Lemma load_and_cache_result (L : LocaleCode) (st : Store) :
  load_and_cache assets L st = (Returned (length (heap st)), after_load assets L st).
Proof.
  unfold load_and_cache. rewrite settle_and_cache_result, start_each_result.
  unfold after_load, locale_trace. now rewrite log_imports_app.
Qed.

Lemma loadLocaleFile_unfold (L : LocaleCode) (useCache : bool) (st : Store) :
  loadLocaleFile assets L useCache st =
  match cache_hit useCache L st with
  | Some cached => (Returned cached, st)
  | None => (Returned (length (heap st)), after_load assets L st)
  end.
Proof.
  simp loadLocaleFile. destruct (cache_hit useCache L st); simpl; [reflexivity|].
  rewrite load_and_cache_result. reflexivity.
Qed.

(** A load of a locale that is awaited is its two turns in a row. *)
Lemma loadLocaleFile_turns (L : LocaleCode) (useCache : bool) (st : Store) :
  loadLocaleFile assets L useCache st
  = match loadLocaleFile_called L useCache st with
    | (Some cached, st1) => (Returned cached, st1)
    | (None, st1) => loadLocaleFile_resumed assets L useCache st1
    end.
Proof.
  rewrite loadLocaleFile_unfold. unfold loadLocaleFile_called, loadLocaleFile_resumed.
  destruct (cache_hit useCache L st); [reflexivity|].
  rewrite settle_and_cache_result, start_each_result.
  unfold after_load, locale_trace. now rewrite log_imports_app.
Qed.

(** A load of a single namespace that is awaited is its two turns in a
    row. *)
Lemma loadSingleNamespace_turns (L : LocaleCode) (N : Namespace) (st : Store) :
  loadSingleNamespace assets L N st
  = match loadSingleNamespace_called L N st with
    | (Some cached, st1) => (Returned cached, st1)
    | (None, st1) => loadSingleNamespace_resumed assets L N st1
    end.
Proof.
  unfold loadSingleNamespace, loadSingleNamespace_called, loadSingleNamespace_resumed.
  destruct (cached_namespace L N st); [reflexivity|].
  unfold bind. now rewrite loadNamespace_turns.
Qed.

Lemma loadLocaleFile_resumed_result (L : LocaleCode) (useCache : bool) (st : Store) :
  loadLocaleFile_resumed assets L useCache st
  = (Returned (length (heap st)),
     with_cache (<[L := length (heap st)]> (translationCache st))
       (with_heap (heap st ++ [full_set assets L])
          (log_imports (flat_map (fallback_trace assets L) translationNamespaces) st))).
Proof. unfold loadLocaleFile_resumed. now rewrite settle_and_cache_result. Qed.

Lemma full_set_lookup (L : LocaleCode) (n : Namespace) :
  assoc (namespace_name n) (full_set assets L) = Some (loaded_document assets L n).
Proof. destruct n; reflexivity. Qed.

Lemma full_set_names (L : LocaleCode) :
  map fst (full_set assets L) = map namespace_name translationNamespaces.
Proof. reflexivity. Qed.

Lemma deref_after_load (L : LocaleCode) (st : Store) :
  deref (after_load assets L st) (length (heap st)) = full_set assets L.
Proof.
  unfold deref, after_load. simpl.
  rewrite lookup_app_r by lia. now rewrite Nat.sub_diag.
Qed.

End LoaderFacts.

(** C4, as stated, fails: after [loadSingleNamespace("de", "common")] on an
    empty cache, [loadLocaleFile("de", true)] returns the entry that call
    created, which holds "common" alone: there is no document for "home". *)
Lemma C4_partial_entry_returned :
  exists r st1,
    loadLocaleFile assets_empty de true
      (snd (loadSingleNamespace assets_empty de common store_initial))
    = (Returned r, st1)
    /\ translationCache st1 !! de = Some r
    /\ deref st1 r = [("common", JObj [])]
    /\ assoc (namespace_name home) (deref st1 r) = None.
Proof.
  eexists _, _. split; [vm_compute; reflexivity|]. vm_compute. repeat split.
Qed.

(** C4, amended. A call [loadLocaleFile(L, true)] made when the cache has no
    entry for [L], or an entry that holds every namespace, returns a
    document set with one document for each namespace of the list, and
    that set is the entry of [L] in the cache afterwards. When there was no
    entry, the set is built from the load of each namespace, in the order of
    the list. *)
Theorem C4_loadLocaleFile_complete (assets : LocaleCode -> Namespace -> import_result)
  (L : LocaleCode) (st : Store) :
  absent_or_complete L st ->
  exists r st1,
    loadLocaleFile assets L true st = (Returned r, st1)
    /\ translationCache st1 !! L = Some r
    /\ complete (deref st1 r)
    /\ (translationCache st !! L = None ->
        (forall n, assoc (namespace_name n) (deref st1 r) = Some (loaded_document assets L n))
        /\ map fst (deref st1 r) = map namespace_name translationNamespaces).
Proof.
  intros Hst. rewrite loadLocaleFile_unfold. unfold absent_or_complete in Hst.
  unfold cache_hit. destruct (translationCache st !! L) as [r|] eqn:Hc.
  - exists r, st. split; [reflexivity|]. split; [exact Hc|]. split; [exact Hst|].
    intros Hnone. congruence.
  - exists (length (heap st)), (after_load assets L st).
    split; [reflexivity|]. split.
    { unfold after_load. simpl. apply lookup_insert_eq. }
    rewrite deref_after_load. split.
    + intros n. eexists. apply full_set_lookup.
    + intros _. split; [apply full_set_lookup|apply full_set_names].
Qed.

(** The amended statement applies to the first load of German into the
    empty cache. *)
Lemma C4_loadLocaleFile_complete_witness :
  exists r st1,
    loadLocaleFile assets_empty de true store_initial = (Returned r, st1)
    /\ translationCache st1 !! de = Some r
    /\ complete (deref st1 r)
    /\ (translationCache store_initial !! de = None ->
        (forall n, assoc (namespace_name n) (deref st1 r)
                   = Some (loaded_document assets_empty de n))
        /\ map fst (deref st1 r) = map namespace_name translationNamespaces).
Proof.
  apply (C4_loadLocaleFile_complete assets_empty de store_initial).
  unfold absent_or_complete. simpl. exact I.
Defined.

(** *** Calls on the module, awaited or overlapping *)

Section Calls.

Variable assets : LocaleCode -> Namespace -> import_result.
Variable other_replace : string -> string -> string -> outcome string.

Lemma t_store (key : string) (variables : option (list (string * string))) (st : Store) :
  snd (t assets other_replace key variables st)
  = snd (loadLocaleFile assets (pageLanguage st) true st).
Proof.
  unfold t. destruct (loadLocaleFile assets (pageLanguage st) true st) as [[r|e] st1];
    [|reflexivity].
  simpl. destruct (getNestedTranslation key (JObj (deref st1 r))) as [text|]; [|reflexivity].
  destruct (String.eqb text ""); [reflexivity|]. now destruct variables.
Qed.

Lemma none_loads_delete (L : LocaleCode) (waiting : list Pending) (i : nat) :
  none_loads L waiting = true -> none_loads L (delete i waiting) = true.
Proof.
  unfold none_loads. revert i. induction waiting as [|c waiting IH]; intros i H;
    [reflexivity|].
  cbn [forallb] in H. apply andb_prop in H as [Hc H].
  destruct i as [|i]; [exact H|]. simpl. now rewrite Hc, (IH i H).
Qed.

Lemma none_loads_lookup (L : LocaleCode) (waiting : list Pending) (i : nat) (c : Pending) :
  none_loads L waiting = true -> waiting !! i = Some c -> loads L c = false.
Proof.
  unfold none_loads. intros H Hc. rewrite forallb_forall in H.
  apply negb_true_iff, H. eapply list_elem_of_In, list_elem_of_lookup_2. exact Hc.
Qed.

Lemma called_locale_entry (l L : LocaleCode) (useCache : bool) (m : Running) (r : nat) :
  translationCache (running m) !! L = Some r ->
  translationCache (running (called_locale l useCache m)) !! L = Some r
  /\ ((useCache = false -> l <> L) ->
      none_loads L (unsettled m) = true ->
      none_loads L (unsettled (called_locale l useCache m)) = true).
Proof.
  intros Hr. unfold called_locale, loadLocaleFile_called.
  destruct (cache_hit useCache l (running m)) as [cached|] eqn:Hhit; cbn [running unsettled].
  - split; [exact Hr|auto].
  - rewrite start_each_result. split; [exact Hr|].
    intros Hreload Hnone. unfold none_loads. rewrite forallb_app. fold (none_loads L (unsettled m)).
    rewrite Hnone. cbn. rewrite andb_true_r. apply negb_true_iff, bool_decide_eq_false.
    intros ->. destruct useCache; [|now apply Hreload].
    unfold cache_hit in Hhit. congruence.
Qed.

Lemma made_entry (c : Call) (L : LocaleCode) (m : Running) (r : nat) :
  translationCache (running m) !! L = Some r ->
  clears L (Made c) = false ->
  translationCache (running (made c m)) !! L = Some r
  /\ (reloads L (Made c) = false ->
      none_loads L (unsettled m) = true ->
      none_loads L (unsettled (made c m)) = true).
Proof.
  intros Hr Hclear. destruct c as [l b|l n|[l|]|key variables]; cbn [made].
  - destruct (called_locale_entry l L b m r Hr) as [H1 H2]. split; [exact H1|].
    intros Hreload. apply H2. intros ->. cbn in Hreload.
    now apply bool_decide_eq_false in Hreload.
  - unfold called_namespace, loadSingleNamespace_called.
    destruct (cached_namespace l n (running m)); cbn [running unsettled].
    + split; [exact Hr|auto].
    + split; [exact Hr|]. intros _ Hnone. unfold none_loads. rewrite forallb_app.
      fold (none_loads L (unsettled m)). now rewrite Hnone.
  - cbn in Hclear. apply bool_decide_eq_false in Hclear. cbn [running unsettled].
    split; [|auto]. cbn. now rewrite lookup_delete_ne.
  - discriminate.
  - destruct (called_locale_entry (pageLanguage (running m)) L true m r Hr) as [H1 H2].
    split; [exact H1|]. intros _. apply H2. discriminate.
Qed.

Lemma resumed_entry (c : Pending) (L : LocaleCode) (st : Store) (r : nat) :
  translationCache st !! L = Some r ->
  exists r1,
    translationCache (resumed assets c st) !! L = Some r1
    /\ (loads L c = false -> r1 = r).
Proof.
  intros Hr. destruct c as [l b|l n]; cbn [resumed loads].
  - rewrite loadLocaleFile_resumed_result. cbn [snd translationCache with_cache].
    destruct (decide (l = L)) as [->|Hne].
    + rewrite lookup_insert_eq. eexists. split; [reflexivity|].
      intros H. apply bool_decide_eq_false in H. contradiction.
    + rewrite lookup_insert_ne by exact Hne. exists r. split; [exact Hr|reflexivity].
  - exists r. split; [|reflexivity]. unfold loadSingleNamespace_resumed, bind.
    rewrite loadNamespace_settled_result. unfold cache_entry.
    cbn [translationCache log_imports].
    destruct (translationCache st !! l) as [rl|] eqn:Hl; cbn; [exact Hr|].
    rewrite lookup_insert_ne; [exact Hr|]. intros ->. congruence.
Qed.

Lemma turn_entry (e : Turn) (L : LocaleCode) (m : Running) (r : nat) :
  translationCache (running m) !! L = Some r ->
  clears L e = false ->
  exists r1,
    translationCache (running (turn assets e m)) !! L = Some r1
    /\ (reloads L e = false ->
        none_loads L (unsettled m) = true ->
        r1 = r /\ none_loads L (unsettled (turn assets e m)) = true).
Proof.
  intros Hr Hclear. destruct e as [c|i]; cbn [turn].
  - destruct (made_entry c L m r Hr Hclear) as [H1 H2]. exists r. split; [exact H1|].
    intros Hre Hnone. split; [reflexivity|now apply H2].
  - destruct (unsettled m !! i) as [c|] eqn:Hc; cbn [running unsettled].
    + destruct (resumed_entry c L (running m) r Hr) as (r1 & H1 & Heq).
      exists r1. split; [exact H1|]. intros _ Hnone.
      split; [apply Heq; exact (none_loads_lookup L (unsettled m) i c Hnone Hc)
             |now apply none_loads_delete].
    + exists r. split; [exact Hr|]. intros _ Hnone. now split.
Qed.

Lemma turns_entry (es : list Turn) (L : LocaleCode) (m : Running) (r : nat) :
  translationCache (running m) !! L = Some r ->
  forallb (fun e => negb (clears L e)) es = true ->
  exists r1,
    translationCache (running (turns assets es m)) !! L = Some r1
    /\ (forallb (fun e => negb (reloads L e)) es = true ->
        none_loads L (unsettled m) = true -> r1 = r).
Proof.
  revert m r. induction es as [|e es IH]; intros m r Hr Hquiet; cbn [turns fold_left].
  - exists r. split; [exact Hr|reflexivity].
  - cbn [forallb] in Hquiet. apply andb_prop in Hquiet as [He Hquiet].
    apply negb_true_iff in He.
    destruct (turn_entry e L m r Hr He) as (r1 & H1 & Heq1).
    destruct (IH (turn assets e m) r1 H1 Hquiet) as (r2 & H2 & Heq2).
    exists r2. split; [exact H2|]. intros Hre Hnone. cbn [forallb] in Hre.
    apply andb_prop in Hre as [Hrc Hre]. apply negb_true_iff in Hrc.
    destruct (Heq1 Hrc Hnone) as [-> Hnone1]. now apply Heq2.
Qed.

Lemma imports_after_load (L : LocaleCode) (st : Store) (n : Namespace) :
  In (L, n) (drop (length (imports st)) (imports (after_load assets L st))).
Proof.
  change (imports (after_load assets L st))
    with (imports st ++ locale_trace assets L)%list.
  rewrite drop_app_length. unfold locale_trace. apply in_or_app. left.
  apply in_map. destruct n; unfold translationNamespaces; simpl; tauto.
Qed.

(** C5, amended. A call [loadLocaleFile(L, _)] that has completed, awaited
    on its own or overlapped by other calls, leaves the object [r0] it
    returns as the entry of [L]. Then, whatever calls are made and whichever
    pending calls go on to their end, as long as there is no
    [clearCache(L)] and no [clearCache()] among them, the cache has an entry
    for [L], and [loadLocaleFile(L, true)] returns that very object at
    once, before any [await], and leaves the store as it is: nothing is
    imported. The object is [r0] itself when, besides, no
    [loadLocaleFile(L, false)] is made and no load of the whole of [L] was
    pending when the first call completed. A clear removes the entry, and
    the call that follows imports every namespace of [L] again and stores a
    new object in the cache. An awaited call is its two turns in a row, and
    [t] reaches the cache through [loadLocaleFile(pageLanguage)] alone. *)
Theorem C5_cached_until_cleared (L : LocaleCode) (useCache : bool)
  (st st0 : Store) (r0 : nat) (waiting : list Pending) :
  loadLocaleFile assets L useCache st = (Returned r0, st0)
  \/ loadLocaleFile_resumed assets L useCache st = (Returned r0, st0) ->
  translationCache st0 !! L = Some r0
  /\ (forall es,
        forallb (fun e => negb (clears L e)) es = true ->
        exists r,
          translationCache
            (running (turns assets es {| running := st0; unsettled := waiting |})) !! L
          = Some r
          /\ loadLocaleFile_called L true
               (running (turns assets es {| running := st0; unsettled := waiting |}))
             = (Some r, running (turns assets es {| running := st0; unsettled := waiting |}))
          /\ loadLocaleFile assets L true
               (running (turns assets es {| running := st0; unsettled := waiting |}))
             = (Returned r,
                running (turns assets es {| running := st0; unsettled := waiting |}))
          /\ (forallb (fun e => negb (reloads L e)) es = true ->
              none_loads L waiting = true ->
              r = r0))
  /\ (forall st1,
         translationCache (clearCache (Some L) st1) !! L = None
         /\ translationCache (clearCache None st1) !! L = None)
  /\ (forall st1,
         translationCache st1 !! L = None ->
         exists r st2,
           loadLocaleFile assets L true st1 = (Returned r, st2)
           /\ translationCache st2 !! L = Some r
           /\ heap st1 !! r = None
           /\ deref st2 r = full_set assets L
           /\ forall n, In (L, n) (drop (length (imports st1)) (imports st2)))
  /\ (forall l b st1,
         loadLocaleFile assets l b st1
         = match loadLocaleFile_called l b st1 with
           | (Some cached, st2) => (Returned cached, st2)
           | (None, st2) => loadLocaleFile_resumed assets l b st2
           end)
  /\ (forall key variables st1,
         snd (t assets other_replace key variables st1)
         = snd (loadLocaleFile assets (pageLanguage st1) true st1)).
Proof.
  intros Hfirst.
  assert (H0 : translationCache st0 !! L = Some r0).
  { destruct Hfirst as [Hfirst|Hfirst].
    - rewrite loadLocaleFile_unfold in Hfirst.
      destruct (cache_hit useCache L st) as [cached|] eqn:Hhit.
      + injection Hfirst as <- <-. unfold cache_hit in Hhit.
        destruct useCache; [exact Hhit|discriminate].
      + injection Hfirst as <- <-. unfold after_load. simpl. apply lookup_insert_eq.
    - rewrite loadLocaleFile_resumed_result in Hfirst. injection Hfirst as <- <-.
      simpl. apply lookup_insert_eq. }
  split; [exact H0|]. split; [|split; [|split; [|split]]].
  - intros es Hquiet.
    destruct (turns_entry es L {| running := st0; unsettled := waiting |} r0 H0 Hquiet)
      as (r & Hr & Heq).
    exists r. split; [exact Hr|]. split; [|split; [|exact Heq]].
    + unfold loadLocaleFile_called, cache_hit. now rewrite Hr.
    + rewrite loadLocaleFile_unfold. unfold cache_hit. now rewrite Hr.
  - intros st1. simpl. split; [apply lookup_delete_eq|apply lookup_empty].
  - intros st1 Hnone. exists (length (heap st1)), (after_load assets L st1).
    split; [|split; [|split; [|split]]].
    + rewrite loadLocaleFile_unfold. unfold cache_hit. now rewrite Hnone.
    + unfold after_load. simpl. apply lookup_insert_eq.
    + apply lookup_ge_None. lia.
    + apply deref_after_load.
    + apply imports_after_load.
  - apply loadLocaleFile_turns.
  - apply t_store.
Qed.

End Calls.

(** C5, as stated, fails twice. A call [loadLocaleFile("de", false)] puts a
    new object in the place of the cached one, so that the calls after it
    return another object than the calls before it, and nothing was
    cleared. And of two calls [loadLocaleFile("de", true)] that overlap, the
    one that ends last does the same to the object the other has returned
    and cached. *)
Lemma C5_entry_replaced :
  (fst (loadLocaleFile assets_empty de true store_initial) = Returned 0
   /\ fst (loadLocaleFile assets_empty de true
             (running (turns assets_empty
                         [Made (CallLoadLocaleFile de true); Settled 0;
                          Made (CallLoadLocaleFile de true)]
                         (at_rest store_initial))))
      = Returned 0
   /\ fst (loadLocaleFile assets_empty de true
             (running (turns assets_empty
                         [Made (CallLoadLocaleFile de true); Settled 0;
                          Made (CallLoadLocaleFile de false); Settled 0]
                         (at_rest store_initial))))
      = Returned 1)
  /\ (translationCache
        (running (turns assets_empty
                    [Made (CallLoadLocaleFile de true); Made (CallLoadLocaleFile de true);
                     Settled 0]
                    (at_rest store_initial))) !! de
      = Some 0
      /\ unsettled (turns assets_empty
                      [Made (CallLoadLocaleFile de true);
                       Made (CallLoadLocaleFile de true); Settled 0]
                      (at_rest store_initial))
         = [PendingLocale de true]
      /\ fst (loadLocaleFile assets_empty de true
                (running (turns assets_empty
                            [Made (CallLoadLocaleFile de true);
                             Made (CallLoadLocaleFile de true); Settled 0; Settled 0]
                            (at_rest store_initial))))
         = Returned 1).
Proof. vm_compute. repeat split. Qed.

(** *** Programmatic lookup *)

Lemma expand_plain (value matched before after : list ascii) :
  existsb (Ascii.eqb "$") value = false ->
  expand_replacement value matched before after = value.
Proof.
  induction value as [|c value IH]; intros H; [reflexivity|].
  cbn [existsb] in H. apply orb_false_iff in H as [Hc H].
  cbn [expand_replacement]. rewrite (Ascii.eqb_sym c), Hc. now rewrite IH.
Qed.

Lemma replace_scan_skip (needle value : list ascii) (k : nat) :
  forall before_rev rest,
    replace_scan needle value before_rev rest k
    = replace_scan needle value (rev (take k rest) ++ before_rev) (drop k rest) 0.
Proof.
  induction k as [|k IH]; intros before_rev rest.
  - now rewrite take_0, drop_0.
  - destruct rest as [|c rest]; [reflexivity|].
    cbn [replace_scan take drop rev]. rewrite IH. now rewrite <- app_assoc.
Qed.

Lemma replace_scan_all (needle value : list ascii) :
  existsb (Ascii.eqb "$") value = false ->
  forall text before_rev,
    replace_scan needle value before_rev text 0 = replace_all needle value text.
Proof.
  intros Hplain text.
  induction text as [text IH] using (induction_ltof1 _ (@length ascii)).
  unfold ltof in IH. intros before_rev. destruct text as [|c rest].
  - now simp replace_all.
  - simp replace_all. cbn [replace_scan].
    destruct (is_prefix needle (c :: rest)) eqn:Hp; cbn.
    + rewrite expand_plain by exact Hplain. f_equal.
      rewrite replace_scan_skip. apply IH. simpl. rewrite length_drop. lia.
    + f_equal. apply IH. simpl. lia.
Qed.

Section LookupFacts.

Variable assets : LocaleCode -> Namespace -> import_result.
Variable other_replace : string -> string -> string -> outcome string.

Lemma replace_placeholder_plain (varKey value text : string) :
  plain_variable (varKey, value) ->
  replace_placeholder other_replace varKey value text
  = Returned (substitute varKey value text).
Proof.
  intros (Hsyntax & Hquant & Hvalue). simpl in *.
  unfold replace_placeholder, compile_placeholder. rewrite Hsyntax, Hquant.
  unfold replace_literal, substitute. now rewrite replace_scan_all.
Qed.

Lemma replace_each_plain (entries : list (string * string)) (text : string) :
  Forall plain_variable entries ->
  replace_each other_replace entries text = Returned (substitute_all entries text).
Proof.
  intros H. revert text. induction H as [|[varKey value] entries Hkv _ IH]; intros text.
  - reflexivity.
  - cbn [replace_each]. rewrite replace_placeholder_plain by exact Hkv.
    rewrite IH. reflexivity.
Qed.

(** C10, amended. [t] loads the document set of the active locale without
    throwing. When the key does not resolve to a string that is not empty,
    [t] returns the key itself. When it resolves to a text that is not
    empty, [t] returns the text if no variables are given, and, if every
    name given is free of the syntax characters of regular expressions and
    is no braced quantifier, and every value is free of [$], the text in
    which, one variable after the other, every [{name}] is replaced by the
    value. *)
Theorem C10_t_returns_key_or_text (key : string)
  (variables : option (list (string * string))) (st : Store) :
  exists r st1,
    loadLocaleFile assets (pageLanguage st) true st = (Returned r, st1)
    /\ (getNestedTranslation key (JObj (deref st1 r)) = None
        \/ getNestedTranslation key (JObj (deref st1 r)) = Some "" ->
        t assets other_replace key variables st = (Returned key, st1))
    /\ (forall text,
          getNestedTranslation key (JObj (deref st1 r)) = Some text ->
          text <> "" ->
          (variables = None ->
           t assets other_replace key variables st = (Returned text, st1))
          /\ (forall entries,
                variables = Some entries ->
                Forall plain_variable entries ->
                t assets other_replace key variables st
                = (Returned (substitute_all entries text), st1))).
Proof.
  destruct (loadLocaleFile assets (pageLanguage st) true st) as [o st1] eqn:Hload.
  assert (Hret : exists r, o = Returned r).
  { rewrite loadLocaleFile_unfold in Hload.
    destruct (cache_hit true (pageLanguage st) st); injection Hload as <- _; eauto. }
  destruct Hret as [r ->]. exists r, st1. split; [reflexivity|].
  unfold t. rewrite Hload. split.
  - intros [-> | ->]; reflexivity.
  - intros text -> Htext.
    destruct (String.eqb_spec text "") as [->|_]; [contradiction|]. split.
    + intros ->. reflexivity.
    + intros entries -> Hplain. now rewrite replace_each_plain.
Qed.

End LookupFacts.

(** C10, as stated, fails twice. A key that resolves to the empty string
    gets the key back, not the string it resolves to; and a variable named
    "0" makes the pattern [{0}], a quantifier with nothing to repeat, so
    that [t] throws. *)
Lemma C10_empty_text_and_throw :
  (getNestedTranslation "common.blank"
     (JObj (deref (snd (loadLocaleFile assets_greeting en true store_initial)) 0))
   = Some ""
   /\ fst (t assets_greeting other_replace_id "common.blank" None store_initial)
      = Returned "common.blank")
  /\ (getNestedTranslation "common.numbered"
        (JObj (deref (snd (loadLocaleFile assets_greeting en true store_initial)) 0))
      = Some "Hello {0}"
      /\ fst (t assets_greeting other_replace_id "common.numbered"
                (Some [("0", "x")]) store_initial)
         = Thrown "SyntaxError").
Proof. vm_compute. repeat split. Qed.

(** The amended statement applies to the greeting of the documentation:
    [t("common.hello", {name: "Alice"})] is "Hello, Alice!". *)
Lemma C10_t_returns_key_or_text_witness :
  fst (t assets_greeting other_replace_id "common.hello"
         (Some [("name", "Alice")]) store_initial)
  = Returned "Hello, Alice!".
Proof.
  destruct (C10_t_returns_key_or_text assets_greeting other_replace_id
              "common.hello" (Some [("name", "Alice")]) store_initial)
    as (r & st1 & Hload & _ & Htext).
  assert (Hr : r = 0 /\ deref st1 r = full_set assets_greeting en).
  { rewrite loadLocaleFile_unfold in Hload. injection Hload as <- <-.
    split; [reflexivity|]. apply deref_after_load. }
  destruct Hr as [-> Hdoc].
  destruct (Htext "Hello, {name}!") as [_ Hsub].
  - rewrite Hdoc. vm_compute. reflexivity.
  - discriminate.
  - rewrite (Hsub [("name", "Alice")] eq_refl).
    + vm_compute. reflexivity.
    + constructor; [|constructor]. vm_compute. repeat split.
Defined.

(** The amended C5 applies to the first load of German into the empty
    cache, with nothing else under way: its parts hold for the object it
    returned. *)
Lemma C5_cached_until_cleared_witness :
  translationCache (snd (loadLocaleFile assets_greeting de true store_initial)) !! de
  = Some 0
  /\ forall es,
       forallb (fun e => negb (clears de e)) es = true ->
       forallb (fun e => negb (reloads de e)) es = true ->
       fst (loadLocaleFile assets_greeting de true
              (running (turns assets_greeting es
                          (at_rest (snd (loadLocaleFile assets_greeting de true
                                           store_initial))))))
       = Returned 0.
Proof.
  destruct (C5_cached_until_cleared assets_greeting other_replace_id de true store_initial
              (snd (loadLocaleFile assets_greeting de true store_initial)) 0 [])
    as (Hentry & Hkept & _).
  - left. vm_compute. reflexivity.
  - split; [exact Hentry|]. intros es Hquiet Hre.
    destruct (Hkept es Hquiet) as (r & _ & _ & Hload & Heq).
    unfold at_rest. rewrite Hload. cbn [fst]. f_equal. now apply Heq.
Defined.

End I18nFacts.

(** ** Properties of the tab controller *)

Module TabsFacts.
Import JS Tabs TabsSpec.
Local Open Scope Z_scope.

(** *** classList *)

Lemma class_contains_add (c d : string) (cl : list string) :
  class_contains c (class_add d cl) = String.eqb c d || class_contains c cl.
Proof.
  unfold class_add. destruct (class_contains d cl) eqn:Hd.
  - destruct (String.eqb_spec c d) as [->|_]; [now rewrite Hd|reflexivity].
  - unfold class_contains. rewrite existsb_app. simpl.
    rewrite orb_false_r. apply orb_comm.
Qed.

Lemma class_contains_remove (c d : string) (cl : list string) :
  class_contains c (class_remove d cl) = negb (String.eqb c d) && class_contains c cl.
Proof.
  unfold class_contains, class_remove. induction cl as [|x cl IH]; simpl.
  - now rewrite andb_false_r.
  - destruct (String.eqb_spec x d) as [->|Hx]; simpl.
    + rewrite IH. destruct (String.eqb_spec c d) as [->|_]; simpl; [reflexivity|].
      reflexivity.
    + rewrite IH. destruct (String.eqb_spec c x) as [->|_]; simpl; [|reflexivity].
      destruct (String.eqb_spec x d); [contradiction|reflexivity].
Qed.

(** *** What a change of the content leaves alone *)

Lemma extends_refl (p : Page) : extends p p.
Proof.
  exists (contents p), (wrapper p), (frame_requests p), (activations p), [],
    (next_handle p), (next_stamp p).
  split.
  - destruct p. unfold reshape. simpl. now rewrite app_nil_r.
  - repeat split; try constructor; lia.
Qed.

Lemma extends_trans (p q r : Page) : extends p q -> extends q r -> extends p r.
Proof.
  intros (cs1 & w1 & fr1 & a1 & add1 & h1 & s1 & -> & F1 & N1 & S1 & H1)
         (cs2 & w2 & fr2 & a2 & add2 & h2 & s2 & -> & F2 & N2 & S2 & H2).
  simpl in *.
  exists cs2, w2, fr2, a2, (add1 ++ add2)%list, h2, s2. split.
  - unfold reshape. simpl. now rewrite app_assoc.
  - split; [|split; [|split; [lia|lia]]].
    + apply Forall_app. split.
      * eapply List.Forall_impl; [|exact F1]. simpl. intros tm (? & ? & ? & ?).
        repeat split; auto; lia.
      * eapply List.Forall_impl; [|exact F2]. simpl. intros tm (? & ? & ? & ?).
        repeat split; auto; lia.
    + rewrite map_app. apply NoDup_app. split; [exact N1|]. split; [|exact N2].
      intros x Hx1 Hx2.
      apply list_elem_of_In, in_map_iff in Hx1 as (t1 & <- & Ht1).
      apply list_elem_of_In, in_map_iff in Hx2 as (t2 & Heq & Ht2).
      rewrite List.Forall_forall in F1, F2.
      pose proof (F1 t1 Ht1) as (_ & _ & ?).
      pose proof (F2 t2 Ht2) as (_ & _ & ?). lia.
Qed.

Lemma extends_set_contents (cs : list ContentElement) (p : Page) :
  extends p (set_contents cs p).
Proof.
  exists cs, (wrapper p), (frame_requests p), (activations p), [],
    (next_handle p), (next_stamp p).
  split; [unfold reshape, set_contents; now rewrite app_nil_r|].
  repeat split; try constructor; lia.
Qed.

Lemma extends_set_wrapper (w : option WrapperElement) (p : Page) :
  extends p (set_wrapper w p).
Proof.
  exists (contents p), w, (frame_requests p), (activations p), [],
    (next_handle p), (next_stamp p).
  split; [unfold reshape, set_wrapper; now rewrite app_nil_r|].
  repeat split; try constructor; lia.
Qed.

Lemma extends_set_frame_requests (fr : list nat) (p : Page) :
  extends p (set_frame_requests fr p).
Proof.
  exists (contents p), (wrapper p), fr, (activations p), [],
    (next_handle p), (next_stamp p).
  split; [unfold reshape, set_frame_requests; now rewrite app_nil_r|].
  repeat split; try constructor; lia.
Qed.

Lemma extends_record_activation (v : string) (a : bool) (p : Page) :
  extends p (record_activation v a p).
Proof.
  exists (contents p), (wrapper p), (frame_requests p), ((v, a) :: activations p), [],
    (next_handle p), (next_stamp p).
  split; [unfold reshape, record_activation; now rewrite app_nil_r|].
  repeat split; try constructor; lia.
Qed.

Lemma extends_setTimeout (tk : Task) (d : Z) (p : Page) :
  tk <> RotationTick -> extends p (setTimeout tk d p).
Proof.
  intros Htk.
  exists (contents p), (wrapper p), (frame_requests p), (activations p),
    [{| handle := next_handle p; stamp := next_stamp p; due := now p + Z.max 0 d;
        delay := d; repeat_ := false; task := tk |}],
    (Pos.succ (next_handle p)), (S (next_stamp p)).
  split; [reflexivity|]. split; [|split; [|split; [lia|lia]]].
  - constructor; [|constructor]. simpl. repeat split; auto; lia.
  - simpl. constructor; [|constructor]. intros H. inversion H.
Qed.

Lemma extends_frame (p q : Page) :
  extends p q ->
  tabs q = tabs p /\ search q = search p /\ pushed q = pushed p
  /\ currentTabIndex q = currentTabIndex p
  /\ autoRotateInterval_id q = autoRotateInterval_id p
  /\ now q = now p /\ fired q = fired p.
Proof. intros (cs & w & fr & acts & added & h & s & -> & _). repeat split. Qed.

Lemma extends_timers (p q : Page) (tm : Timer) :
  extends p q -> In tm (timers p) -> In tm (timers q).
Proof.
  intros (cs & w & fr & acts & added & h & s & -> & _) H. simpl.
  apply in_or_app. now left.
Qed.

(** *** Positions of the content blocks *)

Lemma positions_bounds (f : ContentElement -> bool) (cs : list ContentElement)
  (i x : nat) :
  In x (positions f i cs) -> (i <= x < i + length cs)%nat.
Proof.
  revert i. induction cs as [|c cs IH]; intros i; simpl; [tauto|].
  destruct (f c); simpl.
  - intros [<-|H]; [lia|]. apply IH in H. lia.
  - intros H. apply IH in H. lia.
Qed.

Lemma positions_NoDup (f : ContentElement -> bool) (cs : list ContentElement) (i : nat) :
  NoDup (positions f i cs).
Proof.
  revert i. induction cs as [|c cs IH]; intros i; simpl; [constructor|].
  destruct (f c); [|apply IH]. constructor; [|apply IH].
  intros H. apply list_elem_of_In, positions_bounds in H. lia.
Qed.

Section ControllerFacts.

Variable config : TabConfig.

Lemma extends_pin_wrapper (h : Z) (p : Page) : extends p (pin_wrapper h p).
Proof.
  unfold pin_wrapper. destruct (wrapper p); [|apply extends_refl].
  destruct (0 <? h); [apply extends_set_wrapper|apply extends_refl].
Qed.

Lemma extends_hide_item (animate : bool) (index item : nat) (p : Page) :
  extends p (hide_item animate index item p).
Proof.
  unfold hide_item. destruct animate; [|apply extends_set_contents].
  eapply extends_trans; [apply extends_set_contents|].
  apply extends_setTimeout; discriminate.
Qed.

Lemma extends_hide_items (animate : bool) (items : list nat) (index : nat) (p : Page) :
  extends p (hide_items animate index items p).
Proof.
  revert index p. induction items as [|item rest IH]; intros index p; simpl.
  - apply extends_refl.
  - eapply extends_trans; [apply extends_hide_item|apply IH].
Qed.

Lemma extends_switchContent (tabValue : string) (animate : bool) (p : Page) :
  extends p (switchContent config tabValue animate p).
Proof.
  unfold switchContent.
  eapply extends_trans; [|apply extends_setTimeout; discriminate].
  eapply extends_trans; [|apply extends_record_activation].
  eapply extends_trans; [|apply extends_hide_items].
  destruct (itemsToHide config tabValue p); [apply extends_refl|].
  destruct (negb (showAll config)); [apply extends_pin_wrapper|apply extends_refl].
Qed.

Lemma extends_show_items (items : list nat) (index : nat) (p : Page) :
  extends p (show_items config index items p).
Proof.
  revert index p. induction items as [|item rest IH]; intros index p; simpl.
  - apply extends_refl.
  - eapply extends_trans; [|apply IH]. unfold show_item.
    eapply extends_trans; [apply extends_set_contents|apply extends_set_frame_requests].
Qed.

Lemma extends_show_phase (items : list nat) (p : Page) :
  extends p (show_phase config items p).
Proof.
  unfold show_phase.
  eapply extends_trans; [apply (extends_show_items items 0%nat)|].
  destruct (wrapper (show_items config 0 items p)); [|apply extends_refl].
  destruct (negb (showAll config)); [|apply extends_refl].
  eapply extends_trans; [apply extends_set_wrapper|].
  eapply extends_trans; apply extends_setTimeout; discriminate.
Qed.

Lemma extends_make_visible (l : list nat) (q : Page) :
  extends q
    (fold_left (fun q item => set_contents (alter make_visible item (contents q)) q) l q).
Proof.
  revert q. induction l as [|item l IH]; intros q; simpl; [apply extends_refl|].
  eapply extends_trans; [apply extends_set_contents|apply IH].
Qed.

Lemma extends_animation_frame (p : Page) : extends p (animation_frame p).
Proof.
  unfold animation_frame.
  eapply extends_trans; [apply extends_make_visible|apply extends_set_frame_requests].
Qed.

Lemma extends_run_task (tk : Task) (p : Page) :
  tk <> RotationTick -> tk <> RestartRotation -> extends p (run_task config tk p).
Proof.
  intros Ht Hr. destruct tk; simpl; try contradiction.
  - apply extends_set_contents.
  - apply extends_show_phase.
  - unfold measure_wrapper. destruct (wrapper p); [apply extends_pin_wrapper|apply extends_refl].
  - unfold release_wrapper. destruct (wrapper p); [apply extends_set_wrapper|apply extends_refl].
Qed.

(** *** The timers and styles of one [switchContent] *)

Lemma contents_hide_items_other (animate : bool) (items : list nat) (index x : nat)
  (p : Page) :
  ~ In x items ->
  contents (hide_items animate index items p) !! x = contents p !! x.
Proof.
  revert index p. induction items as [|item rest IH]; intros index p Hx; simpl.
  - reflexivity.
  - rewrite IH by (intros H; apply Hx; now right).
    assert (Hne : item <> x) by (intros ->; apply Hx; now left).
    unfold hide_item. destruct animate; simpl; now rewrite list_lookup_alter_ne.
Qed.

Lemma contents_hide_items (items : list nat) (index k item : nat) (p : Page)
  (c : ContentElement) :
  NoDup items -> items !! k = Some item -> contents p !! item = Some c ->
  contents (hide_items true index items p) !! item = Some (fade_out (index + k) c).
Proof.
  revert index k p. induction items as [|x rest IH]; intros index k p Hnd Hk Hc.
  - discriminate.
  - apply NoDup_cons in Hnd as [Hx Hnd]. destruct k as [|k]; simpl in *.
    + injection Hk as ->. rewrite contents_hide_items_other.
      * unfold hide_item. simpl. rewrite list_lookup_alter_eq, Hc. simpl.
        now rewrite Nat.add_0_r.
      * intros H. apply Hx. now apply list_elem_of_In.
    + assert (Hne : x <> item).
      { intros ->. apply Hx. eapply list_elem_of_lookup_2. exact Hk. }
      replace (index + S k)%nat with (S index + k)%nat by lia.
      apply IH; [exact Hnd|exact Hk|].
      unfold hide_item. simpl. now rewrite list_lookup_alter_ne.
Qed.

Lemma timers_hide_items (items : list nat) (index k item : nat) (p : Page) :
  items !! k = Some item ->
  exists tm,
    In tm (timers (hide_items true index items p))
    /\ task tm = HideItem item
    /\ delay tm = hideDuration + Z.of_nat (index + k) * 30
    /\ due tm = now p + (hideDuration + Z.of_nat (index + k) * 30).
Proof.
  revert index k p. induction items as [|x rest IH]; intros index k p Hk.
  - discriminate.
  - destruct k as [|k]; simpl in *.
    + injection Hk as ->.
      exists {| handle := next_handle p; stamp := next_stamp p;
                due := now p + Z.max 0 (hideDuration + Z.of_nat index * 30);
                delay := hideDuration + Z.of_nat index * 30;
                repeat_ := false; task := HideItem item |}.
      split; [|rewrite Nat.add_0_r; unfold hideDuration; simpl; repeat split; lia].
      eapply extends_timers; [apply extends_hide_items|].
      unfold hide_item. simpl. apply in_or_app. right. now left.
    + destruct (IH (S index) k (hide_item true index x p) Hk) as (tm & Hin & Ht & Hd & Hdue).
      exists tm. replace (index + S k)%nat with (S index + k)%nat by lia.
      repeat split; assumption.
Qed.

Lemma contents_show_items_other (items : list nat) (index x : nat) (p : Page) :
  ~ In x items ->
  contents (show_items config index items p) !! x = contents p !! x.
Proof.
  revert index p. induction items as [|item rest IH]; intros index p Hx; simpl.
  - reflexivity.
  - rewrite IH by (intros H; apply Hx; now right).
    assert (Hne : item <> x) by (intros ->; apply Hx; now left).
    unfold show_item. simpl. now rewrite list_lookup_alter_ne.
Qed.

Lemma contents_show_items (items : list nat) (index k item : nat) (p : Page)
  (c : ContentElement) :
  NoDup items -> items !! k = Some item -> contents p !! item = Some c ->
  contents (show_items config index items p) !! item
  = Some (reveal config (index + k) c).
Proof.
  revert index k p. induction items as [|x rest IH]; intros index k p Hnd Hk Hc.
  - discriminate.
  - apply NoDup_cons in Hnd as [Hx Hnd]. destruct k as [|k]; simpl in *.
    + injection Hk as ->. rewrite contents_show_items_other.
      * unfold show_item. simpl. rewrite list_lookup_alter_eq, Hc. simpl.
        now rewrite Nat.add_0_r.
      * intros H. apply Hx. now apply list_elem_of_In.
    + assert (Hne : x <> item).
      { intros ->. apply Hx. eapply list_elem_of_lookup_2. exact Hk. }
      replace (index + S k)%nat with (S index + k)%nat by lia.
      apply IH; [exact Hnd|exact Hk|].
      unfold show_item. simpl. now rewrite list_lookup_alter_ne.
Qed.

Lemma contents_show_phase (items : list nat) (p : Page) :
  contents (show_phase config items p) = contents (show_items config 0 items p).
Proof.
  unfold show_phase. destruct (wrapper (show_items config 0 items p)); [|reflexivity].
  destruct (negb (showAll config)); reflexivity.
Qed.

Lemma contents_pin_wrapper (h : Z) (p : Page) : contents (pin_wrapper h p) = contents p.
Proof.
  unfold pin_wrapper. destruct (wrapper p); [|reflexivity].
  destruct (0 <? h); reflexivity.
Qed.

Lemma contents_switchContent (tabValue : string) (animate : bool) (p : Page) :
  exists p1,
    contents p1 = contents p /\ now p1 = now p
    /\ contents (switchContent config tabValue animate p)
       = contents (hide_items animate 0 (itemsToHide config tabValue p) p1)
    /\ forall tm,
         In tm (timers (hide_items animate 0 (itemsToHide config tabValue p) p1)) ->
         In tm (timers (switchContent config tabValue animate p)).
Proof.
  unfold switchContent.
  set (p1 := match itemsToHide config tabValue p with
             | [] => p
             | _ :: _ =>
                 if negb (showAll config)
                 then pin_wrapper (hidingContentHeight (itemsToHide config tabValue p) p) p
                 else p
             end).
  exists p1. split; [|split; [|split]].
  - subst p1. destruct (itemsToHide config tabValue p); [reflexivity|].
    destruct (negb (showAll config)); [apply contents_pin_wrapper|reflexivity].
  - subst p1. destruct (itemsToHide config tabValue p); [reflexivity|].
    destruct (negb (showAll config)); [|reflexivity].
    now destruct (extends_frame _ _ (extends_pin_wrapper
      (hidingContentHeight (n :: l) p) p)) as (_&_&_&_&_&?&_).
  - reflexivity.
  - intros tm H. simpl. apply in_or_app. now left.
Qed.


(** *** The record of activations *)

Lemma activations_pin_wrapper (h : Z) (p : Page) :
  activations (pin_wrapper h p) = activations p.
Proof.
  unfold pin_wrapper. destruct (wrapper p); [|reflexivity].
  destruct (0 <? h); reflexivity.
Qed.

Lemma activations_hide_items (animate : bool) (items : list nat) (index : nat) (p : Page) :
  activations (hide_items animate index items p) = activations p.
Proof.
  revert index p. induction items as [|item rest IH]; intros index p; simpl; [reflexivity|].
  rewrite IH. unfold hide_item. destruct animate; reflexivity.
Qed.

Lemma activations_switchContent (tabValue : string) (animate : bool) (p : Page) :
  activations (switchContent config tabValue animate p)
  = (tabValue, animate) :: activations p.
Proof.
  unfold switchContent. simpl. rewrite activations_hide_items.
  destruct (itemsToHide config tabValue p); [reflexivity|].
  destruct (negb (showAll config)); [now rewrite activations_pin_wrapper|reflexivity].
Qed.

Lemma activations_show_items (items : list nat) (index : nat) (p : Page) :
  activations (show_items config index items p) = activations p.
Proof.
  revert index p. induction items as [|item rest IH]; intros index p; simpl; [reflexivity|].
  now rewrite IH.
Qed.

Lemma activations_show_phase (items : list nat) (p : Page) :
  activations (show_phase config items p) = activations p.
Proof.
  unfold show_phase.
  destruct (wrapper (show_items config 0 items p));
    [destruct (negb (showAll config))|]; simpl; apply activations_show_items.
Qed.

Lemma activations_make_visible (l : list nat) (q : Page) :
  activations
    (fold_left (fun q item => set_contents (alter make_visible item (contents q)) q) l q)
  = activations q.
Proof.
  revert q. induction l as [|item l IH]; intros q; simpl; [reflexivity|]. now rewrite IH.
Qed.

Lemma tabs_switchContent (tabValue : string) (animate : bool) (p : Page) :
  tabs (switchContent config tabValue animate p) = tabs p.
Proof. now destruct (extends_frame _ _ (extends_switchContent tabValue animate p)). Qed.

(** *** Exactly one active trigger *)

Lemma mark_tab_active (i : nat) (tab : TabElement) : carries_all (mark_tab i i tab) = true.
Proof.
  unfold mark_tab, carries_all, active_classes. rewrite Nat.eqb_refl. cbn [forallb tab_classes].
  rewrite !class_contains_remove, !class_contains_add. cbn.
  destruct (class_contains "active" (tab_classes tab)),
           (class_contains "text-primary" (tab_classes tab)),
           (class_contains "bg-primary-bg" (tab_classes tab)); reflexivity.
Qed.

Lemma mark_tab_inactive (i j : nat) (tab : TabElement) :
  j <> i -> carries_none (mark_tab i j tab) = true.
Proof.
  intros Hne. unfold mark_tab, carries_none, active_classes.
  destruct (Nat.eqb_spec j i); [contradiction|]. cbn [forallb tab_classes].
  rewrite !class_contains_add, !class_contains_remove. cbn.
  destruct (class_contains "active" (tab_classes tab)),
           (class_contains "text-primary" (tab_classes tab)),
           (class_contains "bg-primary-bg" (tab_classes tab)); reflexivity.
Qed.

Lemma mark_tab_value (i j : nat) (tab : TabElement) :
  tab_value (mark_tab i j tab) = tab_value tab.
Proof. unfold mark_tab. destruct (Nat.eqb j i); reflexivity. Qed.

(** What makes the invariant hold: the triggers were just marked for the
    trigger [i], which declares the value activated last. *)
Lemma marked_invariant (p q : Page) (i : nat) (tab : TabElement) (v : string) :
  tabs p !! i = Some tab -> tab_value tab = Some v ->
  tabs q = imap (mark_tab i) (tabs p) ->
  current_value q = Some v ->
  tab_invariant q.
Proof.
  intros Hi Hv Hq Hcur. exists i, v. split; [exact Hcur|]. split.
  - exists (mark_tab i i tab). rewrite Hq, list_lookup_imap, Hi. simpl.
    split; [reflexivity|]. split; [now rewrite mark_tab_value|apply mark_tab_active].
  - intros j tab1 Hne. rewrite Hq, list_lookup_imap.
    destruct (tabs p !! j) as [tab0|]; simpl; [|discriminate].
    intros [= <-]. now apply mark_tab_inactive.
Qed.

Lemma find_tab_lookup (v : string) (ts : list TabElement) (k i : nat) :
  find_tab v k ts = Some i ->
  (k <= i)%nat /\ exists tab, ts !! (i - k)%nat = Some tab /\ tab_value tab = Some v.
Proof.
  revert k. induction ts as [|tab rest IH]; intros k; simpl; [discriminate|].
  assert (Hrest : find_tab v (S k) rest = Some i ->
                  (k <= i)%nat /\ exists tab0, (tab :: rest) !! (i - k)%nat = Some tab0
                                               /\ tab_value tab0 = Some v).
  { intros H. apply IH in H as (Hle & tab0 & Hl & Hv). split; [lia|].
    exists tab0. split; [|exact Hv].
    replace (i - k)%nat with (S (i - S k)) by lia. exact Hl. }
  destruct (tab_value tab) as [a|] eqn:Ha; [|exact Hrest].
  destruct (String.eqb_spec a v) as [->|_]; [|exact Hrest].
  intros [= <-]. split; [lia|]. exists tab. rewrite Nat.sub_diag. now split.
Qed.

Lemma truthy_value_some (o : option string) (v : string) :
  truthy_value o = Some v -> o = Some v /\ v <> "".
Proof.
  destruct o as [s|]; simpl; [|discriminate].
  destruct (String.eqb_spec s "") as [->|Hs]; [discriminate|].
  intros [= <-]. now split.
Qed.

(** An activation through [updateActiveTab], [updateURL] and
    [switchContent] makes the invariant hold. *)
Lemma activate_invariant (p : Page) (i : nat) (tab : TabElement) (v : string)
  (animate : bool) :
  tabs p !! i = Some tab -> tab_value tab = Some v ->
  tab_invariant (switchContent config v animate (updateActiveTab i p))
  /\ tab_invariant
       (switchContent config v animate (updateURL config v (updateActiveTab i p))).
Proof.
  intros Hi Hv. split.
  - eapply (marked_invariant p); [exact Hi|exact Hv| |].
    + now rewrite tabs_switchContent.
    + unfold current_value. now rewrite activations_switchContent.
  - eapply (marked_invariant p); [exact Hi|exact Hv| |].
    + rewrite tabs_switchContent. unfold updateURL.
      destruct (String.eqb v (defaultTab config)); reflexivity.
    + unfold current_value. now rewrite activations_switchContent.
Qed.

Lemma tab_invariant_same (p q : Page) :
  same_triggers p q -> tab_invariant p -> tab_invariant q.
Proof.
  intros [Ht Ha] (i & v & Hcur & Hone). exists i, v.
  unfold current_value, one_active in *. now rewrite Ht, Ha.
Qed.

Lemma same_triggers_trans (p q r : Page) :
  same_triggers p q -> same_triggers q r -> same_triggers p r.
Proof. intros [? ?] [? ?]. split; congruence. Qed.

Lemma rotate_cases (p : Page) :
  same_triggers p (rotate config p) \/ tab_invariant (rotate config p).
Proof.
  unfold rotate.
  set (p1 := set_currentTabIndex _ p).
  destruct (tabs p1 !! currentTabIndex p1) as [nextTab|] eqn:Hi; [|left; now split].
  destruct (truthy_value (tab_value nextTab)) as [v|] eqn:Hv; [|left; now split].
  right. apply truthy_value_some in Hv as [Hv _].
  now apply (activate_invariant p1 _ nextTab).
Qed.

Lemma run_task_cases (tk : Task) (p : Page) :
  same_triggers p (run_task config tk p) \/ tab_invariant (run_task config tk p).
Proof.
  destruct tk as [item|items| | | |]; simpl.
  - left. now split.
  - left. split; [|apply activations_show_phase].
    now destruct (extends_frame _ _ (extends_show_phase items p)).
  - left. unfold measure_wrapper, pin_wrapper. destruct (wrapper p); [|now split].
    destruct (0 <? wrapper_offsetHeight w); now split.
  - left. unfold release_wrapper. destruct (wrapper p); now split.
  - left. unfold startAutoRotation. destruct (autoRotateInterval_id p); now split.
  - apply rotate_cases.
Qed.

Lemma same_triggers_rearm (tm : Timer) (p : Page) : same_triggers p (rearm tm p).
Proof. unfold rearm. destruct (existsb _ _); now split. Qed.

Lemma fire_cases (p : Page) :
  same_triggers p (fire config p) \/ tab_invariant (fire config p).
Proof.
  unfold fire. destruct (next_timer (timers p)) as [tm|]; [|left; now split].
  destruct (repeat_ tm).
  - destruct (run_task_cases (task tm)
                (record_fired tm (set_now (Z.max (now p) (due tm)) p))) as [H|H].
    + left. eapply same_triggers_trans; [|apply same_triggers_rearm].
      destruct H as [Ht Ha]. now split.
    + right. eapply tab_invariant_same; [apply same_triggers_rearm|exact H].
  - match goal with |- context [run_task config (task tm) ?q] =>
      destruct (run_task_cases (task tm) q) as [H|H] end.
    + left. destruct H as [Ht Ha]. now split.
    + now right.
Qed.

Lemma click_cases (i : nat) (p : Page) :
  same_triggers p (click config i p) \/ tab_invariant (click config i p).
Proof.
  unfold click. destruct (tabs p !! i) as [tab|] eqn:Hi; [|left; now split].
  destruct (truthy_value (tab_value tab)) as [v|] eqn:Hv; [|left; now split].
  right. apply truthy_value_some in Hv as [Hv _].
  match goal with |- context [updateActiveTab i ?q] =>
    destruct (activate_invariant q i tab v true) as [_ H] end.
  - now destruct (autoRotateInterval_id p).
  - exact Hv.
  - destruct (autoRotate config); [|exact H].
    eapply tab_invariant_same; [|exact H]. now split.
Qed.

Lemma popstate_cases (restored : list (string * string)) (p : Page) :
  same_triggers p (popstate config restored p)
  \/ tab_invariant (popstate config restored p).
Proof.
  unfold popstate. set (p0 := set_location restored false p).
  destruct (find_tab (url_or_default config p0) 0 (tabs p0)) as [i|] eqn:Hf;
    [|left; now split].
  right. apply find_tab_lookup in Hf as (_ & tab & Hi & Hv).
  rewrite Nat.sub_0_r in Hi.
  destruct (activate_invariant p0 i tab (url_or_default config p0) true Hi Hv) as [H _].
  eapply tab_invariant_same; [|exact H]. now split.
Qed.

Lemma step_cases (e : Event) (p : Page) :
  same_triggers p (step config e p) \/ tab_invariant (step config e p).
Proof.
  destruct e; simpl.
  - apply click_cases.
  - apply popstate_cases.
  - apply fire_cases.
  - left. split; [|apply activations_make_visible].
    now destruct (extends_frame _ _ (extends_animation_frame p)).
  - left. now split.
Qed.

Lemma initTabs_activation (p : Page) :
  tabs p <> [] -> contents p <> [] ->
  activations (initTabs config p) = (url_or_default config p, false) :: activations p
  /\ (forall i, find_tab (url_or_default config p) 0 (tabs p) = Some i ->
      tabs (initTabs config p) = imap (mark_tab i) (tabs p))
  /\ (find_tab (url_or_default config p) 0 (tabs p) = None ->
      tabs (initTabs config p) = tabs p)
  /\ exists tm,
       In tm (timers (initTabs config p))
       /\ task tm = ShowItems (itemsToShow config (url_or_default config p) p)
       /\ delay tm = 0.
Proof.
  intros Ht Hc. unfold initTabs.
  destruct (tabs p) as [|tab0 ts] eqn:Htabs; [contradiction|].
  destruct (contents p) as [|c0 cs] eqn:Hcontents; [contradiction|].
  set (v := url_or_default config p).
  set (p1 := set_autoRotateInterval_id None _).
  assert (Htabs1 : tabs p1 = tab0 :: ts) by (subst p1; simpl; exact Htabs).
  rewrite Htabs1.
  set (p2 := match find_tab v 0 (tab0 :: ts) with
             | Some i => updateActiveTab i p1
             | None => p1
             end).
  assert (Hacts2 : activations p2 = activations p).
  { subst p2. destruct (find_tab v 0 (tab0 :: ts)); reflexivity. }
  assert (Hshow2 : itemsToShow config v p2 = itemsToShow config v p).
  { subst p2. destruct (find_tab v 0 (tab0 :: ts)); reflexivity. }
  set (p3 := switchContent config v false p2).
  assert (Hacts3 : activations p3 = (v, false) :: activations p).
  { subst p3. now rewrite activations_switchContent, Hacts2. }
  assert (Htabs3 : tabs p3 = tabs p2) by (subst p3; apply tabs_switchContent).
  assert (Htimer3 : exists tm, In tm (timers p3)
                               /\ task tm = ShowItems (itemsToShow config v p)
                               /\ delay tm = 0).
  { subst p3. unfold switchContent, setTimeout, arm. simpl. eexists.
    split; [apply in_or_app; right; left; reflexivity|].
    split; [simpl; now rewrite Hshow2|reflexivity]. }
  set (p4 := match wrapper p3 with
             | Some _ => setTimeout MeasureWrapper 100 p3
             | None => p3
             end).
  assert (H4 : activations p4 = activations p3 /\ tabs p4 = tabs p3
               /\ forall tm, In tm (timers p3) -> In tm (timers p4)).
  { subst p4. destruct (wrapper p3); repeat split; auto.
    intros tm H. simpl. apply in_or_app. now left. }
  destruct H4 as (Hacts4 & Htabs4 & Htimers4).
  assert (H5 : forall q, q = (if autoRotate config
                              then setTimeout RestartRotation (autoRotateInterval config) p4
                              else p4) ->
               activations q = activations p4 /\ tabs q = tabs p4
               /\ forall tm, In tm (timers p4) -> In tm (timers q)).
  { intros q ->. destruct (autoRotate config); repeat split; auto.
    intros tm H. simpl. apply in_or_app. now left. }
  destruct (H5 _ eq_refl) as (Hacts5 & Htabs5 & Htimers5).
  split; [congruence|]. split; [|split].
  - intros i Hi. rewrite Htabs5, Htabs4, Htabs3. subst p2. rewrite Hi.
    unfold updateActiveTab. simpl. now rewrite Htabs.
  - intros Hnone. rewrite Htabs5, Htabs4, Htabs3. subst p2. rewrite Hnone.
    exact Htabs1.
  - destruct Htimer3 as (tm & Hin & Htask & Hdelay). exists tm. auto.
Qed.

Lemma run_invariant (es : list Event) (p : Page) :
  tab_invariant p -> tab_invariant (run config es p).
Proof.
  revert p. induction es as [|e es IH]; intros p Hp; simpl; [exact Hp|].
  apply IH. destruct (step_cases e p) as [H|H]; [|exact H].
  now apply (tab_invariant_same p).
Qed.

(** C6, amended. For a group with a trigger and a content block, the value
    activated by [initTabs] is the value of the URL parameter whenever the
    parameter is there and not empty, whether a trigger declares that value
    or not, and the default value when the parameter is absent or empty;
    the blocks shown are those of that value. *)
Theorem C6_initial_value_from_url (p : Page) :
  tabs p <> [] -> contents p <> [] ->
  (forall v,
      params_get (queryParam config) (search p) = Some v -> v <> "" ->
      activations (initTabs config p) = (v, false) :: activations p
      /\ exists tm,
           In tm (timers (initTabs config p))
           /\ task tm = ShowItems (itemsToShow config v p) /\ delay tm = 0)
  /\ (params_get (queryParam config) (search p) = None
      \/ params_get (queryParam config) (search p) = Some "" ->
      activations (initTabs config p) = (defaultTab config, false) :: activations p
      /\ exists tm,
           In tm (timers (initTabs config p))
           /\ task tm = ShowItems (itemsToShow config (defaultTab config) p)
           /\ delay tm = 0).
Proof.
  intros Ht Hc. destruct (initTabs_activation p Ht Hc) as (Hact & _ & _ & Htm).
  unfold url_or_default in *. split.
  - intros v Hv Hne. rewrite Hv in Hact, Htm.
    destruct (String.eqb v "") eqn:E; [apply String.eqb_eq in E; contradiction|].
    now split.
  - intros [Hv|Hv]; rewrite Hv in Hact, Htm; now split.
Qed.

(** C7, amended. For a group with a trigger and a content block: when
    the initial value is declared by a trigger, [initTabs] leaves exactly
    one trigger with the active classes, the first one that declares the
    value, and no other trigger with any of them; when no trigger declares
    it, the classes stay as the markup has them. On a group without a
    trigger or without a content block [initTabs] returns at once and
    changes nothing. Every event that activates a value (a click on a
    trigger that declares one, a rotation tick that lands on such a trigger,
    a navigation to a value a trigger declares) leaves exactly one trigger
    active, the one that declares the value now current; and once this
    holds it holds after every event. *)
Theorem C7_one_active_trigger :
  (forall p i,
      tabs p <> [] -> contents p <> [] ->
      find_tab (url_or_default config p) 0 (tabs p) = Some i ->
      current_value (initTabs config p) = Some (url_or_default config p)
      /\ one_active (initTabs config p) i (url_or_default config p))
  /\ (forall p,
         tabs p <> [] -> contents p <> [] ->
         find_tab (url_or_default config p) 0 (tabs p) = None ->
         tabs (initTabs config p) = tabs p)
  /\ (forall p, tabs p = [] \/ contents p = [] -> initTabs config p = p)
  /\ (forall e p,
         activations (step config e p) <> activations p ->
         tab_invariant (step config e p))
  /\ (forall es p, tab_invariant p -> tab_invariant (run config es p)).
Proof.
  split; [|split; [|split; [|split]]].
  - intros p i Ht Hc Hf.
    destruct (initTabs_activation p Ht Hc) as (Hact & Hmark & _ & _).
    assert (Hcur : current_value (initTabs config p) = Some (url_or_default config p)).
    { unfold current_value. now rewrite Hact. }
    split; [exact Hcur|].
    apply find_tab_lookup in Hf as Hl. destruct Hl as (_ & tab & Hi & Hv).
    rewrite Nat.sub_0_r in Hi. split.
    + exists (mark_tab i i tab). rewrite (Hmark i Hf), list_lookup_imap, Hi. simpl.
      split; [reflexivity|]. split; [now rewrite mark_tab_value|apply mark_tab_active].
    + intros j tab1 Hne. rewrite (Hmark i Hf), list_lookup_imap.
      destruct (tabs p !! j) as [tab0|]; simpl; [|discriminate].
      intros [= <-]. now apply mark_tab_inactive.
  - intros p Ht Hc Hf. destruct (initTabs_activation p Ht Hc) as (_ & _ & Hsame & _).
    exact (Hsame Hf).
  - intros p [Hnone|Hnone]; unfold initTabs; rewrite Hnone; [reflexivity|].
    now destruct (tabs p).
  - intros e p Hchange. destruct (step_cases e p) as [[_ Ha]|H]; [contradiction|exact H].
  - apply run_invariant.
Qed.

End ControllerFacts.

(** *** The tech tabs of the home page *)

(** C6, as stated, fails: with [?tech=zzz], a value no trigger declares,
    [initTabs] activates "zzz" and not the default "ai-matching", and once
    the timers have run every block is hidden. *)
Lemma C6_unknown_value_activated :
  find_tab "zzz" 0 (tabs (tech_page [("tech", "zzz")])) = None
  /\ defaultTab tech_config = "ai-matching"
  /\ activations (initTabs tech_config (tech_page [("tech", "zzz")])) = [("zzz", false)]
  /\ map style_display
       (contents (run tech_config [Fire; Fire; Fire; Fire]
                    (initTabs tech_config (tech_page [("tech", "zzz")]))))
     = ["none"; "none"; "none"].
Proof. vm_compute. repeat split. Qed.

(** The amended C6 applies to the page loaded with [?tech=real-time]. *)
Lemma C6_initial_value_from_url_witness :
  activations (initTabs tech_config (tech_page [("tech", "real-time")]))
  = [("real-time", false)].
Proof.
  destruct (C6_initial_value_from_url tech_config (tech_page [("tech", "real-time")]))
    as [Hurl _]; [discriminate|discriminate|].
  destruct (Hurl "real-time") as [Hact _]; [reflexivity|discriminate|].
  exact Hact.
Defined.

(** C7, as stated, fails: the group does not show all content, and after
    [initTabs] with [?tech=zzz] the current value is "zzz" and no trigger
    carries an active class. Nor does any after [initTabs] on the three
    triggers without a content block, the first of which declares the
    default value: the page is as it was. *)
Lemma C7_no_active_trigger :
  showAll tech_config = false
  /\ current_value (initTabs tech_config (tech_page [("tech", "zzz")])) = Some "zzz"
  /\ map (fun tab => existsb (fun c => class_contains c (tab_classes tab)) active_classes)
       (tabs (initTabs tech_config (tech_page [("tech", "zzz")])))
     = [false; false; false]
  /\ find_tab (url_or_default tech_config (set_contents [] (tech_page []))) 0
       (tabs (set_contents [] (tech_page []))) = Some 0%nat
  /\ initTabs tech_config (set_contents [] (tech_page [])) = set_contents [] (tech_page [])
  /\ map (fun tab => existsb (fun c => class_contains c (tab_classes tab)) active_classes)
       (tabs (initTabs tech_config (set_contents [] (tech_page []))))
     = [false; false; false].
Proof. vm_compute. repeat split. Qed.

(** The amended C7 applies to the page loaded with [?tech=real-time]: the
    second trigger is the active one. *)
Lemma C7_one_active_trigger_witness :
  one_active (initTabs tech_config (tech_page [("tech", "real-time")])) 1 "real-time".
Proof.
  destruct (C7_one_active_trigger tech_config) as [Hinit _].
  destruct (Hinit (tech_page [("tech", "real-time")]) 1%nat) as [_ Hone];
    [discriminate|discriminate|reflexivity|].
  exact Hone.
Defined.

(** *** The order of the timers *)



Lemma next_timer_In (ts : list Timer) (m : Timer) : next_timer ts = Some m -> In m ts.
Proof.
  revert m. induction ts as [|tm rest IH]; intros m; simpl; [discriminate|].
  destruct (next_timer rest) as [m1|].
  - destruct (earlier m1 tm); intros [= <-]; [right; now apply IH|now left].
  - intros [= <-]. now left.
Qed.

Lemma next_timer_none (ts : list Timer) : next_timer ts = None -> ts = [].
Proof.
  destruct ts as [|tm rest]; [reflexivity|]. simpl.
  destruct (next_timer rest) as [m1|]; [destruct (earlier m1 tm)|]; discriminate.
Qed.


Lemma NoDup_map_filter {A B : Type} (g : A -> B) (f : A -> bool) (l : list A) :
  NoDup (map g l) -> NoDup (map g (List.filter f l)).
Proof.
  induction l as [|x l IH]; simpl; [auto|]. intros H.
  apply NoDup_cons in H as [Hx Hl]. destruct (f x); simpl; [|auto].
  apply NoDup_cons. split; [|auto].
  intros Hin. apply Hx. apply list_elem_of_In.
  apply list_elem_of_In, in_map_iff in Hin as (y & Hy & Hin).
  apply filter_In in Hin as [Hin _]. apply in_map_iff. eauto.
Qed.

Lemma same_stamp_same_timer (ts : list Timer) (a b : Timer) :
  NoDup (map stamp ts) -> In a ts -> In b ts -> stamp a = stamp b -> a = b.
Proof.
  induction ts as [|x ts IH]; simpl; [tauto|]. intros H.
  apply NoDup_cons in H as [Hx Hts].
  intros [<-|Ha] [<-|Hb] Heq; auto.
  - exfalso. apply Hx. rewrite Heq. now apply list_elem_of_In, in_map.
  - exfalso. apply Hx. rewrite <- Heq. now apply list_elem_of_In, in_map.
Qed.

(** *** The timers the controller keeps track of *)

Lemma advances_extends (p q : Page) : extends p q -> advances p q.
Proof. intros H. exists p. split; [repeat split|exact H]. Qed.

Lemma advances_same (p q : Page) : same_scheduler p q -> advances p q.
Proof. intros H. exists q. split; [exact H|apply extends_refl]. Qed.

Lemma advances_frame (p q : Page) :
  advances p q ->
  autoRotateInterval_id q = autoRotateInterval_id p /\ now q = now p
  /\ fired q = fired p /\ (next_handle p <= next_handle q)%positive
  /\ (next_stamp p <= next_stamp q)%nat
  /\ (forall tm, In tm (timers p) -> In tm (timers q))
  /\ (forall tm, In tm (timers q) ->
        In tm (timers p)
        \/ (task tm <> RotationTick /\ (next_stamp p <= stamp tm)%nat)).
Proof.
  intros (q0 & (Ht & Hid & Hs & Hh & Hn & Hf)
             & cs & w & fr & acts & added & h & s & -> & F & N & S1 & H1).
  simpl. rewrite Ht, Hid, Hs, Hh, Hn, Hf in *.
  repeat split; try assumption.
  - intros tm H. apply in_or_app. now left.
  - intros tm H. apply in_app_or in H as [H|H]; [now left|right].
    rewrite List.Forall_forall in F. destruct (F tm H) as (? & ? & ?).
    split; [assumption|lia].
Qed.

Lemma tracked_advances (p q : Page) :
  timers_tracked p -> advances p q -> timers_tracked q.
Proof.
  intros (T1 & T2 & T3 & T4)
         (q0 & (Ht & Hid & Hs & Hh & Hn & Hf)
             & cs & w & fr & acts & added & h & s & -> & F & N & S1 & H1).
  unfold timers_tracked. simpl. rewrite Ht, Hid, Hs in *.
  rewrite List.Forall_forall in F.
  split; [|split; [|split]].
  - intros tm H Htask. apply in_app_or in H as [H|H]; [now apply T1|].
    destruct (F tm H) as (? & _). contradiction.
  - intros tm H. apply in_app_or in H as [H|H].
    + specialize (T2 tm H). lia.
    + destruct (F tm H) as (_ & _ & ?). lia.
  - rewrite map_app. apply NoDup_app. split; [exact T3|]. split; [|exact N].
    intros x Hx1 Hx2.
    apply list_elem_of_In, in_map_iff in Hx1 as (t1 & <- & Ht1).
    apply list_elem_of_In, in_map_iff in Hx2 as (t2 & Heq & Ht2).
    specialize (T2 t1 Ht1). destruct (F t2 Ht2) as (_ & _ & ?). lia.
  - intros tm H Hrep. apply in_app_or in H as [H|H]; [now apply T4|].
    destruct (F tm H) as (_ & ? & _). congruence.
Qed.

Lemma tracked_filter (f : Timer -> bool) (p : Page) :
  timers_tracked p -> timers_tracked (set_timers (List.filter f (timers p)) p).
Proof.
  intros (T1 & T2 & T3 & T4). unfold timers_tracked. simpl.
  split; [|split; [|split]].
  - intros tm H. apply filter_In in H as [H _]. now apply T1.
  - intros tm H. apply filter_In in H as [H _]. now apply T2.
  - now apply NoDup_map_filter.
  - intros tm H. apply filter_In in H as [H _]. now apply T4.
Qed.

Section RotationFacts.

Variable config : TabConfig.

Lemma startAutoRotation_shape (p : Page) :
  timers (startAutoRotation config p)
  = (match autoRotateInterval_id p with
     | Some id => List.filter (fun tm => negb (Pos.eqb (handle tm) id)) (timers p)
     | None => timers p
     end ++ [rotation_timer config p])%list
  /\ autoRotateInterval_id (startAutoRotation config p) = Some (next_handle p)
  /\ next_stamp (startAutoRotation config p) = S (next_stamp p)
  /\ next_handle (startAutoRotation config p) = Pos.succ (next_handle p)
  /\ now (startAutoRotation config p) = now p
  /\ fired (startAutoRotation config p) = fired p.
Proof. unfold startAutoRotation. destruct (autoRotateInterval_id p); repeat split. Qed.

(** Once the interval the controller holds is cleared, no rotation tick is
    pending. *)
Lemma cleared_no_tick (p : Page) (tm : Timer) :
  timers_tracked p ->
  In tm (match autoRotateInterval_id p with
         | Some id => List.filter (fun tm => negb (Pos.eqb (handle tm) id)) (timers p)
         | None => timers p
         end) ->
  task tm <> RotationTick.
Proof.
  intros (T1 & _) Hin Htask. destruct (autoRotateInterval_id p) as [id|] eqn:Hid.
  - apply filter_In in Hin as [Hin Hne]. specialize (T1 tm Hin Htask).
    injection T1 as ->. now rewrite Pos.eqb_refl in Hne.
  - specialize (T1 tm Hin Htask). discriminate.
Qed.

Lemma cleared_subset (p : Page) (tm : Timer) :
  In tm (match autoRotateInterval_id p with
         | Some id => List.filter (fun tm => negb (Pos.eqb (handle tm) id)) (timers p)
         | None => timers p
         end) ->
  In tm (timers p).
Proof.
  destruct (autoRotateInterval_id p); [|auto]. intros H. now apply filter_In in H.
Qed.

Lemma cleared_NoDup (p : Page) :
  NoDup (map stamp (timers p)) ->
  NoDup (map stamp (match autoRotateInterval_id p with
                    | Some id =>
                        List.filter (fun tm => negb (Pos.eqb (handle tm) id)) (timers p)
                    | None => timers p
                    end)).
Proof. destruct (autoRotateInterval_id p); [apply NoDup_map_filter|auto]. Qed.

Lemma tracked_startAutoRotation (p : Page) :
  timers_tracked p -> timers_tracked (startAutoRotation config p).
Proof.
  intros Hp. pose proof Hp as (T1 & T2 & T3 & T4).
  destruct (startAutoRotation_shape p) as (Ht & Hid & Hs & _).
  unfold timers_tracked. rewrite Ht, Hid, Hs. split; [|split; [|split]].
  - intros tm H Htask. apply in_app_or in H as [H|[<-|[]]]; [|reflexivity].
    exfalso. now apply (cleared_no_tick p tm).
  - intros tm H. apply in_app_or in H as [H|[<-|[]]]; [|simpl; lia].
    apply cleared_subset in H. specialize (T2 tm H). lia.
  - rewrite map_app. apply NoDup_app. split; [now apply cleared_NoDup|].
    split; [|simpl; apply NoDup_singleton].
    intros x Hx1 Hx2. apply list_elem_of_In, in_map_iff in Hx1 as (t1 & <- & Ht1).
    apply cleared_subset in Ht1. specialize (T2 t1 Ht1).
    apply list_elem_of_In in Hx2. simpl in Hx2. lia.
  - intros tm H Hrep. apply in_app_or in H as [H|[<-|[]]]; [|reflexivity].
    apply cleared_subset in H. now apply T4.
Qed.

Lemma advances_activate (p : Page) (i k : nat) (v : string) (animate : bool) :
  advances p
    (switchContent config v animate
       (updateURL config v (updateActiveTab i (set_currentTabIndex k p)))).
Proof.
  eexists. split; [|apply extends_switchContent].
  unfold updateURL. destruct (String.eqb v (defaultTab config)); repeat split.
Qed.

Lemma advances_rotate (p : Page) : advances p (rotate config p).
Proof.
  unfold rotate.
  set (k := Nat.modulo (currentTabIndex p + 1) (length (tabs p))).
  change (currentTabIndex (set_currentTabIndex k p)) with k.
  destruct (tabs (set_currentTabIndex k p) !! k) as [nextTab|];
    [|apply advances_same; repeat split].
  destruct (truthy_value (tab_value nextTab)); [|apply advances_same; repeat split].
  apply advances_activate.
Qed.

Lemma advances_popstate (restored : list (string * string)) (p : Page) :
  advances p (popstate config restored p).
Proof.
  unfold popstate. set (p0 := set_location restored false p).
  destruct (find_tab (url_or_default config p0) 0 (tabs p0)) as [i|];
    [|apply advances_same; repeat split].
  destruct (extends_switchContent config (url_or_default config p0) true
              (updateActiveTab i p0))
    as (cs & w & fr & acts & added & h & s & Heq & Hadds).
  exists (set_currentTabIndex i (updateActiveTab i p0)).
  split; [repeat split|].
  exists cs, w, fr, acts, added, h, s. split; [|exact Hadds].
  rewrite Heq. reflexivity.
Qed.

Lemma tracked_run_task (tk : Task) (p : Page) :
  timers_tracked p -> timers_tracked (run_task config tk p).
Proof.
  intros Hp. destruct tk as [item|items| | | |].
  1-4: eapply tracked_advances; [exact Hp|];
       apply advances_extends, extends_run_task; discriminate.
  - now apply tracked_startAutoRotation.
  - eapply tracked_advances; [exact Hp|apply advances_rotate].
Qed.

Lemma tracked_rearm (tm : Timer) (q : Page) :
  timers_tracked q -> task tm = RotationTick ->
  autoRotateInterval_id q = Some (handle tm) ->
  timers_tracked (rearm tm q).
Proof.
  intros (T1 & T2 & T3 & T4) Htask Hid. unfold rearm.
  destruct (existsb _ _); [|now repeat split].
  unfold timers_tracked, remove_stamp. simpl. split; [|split; [|split]].
  - intros x H Hx. apply in_app_or in H as [H|[<-|[]]]; [|exact Hid].
    apply filter_In in H as [H _]. now apply T1.
  - intros x H. apply in_app_or in H as [H|[<-|[]]]; [|simpl; lia].
    apply filter_In in H as [H _]. specialize (T2 x H). lia.
  - rewrite map_app. apply NoDup_app. split; [now apply NoDup_map_filter|].
    split; [|simpl; apply NoDup_singleton].
    intros y Hy1 Hy2. apply list_elem_of_In, in_map_iff in Hy1 as (t1 & <- & Ht1).
    apply filter_In in Ht1 as [Ht1 _]. specialize (T2 t1 Ht1).
    apply list_elem_of_In in Hy2. simpl in Hy2. lia.
  - intros x H Hrep. apply in_app_or in H as [H|[<-|[]]]; [|exact Htask].
    apply filter_In in H as [H _]. now apply T4.
Qed.

Lemma tracked_fire (p : Page) : timers_tracked p -> timers_tracked (fire config p).
Proof.
  intros Hp. pose proof Hp as (T1 & T2 & T3 & T4). unfold fire.
  destruct (next_timer (timers p)) as [m|] eqn:Hm; [|exact Hp].
  apply next_timer_In in Hm as Hin.
  set (p1 := record_fired m (set_now (Z.max (now p) (due m)) p)).
  assert (Hp1 : timers_tracked p1) by exact Hp.
  destruct (repeat_ m) eqn:Hrep.
  - pose proof (T4 m Hin Hrep) as Htask.
    apply tracked_rearm; [now apply tracked_run_task|exact Htask|].
    rewrite Htask. cbn [run_task].
    destruct (advances_frame _ _ (advances_rotate p1)) as (Hid & _).
    rewrite Hid. now apply T1.
  - apply tracked_run_task. apply (tracked_filter _ p1 Hp1).
Qed.

Lemma cleared_shape (p : Page) :
  timers (cleared p)
  = match autoRotateInterval_id p with
    | Some id => List.filter (fun tm => negb (Pos.eqb (handle tm) id)) (timers p)
    | None => timers p
    end
  /\ autoRotateInterval_id (cleared p) = None
  /\ next_stamp (cleared p) = next_stamp p /\ next_handle (cleared p) = next_handle p
  /\ now (cleared p) = now p /\ fired (cleared p) = fired p
  /\ tabs (cleared p) = tabs p.
Proof.
  unfold cleared. destruct (autoRotateInterval_id p) eqn:Hid; repeat split; auto.
Qed.

Lemma tracked_cleared (p : Page) : timers_tracked p -> timers_tracked (cleared p).
Proof.
  intros Hp. pose proof Hp as (T1 & T2 & T3 & T4).
  destruct (cleared_shape p) as (Ht & Hid & Hs & _).
  unfold timers_tracked. rewrite Ht, Hid, Hs. split; [|split; [|split]].
  - intros tm H Htask. exfalso. now apply (cleared_no_tick p tm).
  - intros tm H. apply cleared_subset in H. now apply T2.
  - now apply cleared_NoDup.
  - intros tm H. apply cleared_subset in H. now apply T4.
Qed.

Lemma click_shape (i : nat) (p : Page) (tab : TabElement) (v : string) :
  tabs p !! i = Some tab -> truthy_value (tab_value tab) = Some v ->
  click config i p
  = (if autoRotate config
     then setTimeout RestartRotation (autoRotateInterval config)
     else fun q => q)
      (switchContent config v true
         (updateURL config v (updateActiveTab i (set_currentTabIndex i (cleared p))))).
Proof.
  intros Hi Hv. unfold click, cleared. rewrite Hi, Hv.
  destruct (autoRotate config); reflexivity.
Qed.

Lemma tracked_click (i : nat) (p : Page) :
  timers_tracked p -> timers_tracked (click config i p).
Proof.
  intros Hp. destruct (tabs p !! i) as [tab|] eqn:Hi;
    [|unfold click; now rewrite Hi].
  destruct (truthy_value (tab_value tab)) as [v|] eqn:Hv;
    [|unfold click; now rewrite Hi, Hv].
  rewrite (click_shape i p tab v Hi Hv).
  assert (H3 : timers_tracked
                 (switchContent config v true
                    (updateURL config v
                       (updateActiveTab i (set_currentTabIndex i (cleared p)))))).
  { eapply tracked_advances; [apply tracked_cleared, Hp|apply advances_activate]. }
  destruct (autoRotate config); [|exact H3].
  eapply tracked_advances; [exact H3|].
  apply advances_extends, extends_setTimeout. discriminate.
Qed.

Lemma tracked_step (e : Event) (p : Page) :
  timers_tracked p -> timers_tracked (step config e p).
Proof.
  intros Hp. destruct e as [i|restored| | |d]; simpl.
  - now apply tracked_click.
  - eapply tracked_advances; [exact Hp|apply advances_popstate].
  - now apply tracked_fire.
  - eapply tracked_advances; [exact Hp|apply advances_extends, extends_animation_frame].
  - exact Hp.
Qed.


(** A page on which no timer is pending, as before [initTabs]. *)
Lemma tracked_initTabs (p : Page) :
  timers p = [] -> timers_tracked (initTabs config p).
Proof.
  intros Hnil.
  assert (Hp : timers_tracked p).
  { unfold timers_tracked. rewrite Hnil. simpl.
    repeat split; try (intros tm []). apply NoDup_nil_2. }
  unfold initTabs. destruct (tabs p) as [|tab0 ts] eqn:Htabs; [exact Hp|].
  destruct (contents p) as [|c0 cs] eqn:Hcontents; [exact Hp|].
  match goal with |- context [switchContent config ?v false ?q] =>
    assert (H3 : timers_tracked (switchContent config v false q)) end.
  { eapply tracked_advances; [|apply advances_extends, extends_switchContent].
    assert (H1 : forall n, timers_tracked
                             (set_autoRotateInterval_id None (set_currentTabIndex n p))).
    { intros n. unfold timers_tracked. simpl. rewrite Hnil. simpl.
      repeat split; try (intros tm []). apply NoDup_nil_2. }
    destruct (find_tab _ 0 (tabs _)); apply H1. }
  match goal with |- context [match wrapper ?q with _ => _ end] =>
    assert (H4 : timers_tracked (match wrapper q with
                                 | Some _ => setTimeout MeasureWrapper 100 q
                                 | None => q
                                 end)) end.
  { destruct (wrapper _); [|exact H3].
    eapply tracked_advances; [exact H3|].
    apply advances_extends, extends_setTimeout. discriminate. }
  destruct (autoRotate config); [|exact H4].
  eapply tracked_advances; [exact H4|].
  apply advances_extends, extends_setTimeout. discriminate.
Qed.

(** *** From a click to the restart of the rotation *)










(** *** One tick, one click *)

Lemma params_get_set (k v : string) (q : list (string * string)) :
  params_get k (params_set k v q) = Some v.
Proof.
  unfold params_get. induction q as [|[k1 v1] q IH]; simpl.
  - now rewrite String.eqb_refl.
  - destruct (String.eqb_spec k1 k) as [->|Hne]; simpl.
    + now rewrite String.eqb_refl.
    + destruct (String.eqb_spec k k1) as [->|_]; [contradiction|exact IH].
Qed.

Lemma params_get_delete (k : string) (q : list (string * string)) :
  params_get k (params_delete k q) = None.
Proof.
  unfold params_get, params_delete. induction q as [|[k1 v1] q IH]; simpl; [reflexivity|].
  destruct (String.eqb_spec k1 k) as [->|Hne]; simpl; [exact IH|].
  destruct (String.eqb_spec k k1) as [->|_]; [contradiction|exact IH].
Qed.


Lemma one_active_marked (p q : Page) (i : nat) (tab : TabElement) (v : string) :
  tabs p !! i = Some tab -> tab_value tab = Some v ->
  tabs q = imap (mark_tab i) (tabs p) ->
  one_active q i v.
Proof.
  intros Hi Hv Hq. split.
  - exists (mark_tab i i tab). rewrite Hq, list_lookup_imap, Hi. simpl.
    split; [reflexivity|]. split; [now rewrite mark_tab_value|apply mark_tab_active].
  - intros j tab1 Hne. rewrite Hq, list_lookup_imap.
    destruct (tabs p !! j) as [tab0|]; simpl; [|discriminate].
    intros [= <-]. now apply mark_tab_inactive.
Qed.

Lemma search_updateURL (v : string) (p : Page) :
  params_get (queryParam config) (search (updateURL config v p))
  = if String.eqb v (defaultTab config) then None else Some v.
Proof.
  unfold updateURL. destruct (String.eqb v (defaultTab config)); simpl.
  - apply params_get_delete.
  - apply params_get_set.
Qed.



End RotationFacts.

End TabsFacts.

(** ** Properties of the active language and of the translation of the page *)

Module I18nPageFacts.
Import JS I18n I18nSpec I18nPage I18nPageSpec I18nFacts.

(** *** The query of the URL *)

Lemma params_get_set_other (k name v : string) (q : list (string * string)) :
  k <> name -> params_get k (params_set name v q) = params_get k q.
Proof.
  intros Hne. unfold params_get. induction q as [|[k1 v1] q IH]; simpl.
  - destruct (String.eqb_spec k name); [contradiction|reflexivity].
  - destruct (String.eqb_spec k1 name) as [->|Hk1]; simpl.
    + destruct (String.eqb_spec k name); [contradiction|].
      unfold params_delete. clear IH. induction q as [|[k2 v2] q IH]; simpl; [reflexivity|].
      destruct (String.eqb_spec k2 name) as [->|Hk2]; simpl.
      * destruct (String.eqb_spec k name); [contradiction|exact IH].
      * destruct (String.eqb k k2); [reflexivity|exact IH].
    + destruct (String.eqb k k1); [reflexivity|exact IH].
Qed.

Lemma params_get_delete_other (k name : string) (q : list (string * string)) :
  k <> name -> params_get k (params_delete name q) = params_get k q.
Proof.
  intros Hne. unfold params_get, params_delete.
  induction q as [|[k1 v1] q IH]; simpl; [reflexivity|].
  destruct (String.eqb_spec k1 name) as [->|Hk1]; simpl.
  - destruct (String.eqb_spec k name); [contradiction|exact IH].
  - destruct (String.eqb k k1); [reflexivity|exact IH].
Qed.




Lemma valid_locale_code (l : LocaleCode) : valid_locale (Some (locale_code l)) = Some l.
Proof. destruct l; reflexivity. Qed.

Lemma includes_code (l : LocaleCode) : includes (locale_code l) = Some l.
Proof. destruct l; reflexivity. Qed.

(** X1. Once [updateUrlLanguage(l)] has run, [detectLanguage] answers [l]
    with the source [url], whatever the stored preference, the document and
    the browser say, and whether the storage can be read or not; the other
    parameters of the query are as they were. *)
Theorem updateUrlLanguage_detected (l : LocaleCode) (w : Browser) :
  detectLanguage (updateUrlLanguage l w) = Returned (l, src_url)
  /\ (forall name, name <> "lang" ->
        params_get name (location_search (updateUrlLanguage l w))
        = params_get name (location_search w))
  /\ localStorage (updateUrlLanguage l w) = localStorage w
  /\ storage_denied (updateUrlLanguage l w) = storage_denied w.
Proof.
  split; [|split; [|split; reflexivity]].
  - apply detectLanguage_url. unfold updateUrlLanguage. cbn [location_search with_search].
    now rewrite TabsFacts.params_get_set, valid_locale_code.
  - intros name Hne. now apply params_get_set_other.
Qed.

(** X2. [saveLanguagePreference(l)] raises the error of the storage when
    the storage cannot be reached, and returns otherwise. Once it has
    returned, [detectLanguage] answers [l] with the source [localStorage],
    unless the URL names a supported language, which still comes first; the
    URL and the other keys of the storage are as they were. *)
Theorem saveLanguagePreference_detected (l : LocaleCode) (w : Browser) :
  (storage_denied w = true -> saveLanguagePreference l w = Thrown "SecurityError")
  /\ (storage_denied w = false -> exists w1, saveLanguagePreference l w = Returned w1)
  /\ (forall w1,
        saveLanguagePreference l w = Returned w1 ->
        detectLanguage w1
        = Returned match valid_locale (params_get "lang" (location_search w)) with
                   | Some fromUrl => (fromUrl, src_url)
                   | None => (l, src_localStorage)
                   end
        /\ location_search w1 = location_search w
        /\ (forall key, key <> STORAGE_KEY ->
              localStorage w1 !! key = localStorage w !! key)).
Proof.
  unfold saveLanguagePreference, setItem. destruct (storage_denied w) eqn:Hd.
  - split; [reflexivity|]. split; [discriminate|]. discriminate.
  - split; [discriminate|]. split; [eauto|]. intros w1 [= <-].
    split; [|split; [reflexivity|]].
    + unfold detectLanguage, getItem.
      cbn [location_search localStorage storage_denied with_storage]. rewrite Hd.
      destruct (valid_locale (params_get "lang" (location_search w))); [reflexivity|].
      now rewrite lookup_insert_eq, valid_locale_code.
    + intros key Hne. cbn. now rewrite lookup_insert_ne.
Qed.



(** *** Keys in parts *)

Lemma split_dot_cons (s : string) : exists seg segs, split_dot s = seg :: segs.
Proof.
  induction s as [|c s (seg & segs & IH)]; simpl; [eauto|].
  destruct (Ascii.eqb c "."); [eauto|]. rewrite IH. eauto.
Qed.

Lemma split_dot_app (a b : string) :
  split_dot (a ++ "." ++ b) = (split_dot a ++ split_dot b)%list.
Proof.
  induction a as [|c a IH]; [reflexivity|].
  change (String c a ++ "." ++ b) with (String c (a ++ "." ++ b)).
  cbn [split_dot]. destruct (Ascii.eqb c "."); [now rewrite IH|].
  rewrite IH. now destruct (split_dot_cons a) as (seg & segs & ->).
Qed.

Lemma walk_app (keys1 keys2 : list string) (v : json) :
  walk v (keys1 ++ keys2)
  = match walk v keys1 with Some w => walk w keys2 | None => None end.
Proof.
  revert v. induction keys1 as [|k keys1 IH]; intros v; [reflexivity|].
  cbn [app walk]. destruct (descend v k); [apply IH|reflexivity].
Qed.

Lemma match_bracket_digits (ds : string) :
  forallb is_digit (list_ascii_of_string ds) = true -> match_bracket ds = None.
Proof.
  intros H. unfold match_bracket.
  destruct (rev (list_ascii_of_string ds)) as [|c r1] eqn:Hrev; [reflexivity|].
  assert (Hc : is_digit c = true).
  { rewrite <- forallb_rev, Hrev in H. simpl in H. now apply andb_prop in H as [H _]. }
  destruct (Ascii.eqb_spec c "]") as [->|_]; [discriminate Hc|reflexivity].
Qed.

Lemma lookup_in_parts (first rest : string) (doc : json) :
  getNestedTranslation (first ++ "." ++ rest) doc
  = match walk doc (split_dot first) with
    | Some inner => getNestedTranslation rest inner
    | None => None
    end.
Proof.
  unfold getNestedTranslation.
  rewrite split_dot_app, walk_app. now destruct (walk doc (split_dot first)).
Qed.

Lemma lookup_in_namespace (n : Namespace) (rest : string) (set : list (string * json)) :
  getNestedTranslation (namespace_name n ++ "." ++ rest) (JObj set)
  = match assoc (namespace_name n) set with
    | Some document => getNestedTranslation rest document
    | None => None
    end.
Proof.
  rewrite lookup_in_parts.
  assert (Hwalk : walk (JObj set) (split_dot (namespace_name n))
                  = assoc (namespace_name n) set).
  { destruct n; cbn [namespace_name]; vm_compute split_dot; cbn [walk];
      unfold descend; vm_compute match_bracket; cbn [get_property];
      now destruct (assoc _ set). }
  now rewrite Hwalk.
Qed.

(** X12. A key in two parts joined by a dot is resolved part by part: the
    second part is looked up in what the first part leads to, and the key
    resolves to nothing when the first part leads nowhere. So a key that
    starts with the name of a namespace is resolved in the document of that
    namespace, and resolves to nothing when the set has no such
    document. *)
Theorem getNestedTranslation_in_parts :
  (forall first rest doc,
      getNestedTranslation (first ++ "." ++ rest) doc
      = match walk doc (split_dot first) with
        | Some inner => getNestedTranslation rest inner
        | None => None
        end)
  /\ (forall (n : Namespace) rest (set : list (string * json)),
        getNestedTranslation (namespace_name n ++ "." ++ rest) (JObj set)
        = match assoc (namespace_name n) set with
          | Some document => getNestedTranslation rest document
          | None => None
          end).
Proof. split; [exact lookup_in_parts|exact lookup_in_namespace]. Qed.

Lemma split_dot_plain (s : string) :
  existsb (Ascii.eqb ".") (list_ascii_of_string s) = false -> split_dot s = [s].
Proof.
  induction s as [|c s IH]; [reflexivity|]. cbn [list_ascii_of_string existsb split_dot].
  intros H. apply orb_false_iff in H as [Hc H]. rewrite Ascii.eqb_sym, Hc.
  now rewrite (IH H).
Qed.

Lemma digits_no_dot (cs : list ascii) :
  forallb is_digit cs = true -> existsb (Ascii.eqb ".") cs = false.
Proof.
  induction cs as [|c cs IH]; [reflexivity|]. cbn [forallb existsb].
  intros H. apply andb_prop in H as [Hc H]. rewrite (IH H), orb_false_r.
  destruct (Ascii.eqb_spec "." c) as [<-|_]; [discriminate Hc|reflexivity].
Qed.

Lemma canonical_index_digits (digits : string) (index : N) :
  canonical_index digits = Some index ->
  digits <> "" /\ forallb is_digit (list_ascii_of_string digits) = true
  /\ index = parseInt digits.
Proof.
  unfold canonical_index. destruct digits as [|c ds]; [discriminate|].
  destruct (forallb is_digit (list_ascii_of_string (String c ds))) eqn:Hd;
    [|discriminate].
  destruct (negb (Ascii.eqb c "0") || String.eqb ds ""); [|discriminate].
  simpl. intros [= <-]. split; [discriminate|]. split; reflexivity.
Qed.

Lemma array_get_is_lookup (items : list json) (i : N) :
  array_get items i = items !! N.to_nat i.
Proof.
  destruct (items !! N.to_nat i) as [w|] eqn:Hw.
  - now apply array_get_lookup.
  - destruct (array_get items i) as [w|] eqn:Ha; [|reflexivity].
    apply array_get_lookup in Ha. congruence.
Qed.

Lemma walk_dotted_index (doc : json) (name digits : string) (items : list json)
  (rest : list string) (index : N) :
  name <> "" -> has_line_terminator (list_ascii_of_string name) = false ->
  match_bracket name = None ->
  get_property doc name = Some (JArr items) ->
  canonical_index digits = Some index ->
  walk doc ((name ++ "[" ++ digits ++ "]") :: rest) = walk doc (name :: digits :: rest)
  /\ walk doc (name :: digits :: rest)
     = match items !! N.to_nat index with
       | Some element => walk element rest
       | None => None
       end.
Proof.
  intros Hname Hline Hplain Hprop Hcanon.
  destruct (canonical_index_digits digits index Hcanon) as (Hne & Hd & ->).
  assert (Hbracket : descend doc (name ++ "[" ++ digits ++ "]")
                     = items !! N.to_nat (parseInt digits)).
  { unfold descend.
    rewrite (match_bracket_complete (name ++ "[" ++ digits ++ "]") name digits)
      by (repeat split; assumption).
    rewrite Hprop. apply array_get_is_lookup. }
  assert (Hdot1 : descend doc name = Some (JArr items)).
  { unfold descend. now rewrite Hplain. }
  assert (Hdot2 : descend (JArr items) digits = items !! N.to_nat (parseInt digits)).
  { unfold descend. rewrite (match_bracket_digits digits Hd). cbn [get_property].
    destruct (String.eqb_spec digits "length") as [->|_]; [discriminate Hd|].
    rewrite Hcanon. apply array_get_is_lookup. }
  cbn [walk]. rewrite Hbracket, Hdot1, Hdot2. split; reflexivity.
Qed.

(** X13. Under a property that holds an array, an index written after a
    dot reaches the same element as the index written in brackets, for an
    index in canonical form (no leading zero): ["items.1"] like
    ["items[1]"]; the key resolves to the element when it is a string and to
    nothing when it is not, or when the index is out of bounds. *)
Theorem getNestedTranslation_dotted_index (doc : json) (name digits : string)
  (items : list json) (index : N) :
  name <> "" -> has_line_terminator (list_ascii_of_string name) = false ->
  existsb (Ascii.eqb ".") (list_ascii_of_string name) = false ->
  match_bracket name = None ->
  get_property doc name = Some (JArr items) ->
  canonical_index digits = Some index ->
  getNestedTranslation (name ++ "[" ++ digits ++ "]") doc
  = getNestedTranslation (name ++ "." ++ digits) doc
  /\ getNestedTranslation (name ++ "." ++ digits) doc
     = match items !! N.to_nat index with
       | Some (JStr text) => Some text
       | _ => None
       end.
Proof.
  intros Hname Hline Hdots Hplain Hprop Hcanon.
  destruct (canonical_index_digits digits index Hcanon) as (_ & Hd & _).
  destruct (walk_dotted_index doc name digits items [] index
              Hname Hline Hplain Hprop Hcanon) as [Hsame Hwalk].
  assert (Hkey1 : split_dot (name ++ "[" ++ digits ++ "]")
                  = [name ++ "[" ++ digits ++ "]"]).
  { apply split_dot_plain. rewrite !list_ascii_app, !existsb_app, Hdots.
    rewrite (digits_no_dot _ Hd). reflexivity. }
  assert (Hkey2 : split_dot (name ++ "." ++ digits) = [name; digits]).
  { rewrite split_dot_app, (split_dot_plain name Hdots).
    now rewrite (split_dot_plain digits (digits_no_dot _ Hd)). }
  unfold getNestedTranslation. rewrite Hkey1, Hkey2, Hsame, Hwalk.
  split; [reflexivity|].
  destruct (items !! N.to_nat index) as [element|]; reflexivity.
Qed.

(** *** The loader and the cache, once more *)

Lemma namespace_name_inj (n1 n2 : Namespace) :
  namespace_name n1 = namespace_name n2 -> n1 = n2.
Proof. destruct n1, n2; intros H; try reflexivity; discriminate H. Qed.

Lemma assoc_obj_set {A : Type} (k : string) (v : A) (fields : list (string * A)) :
  assoc k (obj_set k v fields) = Some v.
Proof.
  induction fields as [|[k1 v1] fields IH]; simpl.
  - now rewrite String.eqb_refl.
  - destruct (String.eqb k k1) eqn:Hk; simpl.
    + now rewrite String.eqb_refl.
    + now rewrite Hk.
Qed.

Lemma assoc_obj_set_other {A : Type} (k k0 : string) (v : A) (fields : list (string * A)) :
  k0 <> k -> assoc k0 (obj_set k v fields) = assoc k0 fields.
Proof.
  intros Hne. induction fields as [|[k1 v1] fields IH]; simpl.
  - destruct (String.eqb_spec k0 k); [contradiction|reflexivity].
  - destruct (String.eqb_spec k k1) as [->|Hk]; simpl.
    + destruct (String.eqb_spec k0 k1); [contradiction|reflexivity].
    + destruct (String.eqb k0 k1); [reflexivity|exact IH].
Qed.

Lemma NoDup_translationNamespaces : NoDup translationNamespaces.
Proof. apply (bool_decide_unpack _). vm_compute. exact I. Qed.

Lemma In_translationNamespaces (n : Namespace) : In n translationNamespaces.
Proof. destruct n; unfold translationNamespaces; simpl; tauto. Qed.

Lemma imports_of_app (n : Namespace) (l1 l2 : list (LocaleCode * Namespace)) :
  imports_of n (l1 ++ l2) = (imports_of n l1 ++ imports_of n l2)%list.
Proof. unfold imports_of. apply List.filter_app. Qed.

Lemma namespace_among (n m : Namespace) (rest : list Namespace) (A : Type)
  (here there nowhere : A) :
  m ∉ rest ->
  (if decide (n ∈ m :: rest) then if decide (m = n) then here else there else nowhere)
  = (if decide (m = n) then here
     else if decide (n ∈ rest) then there else nowhere).
Proof.
  intros Hm. destruct (decide (m = n)) as [->|Hne].
  - destruct (decide (n ∈ n :: rest)) as [_|Hno]; [reflexivity|].
    exfalso. apply Hno. now left.
  - destruct (decide (n ∈ rest)) as [Hin|Hno].
    + destruct (decide (n ∈ m :: rest)) as [_|Hno]; [reflexivity|].
      exfalso. apply Hno. now right.
    + destruct (decide (n ∈ m :: rest)) as [Hin|_]; [|reflexivity].
      apply elem_of_cons in Hin as [->|Hin]; contradiction.
Qed.

Lemma imports_of_started (L : LocaleCode) (n : Namespace) (namespaces : list Namespace) :
  NoDup namespaces ->
  imports_of n (map (fun m => (L, m)) namespaces)
  = if decide (n ∈ namespaces) then [(L, n)] else [].
Proof.
  induction namespaces as [|m rest IH]; intros Hnd.
  - destruct (decide (n ∈ [])) as [Hin|]; [|reflexivity]. now apply elem_of_nil in Hin.
  - apply NoDup_cons in Hnd as [Hm Hnd]. cbn [map]. unfold imports_of in *.
    cbn [List.filter snd]. rewrite (IH Hnd).
    pose proof (namespace_among n m rest _ [(L, n)] [(L, n)] [] Hm) as Hcase.
    destruct (decide (m = n)) as [->|Hne].
    + rewrite bool_decide_eq_true_2 by reflexivity.
      destruct (decide (n ∈ rest)) as [Hin|_]; [contradiction|].
      destruct (decide (n ∈ n :: rest)) as [_|Hno]; [reflexivity|].
      exfalso. apply Hno. now left.
    + rewrite bool_decide_eq_false_2 by exact Hne.
      destruct (decide (n ∈ m :: rest)); exact (eq_sym Hcase).
Qed.

Lemma imports_of_fallback (assets : LocaleCode -> Namespace -> import_result)
  (L : LocaleCode) (n : Namespace) (namespaces : list Namespace) :
  NoDup namespaces ->
  imports_of n (flat_map (fallback_trace assets L) namespaces)
  = if decide (n ∈ namespaces) then fallback_trace assets L n else [].
Proof.
  assert (Hone : forall m,
             imports_of n (fallback_trace assets L m)
             = if decide (m = n) then fallback_trace assets L m else []).
  { intros m. unfold imports_of, fallback_trace.
    destruct (assets L m); [|now destruct (decide (m = n))].
    destruct (decide (L = defaultLanguage)); [now destruct (decide (m = n))|].
    cbn [List.filter snd]. destruct (decide (m = n)) as [->|Hne].
    - now rewrite bool_decide_eq_true_2.
    - now rewrite bool_decide_eq_false_2. }
  induction namespaces as [|m rest IH]; intros Hnd.
  - destruct (decide (n ∈ [])) as [Hin|]; [|reflexivity]. now apply elem_of_nil in Hin.
  - apply NoDup_cons in Hnd as [Hm Hnd]. cbn [flat_map].
    rewrite imports_of_app, Hone, (IH Hnd).
    pose proof (namespace_among n m rest _ (fallback_trace assets L n)
                  (fallback_trace assets L n) [] Hm) as Hcase.
    destruct (decide (m = n)) as [->|Hne].
    + destruct (decide (n ∈ rest)) as [Hin|_]; [contradiction|].
      rewrite app_nil_r.
      destruct (decide (n ∈ n :: rest)) as [_|Hno]; [reflexivity|].
      exfalso. apply Hno. now left.
    + cbn [app]. destruct (decide (n ∈ m :: rest)); exact (eq_sym Hcase).
Qed.

(** Of a whole load of [L], the imports of one namespace are those a load
    of that namespace makes on its own. *)
Lemma imports_of_locale_trace (assets : LocaleCode -> Namespace -> import_result)
  (L : LocaleCode) (n : Namespace) :
  imports_of n (locale_trace assets L) = load_trace assets L n.
Proof.
  unfold locale_trace.
  rewrite imports_of_app, imports_of_started, imports_of_fallback
    by exact NoDup_translationNamespaces.
  destruct (decide (n ∈ translationNamespaces)) as [_|Hno];
    [|exfalso; apply Hno, list_elem_of_In, In_translationNamespaces].
  unfold load_trace, fallback_trace.
  destruct (assets L n); [destruct (decide (L = defaultLanguage))|]; reflexivity.
Qed.

Lemma well_formed_after_load (assets : LocaleCode -> Namespace -> import_result)
  (L : LocaleCode) (st : Store) :
  well_formed st -> well_formed (after_load assets L st).
Proof.
  intros [Halloc Hinj]. unfold after_load, well_formed. simpl.
  rewrite length_app. simpl. split.
  - intros l r. destruct (decide (l = L)) as [->|Hne].
    + rewrite lookup_insert_eq. intros [= <-]. lia.
    + rewrite lookup_insert_ne by auto. intros H. apply Halloc in H. lia.
  - intros l1 l2 r.
    destruct (decide (l1 = L)) as [->|H1], (decide (l2 = L)) as [->|H2];
      rewrite ?lookup_insert_eq, ?lookup_insert_ne by auto; auto.
    + intros [= <-] H. apply Halloc in H. lia.
    + intros H [= <-]. apply Halloc in H. lia.
    + apply Hinj.
Qed.

(** X10. [loadLocaleFile] never rejects, whatever the imports do and
    whatever is cached: it returns a document set, which is then the entry
    of the locale asked for, and leaves the entries of the other locales
    alone. On a hit of the cache it imports nothing. Otherwise it imports,
    of every namespace, the asset of the locale and, when that import fails
    and the locale is not the default one, the asset of the default locale
    after it: no more than two assets of any namespace. When every import
    fails and the cache is not used or has no entry, the set holds the empty
    document for every namespace, and it is cached like any other. *)
Theorem loadLocaleFile_never_rejects (assets : LocaleCode -> Namespace -> import_result)
  (L : LocaleCode) (useCache : bool) (st : Store) :
  exists r st1,
    loadLocaleFile assets L useCache st = (Returned r, st1)
    /\ translationCache st1 !! L = Some r
    /\ (forall l, l <> L -> translationCache st1 !! l = translationCache st !! l)
    /\ getLanguageInfo st1 = getLanguageInfo st
    /\ (exists new,
          imports st1 = (imports st ++ new)%list
          /\ (forall cached, cache_hit useCache L st = Some cached -> new = [])
          /\ (cache_hit useCache L st = None ->
              forall n, imports_of n new = load_trace assets L n)
          /\ (forall n,
                imports_of n new = []
                \/ imports_of n new = [(L, n)]
                \/ imports_of n new = [(L, n); (defaultLanguage, n)]))
    /\ ((forall l n, exists err, assets l n = Rejects err) ->
        cache_hit useCache L st = None ->
        forall n, assoc (namespace_name n) (deref st1 r) = Some (JObj []))
    /\ (well_formed st -> well_formed st1).
Proof.
  rewrite loadLocaleFile_unfold.
  destruct (cache_hit useCache L st) as [cached|] eqn:Hhit.
  - exists cached, st. split; [reflexivity|].
    split; [unfold cache_hit in Hhit; now destruct useCache|].
    split; [reflexivity|]. split; [reflexivity|].
    split.
    { exists []. rewrite app_nil_r. split; [reflexivity|]. split; [reflexivity|].
      split; [discriminate|]. intros n. now left. }
    split; [discriminate|auto].
  - exists (length (heap st)), (after_load assets L st).
    split; [reflexivity|].
    split; [unfold after_load; simpl; apply lookup_insert_eq|].
    split; [intros l Hne; unfold after_load; simpl; now rewrite lookup_insert_ne|].
    split; [reflexivity|].
    split.
    { exists (locale_trace assets L). split; [reflexivity|]. split; [discriminate|].
      split; [intros _; apply imports_of_locale_trace|].
      intros n. rewrite imports_of_locale_trace. unfold load_trace. right.
      destruct (assets L n); [destruct (decide (L = defaultLanguage))|]; auto. }
    split; [|apply well_formed_after_load].
    intros Hfail _ n. rewrite deref_after_load, full_set_lookup.
    unfold loaded_document, default_document.
    destruct (Hfail L n) as [e ->]. now destruct (Hfail defaultLanguage n) as [e0 ->].
Qed.

Lemma truthy_loaded_document (assets : LocaleCode -> Namespace -> import_result)
  (L : LocaleCode) (N : Namespace) :
  truthy (loaded_document assets L N) = true.
Proof.
  unfold loaded_document, default_document.
  destruct (assets L N); [destruct (assets defaultLanguage N)|];
    try reflexivity; apply truthy_module_or_default.
Qed.

Lemma cached_namespace_hit (L : LocaleCode) (N : Namespace) (st : Store) (r : nat)
  (doc : json) :
  translationCache st !! L = Some r ->
  assoc (namespace_name N) (deref st r) = Some doc -> truthy doc = true ->
  cached_namespace L N st = Some doc.
Proof. intros Hc Ha Ht. unfold cached_namespace. now rewrite Hc, Ha, Ht. Qed.

(** X11. On a store whose cache names objects of the heap, a different
    one for each locale, [loadSingleNamespace(L, N)] never rejects; the
    document it returns is then what the cache holds for [L] and [N], and a
    second call returns the same document and leaves the store as it is,
    importing nothing. The other namespaces of [L] and the entries of the
    other locales are as they were before the call. *)
Theorem loadSingleNamespace_cached (assets : LocaleCode -> Namespace -> import_result)
  (L : LocaleCode) (N : Namespace) (st : Store) :
  well_formed st ->
  exists doc st1,
    loadSingleNamespace assets L N st = (Returned doc, st1)
    /\ cached_namespace L N st1 = Some doc
    /\ loadSingleNamespace assets L N st1 = (Returned doc, st1)
    /\ (forall n, n <> N -> cached_namespace L n st1 = cached_namespace L n st)
    /\ (forall l n, l <> L -> cached_namespace l n st1 = cached_namespace l n st)
    /\ (cached_namespace L N st = None ->
        doc = loaded_document assets L N
        /\ imports st1 = (imports st ++ load_trace assets L N)%list)
    /\ well_formed st1.
Proof.
  intros [Halloc Hinj].
  destruct (cached_namespace L N st) as [cached|] eqn:Hcached.
  - exists cached, st. unfold loadSingleNamespace. rewrite Hcached.
    repeat split; auto; discriminate.
  - set (doc := loaded_document assets L N).
    set (st0 := log_imports (load_trace assets L N) st).
    assert (Hrun : forall r st2,
               cache_entry L st0 = (Returned r, st2) ->
               loadSingleNamespace assets L N st
               = (Returned doc,
                  with_heap (<[r := obj_set (namespace_name N) doc (deref st2 r)]>
                               (heap st2)) st2)).
    { intros r st2 Hentry. unfold loadSingleNamespace. rewrite Hcached.
      unfold bind. rewrite loadNamespace_result. fold st0 doc. now rewrite Hentry. }
    assert (Hentry : exists r st2,
               cache_entry L st0 = (Returned r, st2)
               /\ translationCache st2 !! L = Some r
               /\ r < length (heap st2)
               /\ imports st2 = imports st0
               /\ (forall n, assoc (namespace_name n) (deref st2 r)
                             = match translationCache st !! L with
                               | Some r0 => assoc (namespace_name n) (deref st r0)
                               | None => None
                               end)
               /\ (forall l, l <> L -> translationCache st2 !! l = translationCache st !! l)
               /\ (forall l r1, l <> L -> translationCache st !! l = Some r1 ->
                                r1 <> r /\ heap st2 !! r1 = heap st !! r1)
               /\ well_formed st2).
    { unfold cache_entry. change (translationCache st0) with (translationCache st).
      destruct (translationCache st !! L) as [r0|] eqn:Hc.
      - exists r0, st0. split; [reflexivity|]. split; [exact Hc|].
        split; [exact (Halloc L r0 Hc)|]. split; [reflexivity|].
        split; [reflexivity|]. split; [reflexivity|].
        split; [|split; assumption].
        intros l r1 Hne Hl. split; [|reflexivity].
        intros ->. apply Hne. exact (Hinj l L r0 Hl Hc).
      - exists (length (heap st)),
          (with_cache (<[L := length (heap st)]> (translationCache st))
             (with_heap (heap st ++ [[]]) st0)).
        split; [reflexivity|]. simpl. rewrite length_app. simpl.
        split; [apply lookup_insert_eq|]. split; [lia|]. split; [reflexivity|].
        split.
        { intros n. unfold deref. simpl. rewrite lookup_app_r by lia.
          now rewrite Nat.sub_diag. }
        split; [intros l Hne; now rewrite lookup_insert_ne|].
        split.
        { intros l r1 Hne Hl. specialize (Halloc l r1 Hl). split; [lia|].
          now rewrite lookup_app_l. }
        split.
        + intros l r1. simpl. rewrite length_app. simpl.
          destruct (decide (l = L)) as [->|Hne].
          * rewrite lookup_insert_eq. intros [= <-]. lia.
          * rewrite lookup_insert_ne by auto. intros H. apply Halloc in H. lia.
        + intros l1 l2 r1. simpl.
          destruct (decide (l1 = L)) as [->|H1], (decide (l2 = L)) as [->|H2];
            rewrite ?lookup_insert_eq, ?lookup_insert_ne by auto; auto.
          * intros [= <-] H. apply Halloc in H. lia.
          * intros H [= <-]. apply Halloc in H. lia.
          * apply Hinj. }
    destruct Hentry as (r & st2 & Hce & Hc2 & Hr & Himp & Hold & Hother & Hheap & Hwf2).
    set (st1 := with_heap (<[r := obj_set (namespace_name N) doc (deref st2 r)]>
                             (heap st2)) st2).
    assert (Hderef : deref st1 r = obj_set (namespace_name N) doc (deref st2 r)).
    { unfold deref at 1. subst st1. simpl. now rewrite list_lookup_insert_eq. }
    assert (Hhit : cached_namespace L N st1 = Some doc).
    { apply (cached_namespace_hit L N st1 r doc Hc2).
      - rewrite Hderef. apply assoc_obj_set.
      - apply truthy_loaded_document. }
    exists doc, st1. split; [exact (Hrun r st2 Hce)|]. split; [exact Hhit|].
    split; [unfold loadSingleNamespace; now rewrite Hhit|].
    split; [|split; [|split; [|]]].
    + intros n Hn. unfold cached_namespace.
      change (translationCache st1) with (translationCache st2).
      rewrite Hc2, Hderef, assoc_obj_set_other
        by (intros Heq; apply Hn; now apply namespace_name_inj).
      rewrite Hold. now destruct (translationCache st !! L).
    + intros l n Hl. unfold cached_namespace.
      change (translationCache st1) with (translationCache st2).
      rewrite (Hother l Hl).
      destruct (translationCache st !! l) as [r1|] eqn:Hc1; [|reflexivity].
      destruct (Hheap l r1 Hl Hc1) as [Hne Hsame].
      unfold deref. subst st1. simpl.
      rewrite list_lookup_insert_ne by auto. now rewrite Hsame.
    + intros _. split; [reflexivity|]. subst st1. simpl. now rewrite Himp.
    + destruct Hwf2 as [Halloc2 Hinj2]. split; [|exact Hinj2].
      intros l r1 H. subst st1. simpl. rewrite length_insert. exact (Halloc2 l r1 H).
Qed.

(** X22. A namespace whose asset is missing for the active language is
    served from the default language: on a first load, when the import of
    the namespace fails for the active language and succeeds for the default
    one with a document, [t] resolves a key of that namespace in the
    document of the default language; it returns the text found there, and
    the key itself when there is none or an empty one. *)
Theorem t_falls_back_per_namespace (assets : LocaleCode -> Namespace -> import_result)
  (other_replace : string -> string -> string -> outcome string)
  (n : Namespace) (rest err : string) (fallback : json) (st : Store) :
  translationCache st !! pageLanguage st = None ->
  assets (pageLanguage st) n = Rejects err ->
  assets defaultLanguage n = Resolves fallback -> truthy fallback = true ->
  fst (t assets other_replace (namespace_name n ++ "." ++ rest) None st)
  = Returned (match getNestedTranslation rest fallback with
              | Some text =>
                  if String.eqb text "" then namespace_name n ++ "." ++ rest else text
              | None => namespace_name n ++ "." ++ rest
              end).
Proof.
  intros Hmiss Hfail Hdefault Htruthy. unfold t.
  rewrite loadLocaleFile_unfold. unfold cache_hit. rewrite Hmiss.
  rewrite deref_after_load, lookup_in_namespace, full_set_lookup.
  unfold loaded_document, default_document. rewrite Hfail, Hdefault.
  unfold module_or_default. rewrite Htruthy.
  destruct (getNestedTranslation rest fallback) as [text|]; [|reflexivity].
  now destruct (String.eqb text "").
Qed.

(** *** The page after [translatePage] *)

Lemma detectLanguage_preferred (w : Browser) :
  detectLanguage w
  = preferred w (first_supported (drop 2 (candidates w))).
Proof.
  unfold preferred.
  destruct (valid_locale (params_get "lang" (location_search w))) as [l|] eqn:Hurl.
  { now apply detectLanguage_url. }
  destruct (storage_denied w) eqn:Hd; [now apply detectLanguage_denied|].
  rewrite detectLanguage_readable by exact Hd. unfold candidates.
  rewrite valid_locale_includes in Hurl. cbn [first_supported].
  destruct (params_get "lang" (location_search w)) as [u|]; [rewrite Hurl|].
  - rewrite valid_locale_includes.
    destruct (localStorage w !! STORAGE_KEY) as [v|]; [|reflexivity].
    now destruct (includes v).
  - rewrite valid_locale_includes.
    destruct (localStorage w !! STORAGE_KEY) as [v|]; [|reflexivity].
    now destruct (includes v).
Qed.

Lemma detectLanguage_html_lang (l : LocaleCode) (w : Browser) :
  detectLanguage (with_html_lang (Some (locale_code l)) w)
  = preferred w (l, src_html).
Proof.
  rewrite detectLanguage_preferred. unfold preferred.
  cbn [location_search localStorage storage_denied with_html_lang].
  destruct (valid_locale (params_get "lang" (location_search w))); [reflexivity|].
  destruct (storage_denied w); [reflexivity|].
  destruct (valid_locale (localStorage w !! STORAGE_KEY)); [reflexivity|].
  destruct l; reflexivity.
Qed.

Section TranslationFacts.

Variable assets : LocaleCode -> Namespace -> import_result.
Variable evaluated : string -> string -> string -> outcome string.

Lemma loaded_store_language (st : Store) :
  pageLanguage (loaded_store assets st) = pageLanguage st
  /\ languageSource (loaded_store assets st) = languageSource st.
Proof.
  unfold loaded_store. rewrite loadLocaleFile_unfold.
  destruct (cache_hit true (pageLanguage st) st); split; reflexivity.
Qed.

Lemma translatePage_unfold (s : Site) :
  translatePage assets evaluated s
  = {| store := loaded_store assets (store s);
       window := with_html_lang (Some (locale_code (pageLanguage (store s)))) (window s);
       text_elements :=
         map (translate_text evaluated (loaded_set assets (store s))) (text_elements s);
       placeholder_elements :=
         map (translate_placeholder (loaded_set assets (store s))) (placeholder_elements s);
       content_elements :=
         map (translate_content (loaded_set assets (store s))) (content_elements s);
       language_selectors :=
         updateLanguageSelectors (pageLanguage (store s)) (language_selectors s) |}.
Proof.
  destruct (loaded_store_language (store s)) as [Hl _]. revert Hl.
  unfold translatePage, loaded_set, loaded_store.
  rewrite loadLocaleFile_unfold.
  destruct (cache_hit true (pageLanguage (store s)) (store s)); cbn [fst snd];
    intros _; reflexivity.
Qed.

Lemma translatePage_info (s : Site) :
  getLanguageInfo (store (translatePage assets evaluated s)) = getLanguageInfo (store s).
Proof.
  rewrite translatePage_unfold. cbn [store]. unfold getLanguageInfo.
  now destruct (loaded_store_language (store s)) as [-> ->].
Qed.

Lemma translatePage_detect (s : Site) :
  detectLanguage (window (translatePage assets evaluated s))
  = preferred (window s) (pageLanguage (store s), src_html).
Proof. rewrite translatePage_unfold. cbn [window]. apply detectLanguage_html_lang. Qed.

Lemma redetectLanguage_returned (s : Site) (detected : LocaleCode * LanguageSource) :
  detectLanguage (window s) = Returned detected ->
  redetectLanguage assets evaluated s
  = (Returned tt,
     translatePage assets evaluated
       (with_store (set_language (fst detected) (snd detected) (store s)) s))
  /\ getLanguageInfo (store (snd (redetectLanguage assets evaluated s))) = detected
  /\ detectLanguage (window (snd (redetectLanguage assets evaluated s)))
     = preferred (window s) (fst detected, src_html).
Proof.
  intros Hd. unfold redetectLanguage. rewrite Hd. split; [reflexivity|]. cbn [snd].
  split.
  - rewrite translatePage_info. now destruct detected.
  - now rewrite translatePage_detect.
Qed.

(** The site [changeLanguage] hands to [translatePage], or is left with
    when the preference cannot be saved. *)
Lemma changeLanguage_unfold (l : LocaleCode) (updateUrl savePreference : bool) (s : Site) :
  changeLanguage assets evaluated (locale_code l) updateUrl savePreference s
  = let s2 :=
      {| store := set_language l src_manual (store s);
         window := (if updateUrl then updateUrlLanguage l else fun w => w) (window s);
         text_elements := text_elements s;
         placeholder_elements := placeholder_elements s;
         content_elements := content_elements s;
         language_selectors := language_selectors s |} in
    if savePreference && storage_denied (window s) then (Thrown "SecurityError", s2)
    else
      (Returned tt,
       translatePage assets evaluated
         (with_window
            ((if savePreference
              then with_storage (<[STORAGE_KEY := locale_code l]> (localStorage (window s2)))
              else fun w => w) (window s2))
            s2)).
Proof.
  unfold changeLanguage, saveLanguagePreference, setItem. rewrite includes_code.
  destruct updateUrl, savePreference; cbn [andb];
    cbn [window with_window with_store storage_denied updateUrlLanguage with_search];
    destruct (storage_denied (window s)); destruct s; reflexivity.
Qed.

(** The load of a language that is cached leaves the store alone. *)
Lemma loaded_store_twice (st : Store) :
  loaded_store assets (loaded_store assets st) = loaded_store assets st
  /\ loaded_set assets (loaded_store assets st) = loaded_set assets st.
Proof.
  destruct (loaded_store_language st) as [Hl _].
  assert (Hhit : exists r,
             loadLocaleFile assets (pageLanguage st) true st
             = (Returned r, loaded_store assets st)
             /\ translationCache (loaded_store assets st) !! pageLanguage st = Some r).
  { unfold loaded_store. rewrite loadLocaleFile_unfold. unfold cache_hit.
    destruct (translationCache st !! pageLanguage st) as [r|] eqn:Hc.
    - exists r. now split.
    - eexists. split; [reflexivity|]. unfold after_load. cbn. apply lookup_insert_eq. }
  destruct Hhit as (r & Hload & Hc).
  assert (Hagain : loadLocaleFile assets (pageLanguage (loaded_store assets st)) true
                     (loaded_store assets st)
                   = (Returned r, loaded_store assets st)).
  { rewrite Hl, loadLocaleFile_unfold. unfold cache_hit. now rewrite Hc. }
  split.
  - unfold loaded_store at 1. now rewrite Hagain.
  - unfold loaded_set. rewrite Hagain, Hload. cbn [fst].
    unfold loaded_store at 1. now rewrite Hagain.
Qed.

(** X4. After [translatePage], the document declares the active language,
    so that a detection that follows answers that language, from the
    document, unless the URL or the stored preference names a supported
    one, or the storage is reached and cannot be read: the browser language
    and the default are never reached again. [redetectLanguage] is rejected
    and changes nothing when the detection throws; when it does not,
    [redetectLanguage] run twice settles on the language of the first run,
    and the source it reports the second time is [url], [localStorage] or
    [html]. *)
Theorem translatePage_declares_language (s : Site) :
  html_lang (window (translatePage assets evaluated s))
  = Some (locale_code (pageLanguage (store s)))
  /\ getLanguageInfo (store (translatePage assets evaluated s)) = getLanguageInfo (store s)
  /\ detectLanguage (window (translatePage assets evaluated s))
     = preferred (window s) (pageLanguage (store s), src_html)
  /\ (forall err,
        detectLanguage (window s) = Thrown err ->
        redetectLanguage assets evaluated s = (Thrown err, s))
  /\ (forall detected,
        detectLanguage (window s) = Returned detected ->
        fst (redetectLanguage assets evaluated s) = Returned tt
        /\ getLanguageInfo (store (snd (redetectLanguage assets evaluated s))) = detected
        /\ fst (redetectLanguage assets evaluated
                  (snd (redetectLanguage assets evaluated s))) = Returned tt
        /\ pageLanguage
             (store (snd (redetectLanguage assets evaluated
                            (snd (redetectLanguage assets evaluated s)))))
           = fst detected
        /\ In (languageSource
                 (store (snd (redetectLanguage assets evaluated
                                (snd (redetectLanguage assets evaluated s))))))
             [src_url; src_localStorage; src_html]).
Proof.
  split; [rewrite translatePage_unfold; reflexivity|].
  split; [apply translatePage_info|]. split; [apply translatePage_detect|].
  split; [intros err He; unfold redetectLanguage; now rewrite He|].
  intros detected Hd.
  destruct (redetectLanguage_returned s detected Hd) as (H1 & Hinfo1 & Hwin).
  split; [now rewrite H1|]. split; [exact Hinfo1|].
  rewrite detectLanguage_preferred in Hd. unfold preferred in Hd, Hwin.
  assert (Hsecond : exists source,
             detectLanguage (window (snd (redetectLanguage assets evaluated s)))
             = Returned (fst detected, source)
             /\ In source [src_url; src_localStorage; src_html]).
  { rewrite Hwin.
    destruct (valid_locale (params_get "lang" (location_search (window s)))).
    - injection Hd as <-. exists src_url. split; [reflexivity|now left].
    - destruct (storage_denied (window s)); [discriminate|].
      destruct (valid_locale (localStorage (window s) !! STORAGE_KEY)).
      + injection Hd as <-. exists src_localStorage. split; [reflexivity|right; now left].
      + exists src_html. split; [reflexivity|right; right; now left]. }
  destruct Hsecond as (source & H2 & Hsource).
  destruct (redetectLanguage_returned _ _ H2) as (H3 & Hinfo2 & _).
  split; [now rewrite H3|]. unfold getLanguageInfo in Hinfo2.
  injection Hinfo2 as -> ->. split; [reflexivity|exact Hsource].
Qed.

(** X5. [changeLanguage] with a string that is no supported language
    changes nothing: so it is with "fr" and "nl", which the selector of
    [main.ts] may hand in. With a supported language [l] it makes [l] the
    active language with the source [manual] and writes it to the URL when
    asked to. When it is asked to save the preference and the storage
    cannot be reached, it is rejected there: the document, its elements and
    the cache are as they were. In every other case it returns, declares
    [l] on the document, writes it to the storage when asked to and leaves
    the storage alone when not, and leaves the document set of [l] in the
    cache. *)
Theorem changeLanguage_effect (updateUrl savePreference : bool) (s : Site) :
  (forall newLanguage,
      includes newLanguage = None ->
      changeLanguage assets evaluated newLanguage updateUrl savePreference s
      = (Returned tt, s))
  /\ changeLanguage assets evaluated "fr" updateUrl savePreference s = (Returned tt, s)
  /\ changeLanguage assets evaluated "nl" updateUrl savePreference s = (Returned tt, s)
  /\ (forall l,
        let result :=
          changeLanguage assets evaluated (locale_code l) updateUrl savePreference s in
        getLanguageInfo (store (snd result)) = (l, src_manual)
        /\ location_search (window (snd result))
           = (if updateUrl
              then params_set "lang" (locale_code l) (location_search (window s))
              else location_search (window s))
        /\ (savePreference = true -> storage_denied (window s) = true ->
            fst result = Thrown "SecurityError"
            /\ html_lang (window (snd result)) = html_lang (window s)
            /\ localStorage (window (snd result)) = localStorage (window s)
            /\ translationCache (store (snd result)) = translationCache (store s)
            /\ imports (store (snd result)) = imports (store s)
            /\ text_elements (snd result) = text_elements s
            /\ placeholder_elements (snd result) = placeholder_elements s
            /\ content_elements (snd result) = content_elements s
            /\ language_selectors (snd result) = language_selectors s)
        /\ (savePreference = false \/ storage_denied (window s) = false ->
            fst result = Returned tt
            /\ html_lang (window (snd result)) = Some (locale_code l)
            /\ localStorage (window (snd result))
               = (if savePreference
                  then <[STORAGE_KEY := locale_code l]> (localStorage (window s))
                  else localStorage (window s))
            /\ exists r,
                 translationCache (store (snd result)) !! l = Some r
                 /\ loadLocaleFile assets l true (store (snd result))
                    = (Returned r, store (snd result)))).
Proof.
  split; [|split; [reflexivity|split; [reflexivity|]]].
  - intros newLanguage Hno. unfold changeLanguage. now rewrite Hno.
  - intros l result. subst result. rewrite changeLanguage_unfold. cbv zeta.
    destruct (savePreference && storage_denied (window s)) eqn:Hrej.
    + apply andb_prop in Hrej as [-> Hd]. cbn [fst snd store window].
      split; [reflexivity|]. split; [now destruct updateUrl|].
      split; [|intros [H|H]; [discriminate|congruence]].
      intros _ _. split; [reflexivity|].
      repeat split; now destruct updateUrl.
    + cbn [fst snd]. rewrite translatePage_unfold. cbn [store window with_window].
      set (st := set_language l src_manual (store s)).
      destruct (loaded_store_language st) as [Hl Hs].
      split; [unfold getLanguageInfo; now rewrite Hl, Hs|].
      split; [destruct updateUrl, savePreference; reflexivity|].
      split.
      { intros -> Hd. rewrite Hd in Hrej. discriminate. }
      intros _. split; [reflexivity|]. split; [reflexivity|].
      split; [destruct updateUrl, savePreference; reflexivity|].
      assert (Hc : exists r, translationCache (loaded_store assets st) !! l = Some r).
      { unfold loaded_store. rewrite loadLocaleFile_unfold. unfold cache_hit.
        change (pageLanguage st) with l.
        destruct (translationCache st !! l) as [r|] eqn:Hc; [now exists r|].
        eexists. unfold after_load. cbn. apply lookup_insert_eq. }
      destruct Hc as [r Hc]. exists r. split; [exact Hc|].
      rewrite loadLocaleFile_unfold. unfold cache_hit. now rewrite Hc.
Qed.

(** X6. After a [changeLanguage] to a supported language [l] that was not
    rejected, a [redetectLanguage] returns and keeps [l] whenever the URL
    was updated, or the storage can be read and the URL names no supported
    language itself while the preference was saved or the storage names
    none either; the source it reports is then no longer [manual] but
    [url], [localStorage] or [html]. *)
Theorem changeLanguage_survives_redetection (l : LocaleCode)
  (updateUrl savePreference : bool) (s : Site) :
  (savePreference = true -> storage_denied (window s) = false) ->
  updateUrl = true
  \/ (storage_denied (window s) = false
      /\ valid_locale (params_get "lang" (location_search (window s))) = None
      /\ (savePreference = true
          \/ valid_locale (localStorage (window s) !! STORAGE_KEY) = None)) ->
  fst (changeLanguage assets evaluated (locale_code l) updateUrl savePreference s)
  = Returned tt
  /\ fst (redetectLanguage assets evaluated
            (snd (changeLanguage assets evaluated (locale_code l)
                    updateUrl savePreference s)))
     = Returned tt
  /\ getLanguageInfo
       (store (snd (redetectLanguage assets evaluated
                      (snd (changeLanguage assets evaluated (locale_code l)
                              updateUrl savePreference s)))))
     = (l, if updateUrl then src_url
           else if savePreference then src_localStorage else src_html).
Proof.
  intros Hsave Hcase. rewrite changeLanguage_unfold. cbv zeta.
  assert (Hrej : savePreference && storage_denied (window s) = false).
  { destruct savePreference; [|reflexivity]. now rewrite Hsave. }
  rewrite Hrej. cbn [fst snd]. split; [reflexivity|].
  match goal with |- context [redetectLanguage assets evaluated ?s1] => set (s1' := s1) end.
  assert (Hdetect : detectLanguage (window s1')
                    = Returned (l, if updateUrl then src_url
                                   else if savePreference then src_localStorage
                                        else src_html)).
  { subst s1'. rewrite translatePage_detect.
    cbn [store window with_window pageLanguage set_language]. unfold preferred.
    destruct updateUrl.
    - destruct savePreference;
        cbn [location_search with_storage updateUrlLanguage with_search];
        now rewrite TabsFacts.params_get_set, valid_locale_code.
    - destruct Hcase as [Hu|(Hd & Hurl & Hcase)]; [discriminate|].
      destruct savePreference.
      + cbn [location_search localStorage storage_denied with_storage].
        now rewrite Hurl, Hd, lookup_insert_eq, valid_locale_code.
      + destruct Hcase as [Hv|Hstore]; [discriminate|]. now rewrite Hurl, Hd, Hstore. }
  destruct (redetectLanguage_returned s1' _ Hdetect) as (Hr & Hinfo & _).
  split; [now rewrite Hr|exact Hinfo].
Qed.

(** *** What [translatePage] writes *)

Lemma apply_entry_skip (variable varName processedText : string) (entry : string * string) :
  (fst entry = varName -> snd entry = "") ->
  apply_entry evaluated variable varName processedText entry = processedText.
Proof.
  intros H. unfold apply_entry.
  destruct (String.eqb_spec (fst entry) varName) as [Hk|_]; [|reflexivity].
  rewrite (H Hk). reflexivity.
Qed.

Lemma processVariables_unchanged (text : string) (element : TextElement) :
  ~ names_data text element -> processVariables evaluated text element = text.
Proof.
  intros Hno. unfold processVariables.
  assert (Hfold : forall variables processedText,
             (forall variable, In variable variables -> In variable (placeholders text)) ->
             fold_left
               (fun processed variable =>
                  fold_left (apply_entry evaluated variable (slice_1_m1 variable))
                    (dataset element) processed)
               variables processedText = processedText).
  { induction variables as [|variable variables IH]; intros processedText Hin;
      [reflexivity|].
    cbn [fold_left]. rewrite IH by (intros v Hv; apply Hin; now right).
    assert (Hentries : forall entries processed,
               (forall entry, In entry entries -> In entry (dataset element)) ->
               fold_left (apply_entry evaluated variable (slice_1_m1 variable))
                 entries processed = processed).
    { induction entries as [|entry entries IHe]; intros processed Hsub; [reflexivity|].
      cbn [fold_left]. rewrite apply_entry_skip.
      - apply IHe. intros e He. apply Hsub. now right.
      - intros Hk. destruct (String.eqb_spec (snd entry) "") as [He|Hne]; [exact He|].
        exfalso. apply Hno. exists variable, (fst entry), (snd entry).
        split; [apply Hin; now left|]. split; [|now split].
        destruct entry. apply Hsub. now left. }
    apply Hentries. auto. }
  destruct (placeholders text) as [|variable variables] eqn:Hp; [reflexivity|].
  apply Hfold. auto.
Qed.

Lemma placeholders_from_plain (cs : list ascii) :
  existsb (Ascii.eqb "{") cs = false \/ existsb (Ascii.eqb "}") cs = false ->
  forall skip, placeholders_from cs skip = [].
Proof.
  assert (Hclose : forall l, existsb (Ascii.eqb "}") l = false -> close_brace l = None).
  { induction l as [|c l IH]; [reflexivity|]. cbn [existsb close_brace].
    intros H. apply orb_false_iff in H as [Hc H]. rewrite Ascii.eqb_sym, Hc.
    rewrite (IH H). now destruct (line_terminator_ahead (c :: l)). }
  induction cs as [|c cs IH]; intros H skip; [reflexivity|].
  cbn [placeholders_from]. cbn [existsb] in H.
  assert (Hrest : existsb (Ascii.eqb "{") cs = false \/ existsb (Ascii.eqb "}") cs = false).
  { destruct H as [H|H]; apply orb_false_iff in H as [_ H]; auto. }
  destruct skip as [|k]; [|now apply IH].
  destruct (Ascii.eqb c "{") eqn:Hc; [|now apply IH].
  destruct H as [H|H].
  - apply orb_false_iff in H as [H _]. rewrite Ascii.eqb_sym in H. congruence.
  - apply orb_false_iff in H as [_ H]. rewrite (Hclose cs H). now apply IH.
Qed.

Lemma updateLanguageSelectors_twice (language : LocaleCode)
  (selectors : list SelectElement) :
  updateLanguageSelectors language (updateLanguageSelectors language selectors)
  = updateLanguageSelectors language selectors.
Proof.
  unfold updateLanguageSelectors. rewrite map_map. apply map_ext. intros selector.
  destruct (String.eqb (select_value selector) (locale_code language)) eqn:Hv.
  - now rewrite Hv.
  - unfold set_select_value. cbn [select_value option_values].
    destruct (existsb (String.eqb (locale_code language)) (option_values selector)) eqn:Hopt.
    + now rewrite String.eqb_refl.
    + now destruct (String.eqb "" (locale_code language)).
Qed.

(** *** One variable *)

Lemma placeholders_from_before (pre rest : list ascii) :
  existsb (Ascii.eqb "{") pre = false ->
  placeholders_from (pre ++ rest)%list 0 = placeholders_from rest 0.
Proof.
  induction pre as [|c pre IH]; intros H; [reflexivity|].
  cbn [existsb] in H. apply orb_false_iff in H as [Hc H].
  cbn [app placeholders_from]. rewrite Ascii.eqb_sym, Hc. now apply IH.
Qed.

Lemma placeholders_from_over (m rest : list ascii) :
  placeholders_from (m ++ rest)%list (length m) = placeholders_from rest 0.
Proof.
  induction m as [|c m IH]; [reflexivity|]. cbn [app length placeholders_from].
  exact IH.
Qed.

Lemma line_terminator_ahead_name (c : ascii) (name post : list ascii) :
  has_line_terminator (c :: name) = false ->
  line_terminator_ahead (c :: name ++ "}"%char :: post)%list = false.
Proof.
  cbn [has_line_terminator line_terminator_ahead].
  destruct ((N_of_ascii c =? 10)%N || (N_of_ascii c =? 13)%N); [discriminate|].
  cbn [orb]. destruct name as [|c1 [|c2 name]]; cbn [app].
  - intros _. destruct post as [|c2 post]; [reflexivity|].
    change (N_of_ascii "}") with 125%N. cbn. now rewrite andb_false_r.
  - intros _. change (N_of_ascii "}") with 125%N. cbn. now rewrite andb_false_r.
  - destruct ((N_of_ascii c =? 226)%N && (N_of_ascii c1 =? 128)%N
              && ((N_of_ascii c2 =? 168)%N || (N_of_ascii c2 =? 169)%N));
      [discriminate|reflexivity].
Qed.

Lemma has_line_terminator_tail (c : ascii) (name : list ascii) :
  has_line_terminator (c :: name) = false -> has_line_terminator name = false.
Proof.
  cbn [has_line_terminator].
  destruct ((N_of_ascii c =? 10)%N || (N_of_ascii c =? 13)%N); [discriminate|].
  destruct name as [|c1 [|c2 name]]; try (intros H; exact H).
  destruct ((N_of_ascii c =? 226)%N && (N_of_ascii c1 =? 128)%N
            && ((N_of_ascii c2 =? 168)%N || (N_of_ascii c2 =? 169)%N));
    [discriminate|]. intros H. exact H.
Qed.

Lemma close_brace_name (name post : list ascii) :
  existsb (Ascii.eqb "}") name = false -> has_line_terminator name = false ->
  close_brace (name ++ "}"%char :: post)%list = Some (name ++ ["}"%char])%list.
Proof.
  induction name as [|c name IH]; intros Hb Hl.
  - reflexivity.
  - cbn [existsb] in Hb. apply orb_false_iff in Hb as [Hc Hb].
    change ((c :: name) ++ "}"%char :: post)%list with (c :: name ++ "}"%char :: post)%list.
    cbn [close_brace]. rewrite Ascii.eqb_sym, Hc.
    rewrite (line_terminator_ahead_name c name post Hl).
    rewrite (IH Hb (has_line_terminator_tail c name Hl)). reflexivity.
Qed.

Lemma placeholders_from_open (name post : list ascii) :
  existsb (Ascii.eqb "}") name = false -> has_line_terminator name = false ->
  placeholders_from ("{"%char :: name ++ "}"%char :: post)%list 0
  = string_of_list_ascii ("{"%char :: name ++ ["}"%char])%list
    :: placeholders_from post 0.
Proof.
  intros Hname Hline. cbn [placeholders_from].
  change (Ascii.eqb "{" "{") with true. cbv iota.
  rewrite (close_brace_name _ _ Hname Hline). f_equal.
  replace (name ++ "}"%char :: post)%list with ((name ++ ["}"%char]) ++ post)%list
    by (now rewrite <- app_assoc).
  apply placeholders_from_over.
Qed.

Lemma is_prefix_app (needle post : list ascii) : is_prefix needle (needle ++ post)%list = true.
Proof.
  induction needle as [|c needle IH]; [reflexivity|]. cbn [app is_prefix].
  now rewrite Ascii.eqb_refl, IH.
Qed.

Lemma replace_first_from_before (needle value pre post before_rev : list ascii) :
  existsb (Ascii.eqb "{") pre = false ->
  replace_first_from ("{"%char :: needle) value before_rev
    (pre ++ ("{"%char :: needle) ++ post)%list
  = (pre ++ expand_replacement value ("{"%char :: needle) (rev before_rev ++ pre) post
       ++ post)%list.
Proof.
  revert before_rev. induction pre as [|c pre IH]; intros before_rev H.
  - cbn [app]. rewrite app_nil_r.
    change ("{"%char :: needle ++ post)%list with (("{"%char :: needle) ++ post)%list.
    destruct (("{"%char :: needle) ++ post)%list as [|x rest] eqn:Hrest; [discriminate|].
    cbn [replace_first_from]. rewrite <- Hrest, is_prefix_app.
    now rewrite drop_app_length.
  - cbn [existsb] in H. apply orb_false_iff in H as [Hc H].
    change ((c :: pre) ++ ("{"%char :: needle) ++ post)%list
      with (c :: pre ++ ("{"%char :: needle) ++ post)%list.
    cbn [replace_first_from is_prefix]. rewrite Hc. cbn [andb].
    rewrite (IH (c :: before_rev) H). cbn [rev]. now rewrite <- app_assoc.
Qed.

Lemma fold_apply_entry (variable name value processed : string)
  (entries : list (string * string)) :
  List.filter (fun entry => String.eqb (fst entry) name) entries = [(name, value)] ->
  value <> "" ->
  fold_left (apply_entry evaluated variable name) entries processed
  = replace_variable evaluated variable value processed.
Proof.
  intros Hone Hvalue.
  assert (Hskip : forall l text,
             List.filter (fun entry => String.eqb (fst entry) name) l = [] ->
             fold_left (apply_entry evaluated variable name) l text = text).
  { induction l as [|e l IH]; intros text Hl; [reflexivity|].
    cbn [List.filter] in Hl. cbn [fold_left].
    destruct (String.eqb_spec (fst e) name) as [Hk|Hk]; [discriminate|].
    rewrite apply_entry_skip by (intros Heq; contradiction). now apply IH. }
  revert processed Hone. induction entries as [|e entries IH]; intros processed Hone;
    [discriminate|].
  cbn [List.filter] in Hone. cbn [fold_left].
  destruct (String.eqb_spec (fst e) name) as [Hk|Hk].
  - injection Hone as -> Hrest. rewrite (Hskip _ _ Hrest).
    unfold apply_entry. cbn [fst snd]. rewrite String.eqb_refl.
    destruct (String.eqb_spec value ""); [contradiction|reflexivity].
  - rewrite apply_entry_skip by (intros Heq; contradiction). now apply IH.
Qed.

(** X9. [processVariables] returns the text as it is when the text has no
    opening or no closing brace, and when none of its variables names a data
    attribute with a value. For a text with the one variable [{name}], no
    line break inside it, and the data attribute [name] with a value whose
    evaluation fails, it returns the text with the variable replaced by the
    value, a value free of [$]. *)
Theorem processVariables_one_variable (element : TextElement) :
  (forall text,
      existsb (Ascii.eqb "{") (list_ascii_of_string text) = false
      \/ existsb (Ascii.eqb "}") (list_ascii_of_string text) = false ->
      processVariables evaluated text element = text)
  /\ (forall text,
        ~ names_data text element -> processVariables evaluated text element = text)
  /\ (forall pre name post value err,
        existsb (Ascii.eqb "{") (list_ascii_of_string pre) = false ->
        existsb (Ascii.eqb "}") (list_ascii_of_string name) = false ->
        has_line_terminator (list_ascii_of_string name) = false ->
        existsb (Ascii.eqb "{") (list_ascii_of_string post) = false ->
        data_named name element = [(name, value)] -> value <> "" ->
        existsb (Ascii.eqb "$") (list_ascii_of_string value) = false ->
        evaluated value ("{" ++ name ++ "}") (pre ++ "{" ++ name ++ "}" ++ post)
        = Thrown err ->
        processVariables evaluated (pre ++ "{" ++ name ++ "}" ++ post) element
        = pre ++ value ++ post).
Proof.
  split; [|split].
  - intros text H. unfold processVariables, placeholders.
    now rewrite (placeholders_from_plain _ H).
  - intros text. apply processVariables_unchanged.
  - intros pre name post value err Hpre Hname Hline Hpost Hdata Hvalue Hplain Hfail.
    assert (Htext : list_ascii_of_string (pre ++ "{" ++ name ++ "}" ++ post)
                    = (list_ascii_of_string pre
                       ++ ("{"%char :: list_ascii_of_string name ++ ["}"%char])
                       ++ list_ascii_of_string post)%list).
    { rewrite !list_ascii_app. cbn [list_ascii_of_string app].
      rewrite <- !app_assoc. reflexivity. }
    assert (Hvars : placeholders (pre ++ "{" ++ name ++ "}" ++ post)
                    = ["{" ++ name ++ "}"]).
    { unfold placeholders. rewrite Htext, placeholders_from_before by exact Hpre.
      replace (("{"%char :: list_ascii_of_string name ++ ["}"%char])
               ++ list_ascii_of_string post)%list
        with ("{"%char :: list_ascii_of_string name
              ++ "}"%char :: list_ascii_of_string post)%list
        by (cbn [app]; now rewrite <- app_assoc).
      rewrite (placeholders_from_open _ _ Hname Hline).
      rewrite (placeholders_from_plain _ (or_introl Hpost)).
      f_equal. apply string_of_list_inj.
      rewrite list_ascii_of_string_of_list_ascii, !list_ascii_app. reflexivity. }
    assert (Hslice : slice_1_m1 ("{" ++ name ++ "}") = name).
    { unfold slice_1_m1. rewrite !list_ascii_app.
      cbn [list_ascii_of_string app tl].
      rewrite removelast_last. apply string_of_list_ascii_of_string. }
    unfold processVariables. rewrite Hvars. cbn [fold_left]. rewrite Hslice.
    rewrite (fold_apply_entry _ name value _ _ Hdata Hvalue).
    unfold replace_variable. rewrite Hfail. unfold replace_first.
    rewrite Htext.
    replace (list_ascii_of_string ("{" ++ name ++ "}"))
      with ("{"%char :: list_ascii_of_string name ++ ["}"%char])%list
      by (now rewrite !list_ascii_app).
    rewrite (replace_first_from_before _ _ _ _ [] Hpre).
    rewrite (expand_plain _ _ _ _ Hplain).
    apply string_of_list_inj. rewrite list_ascii_of_string_of_list_ascii.
    now rewrite !list_ascii_app.
Qed.

(** X7. [translatePage] run a second time changes nothing: the store, the
    document and every element are as the first run left them, and nothing
    is imported. *)
Theorem translatePage_idempotent (s : Site) :
  translatePage assets evaluated (translatePage assets evaluated s)
  = translatePage assets evaluated s
  /\ imports (store (translatePage assets evaluated (translatePage assets evaluated s)))
     = imports (store (translatePage assets evaluated s)).
Proof.
  assert (Heq : translatePage assets evaluated (translatePage assets evaluated s)
                = translatePage assets evaluated s).
  { rewrite (translatePage_unfold (translatePage assets evaluated s)).
    rewrite !translatePage_unfold.
    cbn [store window text_elements placeholder_elements content_elements
         language_selectors].
    destruct (loaded_store_twice (store s)) as [-> ->].
    destruct (loaded_store_language (store s)) as [-> _].
    rewrite updateLanguageSelectors_twice, !map_map. f_equal.
    - apply map_ext. intros element. unfold translate_text.
      destruct (translation (data_i18n element) (loaded_set assets (store s))) eqn:Ht;
        cbn [data_i18n]; now rewrite Ht.
    - apply map_ext. intros element. unfold translate_placeholder.
      destruct (translation (data_i18n_placeholder element)
                  (loaded_set assets (store s))) eqn:Ht;
        [|now rewrite Ht].
      destruct (is_field element) eqn:Hf; cbn [data_i18n_placeholder is_field];
        now rewrite Ht, ?Hf.
    - apply map_ext. intros element. unfold translate_content.
      destruct (translation (data_i18n_content element)
                  (loaded_set assets (store s))) eqn:Ht;
        cbn [data_i18n_content]; now rewrite Ht. }
  split; [exact Heq|now rewrite Heq].
Qed.

(** X8. What [translatePage] does to the elements, [docs] being the
    document set of the active language. An element whose key is empty, or
    resolves to nothing or to the empty string, is left as it is, whichever
    of the three attributes carries the key. A text that resolves is written
    to [innerHTML] as it is when none of its variables names a data
    attribute with a value. A placeholder is written on input and textarea
    elements alone. The keys and the number of the elements of the three
    kinds do not change, and every selector that has an option for the
    active language shows it. *)
Theorem translatePage_elements (s : Site) :
  (forall i element,
      text_elements s !! i = Some element ->
      (data_i18n element = ""
       \/ getNestedTranslation (data_i18n element) (loaded_set assets (store s)) = None
       \/ getNestedTranslation (data_i18n element) (loaded_set assets (store s)) = Some "" ->
       text_elements (translatePage assets evaluated s) !! i = Some element)
      /\ (forall text,
            data_i18n element <> "" -> text <> "" ->
            getNestedTranslation (data_i18n element) (loaded_set assets (store s))
            = Some text ->
            ~ names_data text element ->
            text_elements (translatePage assets evaluated s) !! i
            = Some {| data_i18n := data_i18n element; dataset := dataset element;
                      innerHTML := text |}))
  /\ (forall i element,
        placeholder_elements s !! i = Some element ->
        (is_field element = false
         \/ data_i18n_placeholder element = ""
         \/ getNestedTranslation (data_i18n_placeholder element)
              (loaded_set assets (store s)) = None
         \/ getNestedTranslation (data_i18n_placeholder element)
              (loaded_set assets (store s)) = Some "" ->
         placeholder_elements (translatePage assets evaluated s) !! i = Some element)
        /\ (forall text,
              is_field element = true ->
              data_i18n_placeholder element <> "" -> text <> "" ->
              getNestedTranslation (data_i18n_placeholder element)
                (loaded_set assets (store s)) = Some text ->
              placeholder_elements (translatePage assets evaluated s) !! i
              = Some {| data_i18n_placeholder := data_i18n_placeholder element;
                        is_field := true; placeholder := text |}))
  /\ (forall i element,
        content_elements s !! i = Some element ->
        (data_i18n_content element = ""
         \/ getNestedTranslation (data_i18n_content element)
              (loaded_set assets (store s)) = None
         \/ getNestedTranslation (data_i18n_content element)
              (loaded_set assets (store s)) = Some "" ->
         content_elements (translatePage assets evaluated s) !! i = Some element)
        /\ (forall text,
              data_i18n_content element <> "" -> text <> "" ->
              getNestedTranslation (data_i18n_content element)
                (loaded_set assets (store s)) = Some text ->
              content_elements (translatePage assets evaluated s) !! i
              = Some {| data_i18n_content := data_i18n_content element;
                        content := Some text |}))
  /\ (map data_i18n (text_elements (translatePage assets evaluated s))
      = map data_i18n (text_elements s)
      /\ map dataset (text_elements (translatePage assets evaluated s))
         = map dataset (text_elements s))
  /\ (map data_i18n_placeholder (placeholder_elements (translatePage assets evaluated s))
      = map data_i18n_placeholder (placeholder_elements s)
      /\ map is_field (placeholder_elements (translatePage assets evaluated s))
         = map is_field (placeholder_elements s))
  /\ map data_i18n_content (content_elements (translatePage assets evaluated s))
     = map data_i18n_content (content_elements s)
  /\ map option_values (language_selectors (translatePage assets evaluated s))
     = map option_values (language_selectors s)
  /\ (forall selector,
        In selector (language_selectors (translatePage assets evaluated s)) ->
        In (locale_code (pageLanguage (store s))) (option_values selector) ->
        select_value selector = locale_code (pageLanguage (store s))).
Proof.
  rewrite translatePage_unfold.
  cbn [text_elements placeholder_elements content_elements language_selectors].
  set (docs := loaded_set assets (store s)).
  assert (Hnone : forall key,
             key = "" \/ getNestedTranslation key docs = None
             \/ getNestedTranslation key docs = Some "" ->
             translation key docs = None).
  { intros key H. unfold translation.
    destruct (String.eqb_spec key "") as [_|Hk]; [reflexivity|].
    destruct H as [H|[H|H]]; [contradiction| |]; now rewrite H. }
  assert (Hsome : forall key text,
             key <> "" -> text <> "" -> getNestedTranslation key docs = Some text ->
             translation key docs = Some text).
  { intros key text Hk Ht H. unfold translation. rewrite H.
    destruct (String.eqb_spec key ""); [contradiction|].
    destruct (String.eqb_spec text ""); [contradiction|reflexivity]. }
  split; [|split; [|split; [|split; [|split; [|split; [|split]]]]]].
  - intros i element Hi. rewrite list_lookup_fmap, Hi. cbn [fmap option_fmap option_map].
    unfold translate_text. split.
    + intros H. now rewrite (Hnone _ H).
    + intros text Hk Ht H Hno. rewrite (Hsome _ _ Hk Ht H).
      now rewrite processVariables_unchanged.
  - intros i element Hi. rewrite list_lookup_fmap, Hi. cbn [fmap option_fmap option_map].
    unfold translate_placeholder. split.
    + intros [Hf|H].
      * rewrite Hf. now destruct (translation _ _).
      * now rewrite (Hnone (data_i18n_placeholder element) H).
    + intros text Hf Hk Ht H. now rewrite (Hsome _ _ Hk Ht H), Hf.
  - intros i element Hi. rewrite list_lookup_fmap, Hi. cbn [fmap option_fmap option_map].
    unfold translate_content. split.
    + intros H. now rewrite (Hnone (data_i18n_content element) H).
    + intros text Hk Ht H. now rewrite (Hsome _ _ Hk Ht H).
  - split; rewrite map_map; apply map_ext; intros element; unfold translate_text;
      now destruct (translation _ _).
  - split; rewrite map_map; apply map_ext; intros element; unfold translate_placeholder;
      destruct (translation _ _); try reflexivity;
      destruct (is_field element) eqn:Hf; try reflexivity; now rewrite ?Hf.
  - rewrite map_map. apply map_ext. intros element. unfold translate_content.
    now destruct (translation _ _).
  - unfold updateLanguageSelectors. rewrite map_map. apply map_ext. intros selector.
    now destruct (String.eqb _ _).
  - intros selector Hin Hopt. unfold updateLanguageSelectors in Hin.
    apply in_map_iff in Hin as (selector0 & <- & _).
    destruct (String.eqb_spec (select_value selector0)
                (locale_code (pageLanguage (store s)))) as [Hv|Hv]; [exact Hv|].
    destruct (String.eqb_spec (select_value selector0)
                (locale_code (pageLanguage (store s)))) as [Hv'|_] in Hopt;
      [contradiction|].
    unfold set_select_value in *. cbn [select_value option_values] in *.
    assert (Hex : existsb (String.eqb (locale_code (pageLanguage (store s))))
                    (option_values selector0) = true).
    { apply existsb_exists. exists (locale_code (pageLanguage (store s))).
      split; [exact Hopt|apply String.eqb_refl]. }
    now rewrite Hex.
Qed.

End TranslationFacts.

(** X6 applies to the example page: English chosen by hand and written to
    the URL is what a detection that follows answers, from the URL. *)
Lemma changeLanguage_survives_redetection_witness :
  fst (changeLanguage assets_greeting evaluation_fails "en" true true site_example)
  = Returned tt
  /\ fst (redetectLanguage assets_greeting evaluation_fails
            (snd (changeLanguage assets_greeting evaluation_fails "en" true true
                    site_example)))
     = Returned tt
  /\ getLanguageInfo
       (store (snd (redetectLanguage assets_greeting evaluation_fails
                      (snd (changeLanguage assets_greeting evaluation_fails "en" true true
                              site_example)))))
     = (en, src_url).
Proof.
  apply (changeLanguage_survives_redetection assets_greeting evaluation_fails
           en true true site_example).
  - reflexivity.
  - now left.
Defined.

(** X13 applies to the list of the examples: "items.1" and "items[1]" are
    both "y". *)
Lemma getNestedTranslation_dotted_index_witness :
  getNestedTranslation ("items" ++ "[" ++ "1" ++ "]") doc_items
  = getNestedTranslation ("items" ++ "." ++ "1") doc_items
  /\ getNestedTranslation ("items" ++ "." ++ "1") doc_items
     = match [JStr "x"; JStr "y"; JStr "z"] !! N.to_nat 1 with
       | Some (JStr text) => Some text
       | _ => None
       end.
Proof.
  apply (getNestedTranslation_dotted_index doc_items "items" "1"
           [JStr "x"; JStr "y"; JStr "z"] 1%N);
    try reflexivity.
  discriminate.
Defined.

(** X11 applies to the store of a module just loaded, whose cache is
    empty. *)
Lemma loadSingleNamespace_cached_witness :
  exists doc st1,
    loadSingleNamespace assets_greeting en common store_initial = (Returned doc, st1)
    /\ cached_namespace en common st1 = Some doc
    /\ loadSingleNamespace assets_greeting en common st1 = (Returned doc, st1)
    /\ (forall n, n <> common ->
          cached_namespace en n st1 = cached_namespace en n store_initial)
    /\ (forall l n, l <> en ->
          cached_namespace l n st1 = cached_namespace l n store_initial)
    /\ (cached_namespace en common store_initial = None ->
        doc = loaded_document assets_greeting en common
        /\ imports st1
           = (imports store_initial ++ load_trace assets_greeting en common)%list)
    /\ well_formed st1.
Proof.
  apply (loadSingleNamespace_cached assets_greeting en common store_initial).
  split.
  - intros l r H. cbn in H. rewrite lookup_empty in H. discriminate H.
  - intros l1 l2 r H. cbn in H. rewrite lookup_empty in H. discriminate H.
Defined.

(** X22 applies to a German page whose German assets are missing: the
    greeting is served in English. *)
Lemma t_falls_back_per_namespace_witness :
  fst (t assets_english_only other_replace_id ("common" ++ "." ++ "hello") None
         (set_language de src_url store_initial))
  = Returned "Hello, {name}!".
Proof.
  apply (t_falls_back_per_namespace assets_english_only other_replace_id common
           "hello" "404"
           (JObj [("hello", JStr "Hello, {name}!"); ("numbered", JStr "Hello {0}");
                  ("blank", JStr "")])
           (set_language de src_url store_initial));
    reflexivity.
Defined.

End I18nPageFacts.

(** ** More properties of the tab controller *)

Module TabsContentFacts.
Import JS Tabs TabsSpec TabsContentSpec TabsFacts.
Local Open Scope Z_scope.

(** *** classList, once more *)

Lemma class_remove_twice (c : string) (cl : list string) :
  class_remove c (class_remove c cl) = class_remove c cl.
Proof.
  unfold class_remove. induction cl as [|x cl IH]; simpl; [reflexivity|].
  destruct (negb (String.eqb x c)) eqn:Hx; simpl; [|exact IH].
  rewrite Hx. now rewrite IH.
Qed.

Lemma class_remove_absent (c : string) (cl : list string) :
  class_contains c cl = false -> class_remove c cl = cl.
Proof.
  unfold class_contains, class_remove. induction cl as [|x cl IH]; simpl; [reflexivity|].
  intros H. apply orb_false_iff in H as [Hx H]. rewrite String.eqb_sym, Hx. simpl.
  now rewrite (IH H).
Qed.

Lemma class_add_present (c : string) (cl : list string) :
  class_contains c cl = true -> class_add c cl = cl.
Proof. intros H. unfold class_add. now rewrite H. Qed.

Lemma class_remove_add (c d : string) (cl : list string) :
  c <> d -> class_remove c (class_add d cl) = class_add d (class_remove c cl).
Proof.
  intros Hne. unfold class_add. rewrite class_contains_remove.
  destruct (String.eqb_spec d c) as [->|_]; [contradiction|]. simpl.
  destruct (class_contains d cl); [reflexivity|].
  unfold class_remove. rewrite List.filter_app. simpl.
  destruct (String.eqb_spec d c) as [->|_]; [contradiction|reflexivity].
Qed.

Lemma mark_tab_twice (i j : nat) (tab : TabElement) :
  mark_tab i j (mark_tab i j tab) = mark_tab i j tab.
Proof.
  unfold mark_tab. destruct (Nat.eqb j i); cbn [tab_value tab_classes]; f_equal.
  - set (cl := tab_classes tab).
    set (L := class_remove "text-text-secondary"
                (class_add "bg-primary-bg" (class_add "text-primary"
                   (class_add "active" cl)))).
    assert (Ha : class_contains "active" L = true).
    { subst L. rewrite class_contains_remove, !class_contains_add. reflexivity. }
    assert (Ht : class_contains "text-primary" L = true).
    { subst L. rewrite class_contains_remove, !class_contains_add. reflexivity. }
    assert (Hb : class_contains "bg-primary-bg" L = true).
    { subst L. rewrite class_contains_remove, !class_contains_add. reflexivity. }
    rewrite (class_add_present _ _ Ha), (class_add_present _ _ Ht),
      (class_add_present _ _ Hb).
    subst L. apply class_remove_twice.
  - set (cl := tab_classes tab).
    set (M := class_remove "bg-primary-bg" (class_remove "text-primary"
                 (class_remove "active" cl))).
    assert (HM : class_remove "bg-primary-bg" (class_remove "text-primary"
                    (class_remove "active" M)) = M).
    { assert (Hno : forall c, In c ["active"; "text-primary"; "bg-primary-bg"] ->
                          class_contains c M = false).
      { intros c Hc. subst M. rewrite !class_contains_remove.
        cbn [In] in Hc. destruct Hc as [<-|[<-|[<-|[]]]]; cbn;
          now rewrite ?andb_false_r. }
      rewrite (class_remove_absent "active") by (apply Hno; cbn; tauto).
      rewrite (class_remove_absent "text-primary") by (apply Hno; cbn; tauto).
      apply class_remove_absent, Hno. cbn. tauto. }
    rewrite !class_remove_add by discriminate. rewrite HM.
    apply class_add_present. rewrite class_contains_add. reflexivity.
Qed.

Section ContentFacts.

Variable config : TabConfig.

(** *** The blocks a switch hides at once *)

Lemma positions_spec (f : ContentElement -> bool) (cs : list ContentElement) (k i : nat) :
  In i (positions f k cs)
  <-> (k <= i)%nat /\ exists c, cs !! (i - k)%nat = Some c /\ f c = true.
Proof.
  revert k. induction cs as [|c cs IH]; intros k.
  - simpl. split; [tauto|]. intros (_ & c & H & _). discriminate H.
  - cbn [positions]. destruct (f c) eqn:Hc.
    + cbn [In]. rewrite IH. split.
      * intros [<-|(Hk & c1 & H1 & Hf1)].
        -- split; [lia|]. exists c. rewrite Nat.sub_diag. now split.
        -- split; [lia|]. exists c1. split; [|exact Hf1].
           replace (i - k)%nat with (S (i - S k)) by lia. exact H1.
      * intros (Hk & c1 & H1 & Hf1).
        destruct (decide (i = k)) as [->|Hne]; [now left|right].
        split; [lia|]. exists c1. split; [|exact Hf1].
        replace (i - k)%nat with (S (i - S k)) in H1 by lia. exact H1.
    + rewrite IH. split.
      * intros (Hk & c1 & H1 & Hf1). split; [lia|]. exists c1. split; [|exact Hf1].
        replace (i - k)%nat with (S (i - S k)) by lia. exact H1.
      * intros (Hk & c1 & H1 & Hf1).
        destruct (decide (i = k)) as [->|Hne].
        -- rewrite Nat.sub_diag in H1. injection H1 as <-. congruence.
        -- split; [lia|]. exists c1. split; [|exact Hf1].
           replace (i - k)%nat with (S (i - S k)) in H1 by lia. exact H1.
Qed.

Lemma hide_items_now (items : list nat) (index : nat) (p : Page) :
  timers (hide_items false index items p) = timers p
  /\ now (hide_items false index items p) = now p
  /\ next_handle (hide_items false index items p) = next_handle p
  /\ next_stamp (hide_items false index items p) = next_stamp p
  /\ forall item c,
       NoDup items -> In item items -> contents p !! item = Some c ->
       contents (hide_items false index items p) !! item = Some (hide_now c).
Proof.
  revert index p. induction items as [|x rest IH]; intros index p.
  - repeat split. intros item c _ [].
  - cbn [hide_items]. destruct (IH (S index) (hide_item false index x p))
      as (Ht & Hn & Hh & Hs & Hc).
    rewrite Ht, Hn, Hh, Hs. repeat split.
    intros item c Hnd Hin Hitem. apply NoDup_cons in Hnd as [Hx Hnd].
    destruct Hin as [->|Hin].
    + rewrite contents_hide_items_other
        by (intros H; apply Hx; now apply list_elem_of_In).
      unfold hide_item. cbn. now rewrite list_lookup_alter_eq, Hitem.
    + apply Hc; [exact Hnd|exact Hin|].
      assert (Hne : x <> item).
      { intros ->. apply Hx. now apply list_elem_of_In. }
      unfold hide_item. cbn. now rewrite list_lookup_alter_ne.
Qed.

(** X14. The URL [updateURL] writes reads back as the value written: the
    parameter is absent for the default value and holds the value
    otherwise, so that a page opened with this URL activates that value
    (the default one for the empty value). The other parameters are kept,
    and one entry is pushed on the history. *)
Theorem updateURL_read_back (tabValue : string) (p : Page) :
  url_or_default config (updateURL config tabValue p)
  = (if String.eqb tabValue "" then defaultTab config else tabValue)
  /\ (forall name, name <> queryParam config ->
        params_get name (search (updateURL config tabValue p))
        = params_get name (search p))
  /\ pushed (updateURL config tabValue p)
     = search (updateURL config tabValue p) :: pushed p
  /\ (forall q,
        tabs q <> [] -> contents q <> [] ->
        search q = search (updateURL config tabValue p) ->
        activations (initTabs config q)
        = ((if String.eqb tabValue "" then defaultTab config else tabValue), false)
          :: activations q).
Proof.
  assert (Hread : url_or_default config (updateURL config tabValue p)
                  = (if String.eqb tabValue "" then defaultTab config else tabValue)).
  { unfold url_or_default. rewrite search_updateURL.
    destruct (String.eqb_spec tabValue (defaultTab config)) as [->|Hne].
    - now destruct (String.eqb (defaultTab config) "").
    - reflexivity. }
  split; [exact Hread|]. split; [|split].
  - intros name Hne. unfold updateURL.
    destruct (String.eqb tabValue (defaultTab config)); cbn [search set_location].
    + now apply I18nPageFacts.params_get_delete_other.
    + now apply I18nPageFacts.params_get_set_other.
  - unfold updateURL. destruct (String.eqb tabValue (defaultTab config)); reflexivity.
  - intros q Ht Hc Hq.
    destruct (initTabs_activation config q Ht Hc) as (Hact & _).
    rewrite Hact. f_equal. f_equal. rewrite <- Hread.
    unfold url_or_default. now rewrite Hq.
Qed.

(** X15. [updateActiveTab] run twice for the same trigger is the same as
    run once. It keeps the number of the triggers and their values, and on
    every trigger every class other than the four it manages; afterwards a
    trigger carries [text-text-secondary] exactly when it is not the one
    made active. Nothing but the triggers changes. *)
Theorem updateActiveTab_idempotent (activeTab : nat) (p : Page) :
  updateActiveTab activeTab (updateActiveTab activeTab p) = updateActiveTab activeTab p
  /\ map tab_value (tabs (updateActiveTab activeTab p)) = map tab_value (tabs p)
  /\ (forall j tab,
        tabs p !! j = Some tab ->
        exists marked,
          tabs (updateActiveTab activeTab p) !! j = Some marked
          /\ (forall c, ~ In c managed_classes ->
                class_contains c (tab_classes marked) = class_contains c (tab_classes tab))
          /\ class_contains "text-text-secondary" (tab_classes marked)
             = negb (Nat.eqb j activeTab))
  /\ set_tabs (tabs p) (updateActiveTab activeTab p) = p.
Proof.
  split; [|split; [|split]].
  - assert (Himap : imap (mark_tab activeTab) (imap (mark_tab activeTab) (tabs p))
                    = imap (mark_tab activeTab) (tabs p)).
    { apply list_eq. intros j. rewrite !list_lookup_imap.
      destruct (tabs p !! j) as [tab|]; cbn; [|reflexivity].
      now rewrite mark_tab_twice. }
    unfold updateActiveTab, set_tabs. cbn. now rewrite Himap.
  - unfold updateActiveTab. cbn [tabs set_tabs].
    apply list_eq. intros j. rewrite !list_lookup_fmap, list_lookup_imap.
    destruct (tabs p !! j) as [tab|]; cbn; [|reflexivity].
    now rewrite mark_tab_value.
  - intros j tab Hj. exists (mark_tab activeTab j tab).
    unfold updateActiveTab. cbn [tabs set_tabs]. rewrite list_lookup_imap, Hj.
    split; [reflexivity|]. unfold mark_tab.
    destruct (Nat.eqb j activeTab); cbn [tab_classes negb]; split.
    + intros c Hc. rewrite class_contains_remove, !class_contains_add.
      unfold managed_classes in Hc. cbn [In] in Hc.
      destruct (String.eqb_spec c "text-text-secondary") as [->|_]; [tauto|].
      destruct (String.eqb_spec c "bg-primary-bg") as [->|_]; [tauto|].
      destruct (String.eqb_spec c "text-primary") as [->|_]; [tauto|].
      destruct (String.eqb_spec c "active") as [->|_]; [tauto|reflexivity].
    + rewrite class_contains_remove. reflexivity.
    + intros c Hc. rewrite class_contains_add, !class_contains_remove.
      unfold managed_classes in Hc. cbn [In] in Hc.
      destruct (String.eqb_spec c "text-text-secondary") as [->|_]; [tauto|].
      destruct (String.eqb_spec c "bg-primary-bg") as [->|_]; [tauto|].
      destruct (String.eqb_spec c "text-primary") as [->|_]; [tauto|].
      destruct (String.eqb_spec c "active") as [->|_]; [tauto|reflexivity].
    + rewrite class_contains_add. reflexivity.
  - now destruct p.
Qed.

(** X16. A switch without animation, as on the load of the page, hides
    at once every block that is not to be shown: it is out of the layout and
    not faded in when [switchContent] returns. The blocks to show are left
    as they are until the one timer the call arms, due at once, shows
    them. *)
Theorem switchContent_at_once (tabValue : string) (p : Page) :
  (forall i c,
      contents p !! i = Some c -> shouldShow config tabValue c = false ->
      exists c1,
        contents (switchContent config tabValue false p) !! i = Some c1
        /\ hidden c1 /\ content_value c1 = content_value c)
  /\ (forall i c,
        contents p !! i = Some c -> shouldShow config tabValue c = true ->
        contents (switchContent config tabValue false p) !! i = Some c)
  /\ exists tm,
       timers (switchContent config tabValue false p) = (timers p ++ [tm])%list
       /\ task tm = ShowItems (itemsToShow config tabValue p)
       /\ due tm = now p /\ repeat_ tm = false.
Proof.
  destruct (contents_switchContent config tabValue false p)
    as (p1 & Hc1 & Hn1 & Hcontents & _).
  destruct (hide_items_now (itemsToHide config tabValue p) 0 p1)
    as (Ht & Hn & Hh & Hs & Hhide).
  split; [|split].
  - intros i c Hi Hshow. exists (hide_now c). rewrite Hcontents.
    split; [|split; [split|]]; try reflexivity.
    + apply Hhide; [apply positions_NoDup| |now rewrite Hc1].
      unfold itemsToHide. apply positions_spec. split; [lia|].
      exists c. rewrite Nat.sub_0_r. split; [exact Hi|]. now rewrite Hshow.
    + unfold hide_now. cbn [content_classes]. rewrite class_contains_remove. reflexivity.
  - intros i c Hi Hshow. rewrite Hcontents, contents_hide_items_other.
    + now rewrite Hc1.
    + unfold itemsToHide. rewrite positions_spec. intros (_ & c0 & H0 & Hf).
      rewrite Nat.sub_0_r, Hi in H0. injection H0 as <-. now rewrite Hshow in Hf.
  - unfold switchContent.
    set (q := match itemsToHide config tabValue p with
              | [] => p
              | _ :: _ =>
                  if negb (showAll config)
                  then pin_wrapper (hidingContentHeight (itemsToHide config tabValue p) p) p
                  else p
              end).
    assert (Hq : timers q = timers p /\ now q = now p).
    { subst q. destruct (itemsToHide config tabValue p); [now split|].
      destruct (negb (showAll config)); [|now split].
      unfold pin_wrapper. destruct (wrapper p); [|now split].
      destruct (0 <? _); now split. }
    destruct Hq as [Htq Hnq].
    destruct (hide_items_now (itemsToHide config tabValue p) 0 q)
      as (Ht2 & Hn2 & _).
    eexists. unfold setTimeout, arm. cbn [snd timers record_activation].
    rewrite Ht2, Htq. split; [reflexivity|]. cbn [task due repeat_ now record_activation].
    rewrite Hn2, Hnq. repeat split. unfold hideCompleteDelay. lia.
Qed.

(** *** The elements and the index of the rotation *)

Lemma same_elements_refl (p : Page) : same_elements p p.
Proof. now split. Qed.

Lemma same_elements_trans (p q r : Page) :
  same_elements p q -> same_elements q r -> same_elements p r.
Proof. intros [? ?] [? ?]. split; congruence. Qed.

Lemma values_alter (f : ContentElement -> ContentElement) (i : nat)
  (cs : list ContentElement) :
  (forall c, content_value (f c) = content_value c) ->
  map content_value (alter f i cs) = map content_value cs.
Proof.
  intros Hf. apply list_eq. intros j. rewrite !list_lookup_fmap.
  destruct (decide (i = j)) as [->|Hne].
  - rewrite list_lookup_alter_eq. destruct (cs !! j); cbn; [now rewrite Hf|reflexivity].
  - now rewrite list_lookup_alter_ne.
Qed.

Lemma values_mark (i : nat) (ts : list TabElement) :
  map tab_value (imap (mark_tab i) ts) = map tab_value ts.
Proof.
  apply list_eq. intros j. rewrite !list_lookup_fmap, list_lookup_imap.
  destruct (ts !! j); cbn; [now rewrite mark_tab_value|reflexivity].
Qed.

Lemma values_hide_items (animate : bool) (items : list nat) (index : nat) (p : Page) :
  map content_value (contents (hide_items animate index items p))
  = map content_value (contents p).
Proof.
  revert index p. induction items as [|item rest IH]; intros index p; [reflexivity|].
  cbn [hide_items]. rewrite IH. unfold hide_item.
  destruct animate; cbn; now apply values_alter.
Qed.

Lemma elements_switchContent (tabValue : string) (animate : bool) (p : Page) :
  same_elements p (switchContent config tabValue animate p).
Proof.
  split; [now rewrite tabs_switchContent|].
  destruct (contents_switchContent config tabValue animate p) as (p1 & Hc1 & _ & -> & _).
  now rewrite values_hide_items, Hc1.
Qed.

Lemma values_show_items (items : list nat) (index : nat) (p : Page) :
  map content_value (contents (show_items config index items p))
  = map content_value (contents p).
Proof.
  revert index p. induction items as [|item rest IH]; intros index p; [reflexivity|].
  cbn [show_items]. rewrite IH. unfold show_item. cbn. now apply values_alter.
Qed.

Lemma values_make_visible (l : list nat) (q : Page) :
  map content_value
    (contents
       (fold_left (fun q0 item => set_contents (alter make_visible item (contents q0)) q0)
          l q))
  = map content_value (contents q).
Proof.
  revert q. induction l as [|item l IH]; intros q; [reflexivity|].
  cbn [fold_left]. rewrite IH. cbn. now apply values_alter.
Qed.

Lemma elements_run_task (tk : Task) (p : Page) :
  tk <> RotationTick -> same_elements p (run_task config tk p).
Proof.
  intros Htk. destruct tk as [item|items| | | |]; cbn [run_task].
  - split; [reflexivity|]. cbn. now apply values_alter.
  - destruct (extends_frame _ _ (extends_show_phase config items p)) as (Ht & _).
    split; [now rewrite Ht|]. rewrite contents_show_phase. apply values_show_items.
  - unfold measure_wrapper, pin_wrapper. destruct (wrapper p); [|apply same_elements_refl].
    destruct (0 <? _); split; reflexivity.
  - unfold release_wrapper. destruct (wrapper p); split; reflexivity.
  - unfold startAutoRotation. destruct (autoRotateInterval_id p); split; reflexivity.
  - contradiction.
Qed.

Lemma index_run_task (tk : Task) (p : Page) :
  tk <> RotationTick -> currentTabIndex (run_task config tk p) = currentTabIndex p.
Proof.
  intros Htk. destruct tk as [item|items| | | |]; try contradiction.
  1-4: match goal with |- currentTabIndex (run_task config ?tk ?p0) = _ =>
         now destruct (extends_frame _ _ (extends_run_task config tk p0
                         ltac:(discriminate) ltac:(discriminate)))
           as (_ & _ & _ & -> & _) end.
  cbn [run_task]. unfold startAutoRotation. now destruct (autoRotateInterval_id p).
Qed.

Lemma elements_activate (p : Page) (i k : nat) (v : string) (animate : bool) :
  same_elements p
    (switchContent config v animate
       (updateURL config v (updateActiveTab i (set_currentTabIndex k p))))
  /\ currentTabIndex
       (switchContent config v animate
          (updateURL config v (updateActiveTab i (set_currentTabIndex k p)))) = k.
Proof.
  split.
  - eapply same_elements_trans; [|apply elements_switchContent].
    unfold updateURL. destruct (String.eqb v (defaultTab config)); split;
      try reflexivity; apply values_mark.
  - destruct (extends_frame _ _
      (extends_switchContent config v animate
         (updateURL config v (updateActiveTab i (set_currentTabIndex k p)))))
      as (_ & _ & _ & -> & _).
    unfold updateURL. now destruct (String.eqb v (defaultTab config)).
Qed.

Lemma elements_rotate (p : Page) :
  same_elements p (rotate config p)
  /\ currentTabIndex (rotate config p)
     = Nat.modulo (currentTabIndex p + 1) (length (tabs p)).
Proof.
  unfold rotate.
  set (k := Nat.modulo (currentTabIndex p + 1) (length (tabs p))).
  change (currentTabIndex (set_currentTabIndex k p)) with k.
  destruct (tabs (set_currentTabIndex k p) !! k) as [nextTab|];
    [|split; [split|]; reflexivity].
  destruct (truthy_value (tab_value nextTab));
    [|split; [split|]; reflexivity].
  apply elements_activate.
Qed.

Lemma elements_click (i : nat) (p : Page) :
  same_elements p (click config i p)
  /\ (currentTabIndex (click config i p) = currentTabIndex p
      \/ (currentTabIndex (click config i p) = i /\ (i < length (tabs p))%nat)).
Proof.
  destruct (tabs p !! i) as [tab|] eqn:Hi;
    [|unfold click; rewrite Hi; split; [apply same_elements_refl|now left]].
  destruct (truthy_value (tab_value tab)) as [v|] eqn:Hv;
    [|unfold click; rewrite Hi, Hv; split; [apply same_elements_refl|now left]].
  rewrite (click_shape config i p tab v Hi Hv).
  destruct (elements_activate (cleared p) i i v true) as [He Hk].
  assert (Hcl : same_elements p (cleared p)).
  { unfold cleared. destruct (autoRotateInterval_id p); split; reflexivity. }
  apply lookup_lt_Some in Hi.
  destruct (autoRotate config).
  - split; [eapply same_elements_trans; [exact Hcl|exact He]|].
    right. split; [exact Hk|exact Hi].
  - split; [eapply same_elements_trans; [exact Hcl|exact He]|].
    right. split; [exact Hk|exact Hi].
Qed.

Lemma elements_popstate (restored : list (string * string)) (p : Page) :
  same_elements p (popstate config restored p)
  /\ (currentTabIndex (popstate config restored p) = currentTabIndex p
      \/ (currentTabIndex (popstate config restored p) < length (tabs p))%nat).
Proof.
  unfold popstate. set (p0 := set_location restored false p).
  destruct (find_tab (url_or_default config p0) 0 (tabs p0)) as [i|] eqn:Hf;
    [|split; [split; reflexivity|now left]].
  apply find_tab_lookup in Hf as (_ & tab & Hi & _). rewrite Nat.sub_0_r in Hi.
  apply lookup_lt_Some in Hi. split; [|right; exact Hi].
  assert (He : same_elements p (switchContent config (url_or_default config p0) true
                                  (updateActiveTab i p0))).
  { eapply same_elements_trans; [|apply elements_switchContent].
    split; [apply values_mark|reflexivity]. }
  exact He.
Qed.

Lemma elements_fire (p : Page) :
  same_elements p (fire config p)
  /\ (currentTabIndex (fire config p) = currentTabIndex p
      \/ currentTabIndex (fire config p)
         = Nat.modulo (currentTabIndex p + 1) (length (tabs p))).
Proof.
  unfold fire. destruct (next_timer (timers p)) as [tm|];
    [|split; [apply same_elements_refl|now left]].
  set (p1 := record_fired tm (set_now (Z.max (now p) (due tm)) p)).
  assert (Hcase : forall q,
             same_elements p q -> currentTabIndex q = currentTabIndex p ->
             tabs q = tabs p ->
             same_elements p (run_task config (task tm) q)
             /\ (currentTabIndex (run_task config (task tm) q) = currentTabIndex p
                 \/ currentTabIndex (run_task config (task tm) q)
                    = Nat.modulo (currentTabIndex p + 1) (length (tabs p)))).
  { intros q Hq Hcur Htabs. destruct (task tm) eqn:Htask.
    1-5: split;
      [eapply same_elements_trans; [exact Hq|apply elements_run_task; discriminate]
      |left; rewrite index_run_task by discriminate; exact Hcur].
    cbn [run_task]. destruct (elements_rotate q) as [He ->].
    split; [eapply same_elements_trans; [exact Hq|exact He]|].
    right. now rewrite Hcur, Htabs. }
  destruct (repeat_ tm).
  - destruct (Hcase p1 (conj eq_refl eq_refl) eq_refl eq_refl) as [He Hc].
    unfold rearm. destruct (existsb _ _); split; assumption.
  - apply Hcase; [split; reflexivity|reflexivity|reflexivity].
Qed.

Lemma elements_step (e : Event) (p : Page) :
  (currentTabIndex p < length (tabs p))%nat ->
  same_elements p (step config e p)
  /\ (currentTabIndex (step config e p) < length (tabs (step config e p)))%nat.
Proof.
  intros Hp.
  assert (Hlen : forall q, same_elements p q -> length (tabs q) = length (tabs p)).
  { intros q [Ht _]. apply (f_equal (@length _)) in Ht. now rewrite !length_map in Ht. }
  destruct e as [i|restored| | |d]; cbn [step].
  - destruct (elements_click i p) as [He Hc]. split; [exact He|].
    rewrite (Hlen _ He). destruct Hc as [->|[-> Hi]]; assumption.
  - destruct (elements_popstate restored p) as [He Hc]. split; [exact He|].
    rewrite (Hlen _ He). destruct Hc as [->|Hi]; assumption.
  - destruct (elements_fire p) as [He Hc]. split; [exact He|].
    rewrite (Hlen _ He). destruct Hc as [->| ->]; [exact Hp|].
    apply Nat.mod_upper_bound. lia.
  - destruct (extends_frame _ _ (extends_animation_frame p)) as (Ht & _ & _ & Hc & _).
    split; [|now rewrite Hc, Ht].
    split; [now rewrite Ht|]. unfold animation_frame. cbn [contents set_frame_requests].
    apply values_make_visible.
  - split; [split; reflexivity|exact Hp].
Qed.

Lemma elements_initTabs (p : Page) :
  same_elements p (initTabs config p)
  /\ (tabs p <> [] -> contents p <> [] ->
      (currentTabIndex (initTabs config p) < length (tabs (initTabs config p)))%nat).
Proof.
  unfold initTabs. destruct (tabs p) as [|tab0 ts] eqn:Htabs;
    [split; [apply same_elements_refl|contradiction]|].
  destruct (contents p) as [|c0 cs] eqn:Hcontents;
    [split; [apply same_elements_refl|contradiction]|].
  set (v := url_or_default config p).
  set (k := match find_tab v 0 (tab0 :: ts) with Some i => i | None => 0%nat end).
  set (p1 := set_autoRotateInterval_id None (set_currentTabIndex k p)).
  assert (Htabs1 : tabs p1 = tab0 :: ts) by exact Htabs. rewrite Htabs1.
  set (p2 := match find_tab v 0 (tab0 :: ts) with
             | Some i => updateActiveTab i p1
             | None => p1
             end).
  assert (H2 : same_elements p p2 /\ currentTabIndex p2 = k).
  { subst p2. destruct (find_tab v 0 (tab0 :: ts)); [|split; [split|]; reflexivity].
    split; [|reflexivity]. split; [apply values_mark|reflexivity]. }
  destruct H2 as [He2 Hk2].
  set (p3 := switchContent config v false p2).
  assert (H3 : same_elements p p3 /\ currentTabIndex p3 = k).
  { split; [eapply same_elements_trans; [exact He2|apply elements_switchContent]|].
    destruct (extends_frame _ _ (extends_switchContent config v false p2))
      as (_ & _ & _ & Hcur & _). fold p3 in Hcur. now rewrite Hcur. }
  destruct H3 as [He3 Hk3].
  assert (H5 : forall q : Page,
             tabs q = tabs p3 -> contents q = contents p3 ->
             currentTabIndex q = currentTabIndex p3 ->
             same_elements p q
             /\ (tab0 :: ts <> [] -> c0 :: cs <> [] ->
                 (currentTabIndex q < length (tabs q))%nat)).
  { intros q Ht Hc Hcur. destruct He3 as [Ht3 Hc3].
    split; [split; congruence|]. intros _ _. rewrite Hcur, Hk3, Ht.
    apply (f_equal (@length _)) in Ht3. rewrite !length_map in Ht3.
    rewrite Ht3, Htabs. subst k.
    destruct (find_tab v 0 (tab0 :: ts)) as [i|] eqn:Hf; [|simpl; lia].
    apply find_tab_lookup in Hf as (_ & tab & Hi & _). rewrite Nat.sub_0_r in Hi.
    now apply lookup_lt_Some in Hi. }
  apply H5; destruct (wrapper p3), (autoRotate config); reflexivity.
Qed.

(** X17. Once [initTabs] has set up a group that has a trigger and a block,
    whatever clicks, navigations, timers and frames follow, the index of the
    rotation names an existing trigger, and so does the index the next tick
    moves to: a tick never reads a trigger that is not there. The
    controller never adds, removes, reorders or renames a trigger or a
    block. *)
Theorem rotation_index_in_bounds (p : Page) (es : list Event) :
  tabs p <> [] -> contents p <> [] ->
  (exists tab, tabs (run config es (initTabs config p))
               !! currentTabIndex (run config es (initTabs config p)) = Some tab)
  /\ (exists tab,
        tabs (run config es (initTabs config p))
        !! Nat.modulo (currentTabIndex (run config es (initTabs config p)) + 1)
             (length (tabs (run config es (initTabs config p)))) = Some tab)
  /\ same_elements p (run config es (initTabs config p)).
Proof.
  intros Ht Hc. destruct (elements_initTabs p) as [He0 Hb0].
  specialize (Hb0 Ht Hc).
  assert (Hrun : forall es0 q,
             same_elements p q -> (currentTabIndex q < length (tabs q))%nat ->
             same_elements p (run config es0 q)
             /\ (currentTabIndex (run config es0 q)
                 < length (tabs (run config es0 q)))%nat).
  { induction es0 as [|e es0 IH]; intros q He Hb; [now split|].
    cbn [run fold_left]. destruct (elements_step e q Hb) as [He1 Hb1].
    apply IH; [eapply same_elements_trans; eassumption|exact Hb1]. }
  destruct (Hrun es _ He0 Hb0) as [He Hb].
  split; [now apply lookup_lt_is_Some_2|]. split; [|exact He].
  apply lookup_lt_is_Some_2, Nat.mod_upper_bound. lia.
Qed.

(** X18. Ticks of the rotation, one after the other with nothing in
    between, take the index round the triggers in the order of declaration:
    after [n] ticks it is [n] places further, counted modulo the number of
    triggers, whether the triggers passed declare a value or not; the
    triggers and the blocks are those that were there. *)
Theorem rotation_goes_round (n : nat) (p : Page) :
  (currentTabIndex p < length (tabs p))%nat ->
  currentTabIndex (Nat.iter n (run_task config RotationTick) p)
  = Nat.modulo (currentTabIndex p + n) (length (tabs p))
  /\ same_elements p (Nat.iter n (run_task config RotationTick) p).
Proof.
  intros Hp. induction n as [|n [IH He]].
  - cbn [Nat.iter]. rewrite Nat.add_0_r, Nat.mod_small by exact Hp.
    split; [reflexivity|apply same_elements_refl].
  - rewrite Nat.iter_succ. cbn [run_task].
    destruct (elements_rotate (Nat.iter n (run_task config RotationTick) p)) as [He1 Hc1].
    split; [|eapply same_elements_trans; eassumption].
    rewrite Hc1, IH.
    assert (Hl : length (tabs (Nat.iter n (run_task config RotationTick) p))
                 = length (tabs p)).
    { destruct He as [Hv _]. apply (f_equal (@length _)) in Hv.
      now rewrite !length_map in Hv. }
    rewrite Hl, Nat.Div0.add_mod_idemp_l. f_equal. lia.
Qed.

(** *** One interval at a time *)

Lemma ticks_without (l : list Timer) :
  (forall tm, In tm l -> task tm <> RotationTick) ->
  List.filter (fun tm => match task tm with RotationTick => true | _ => false end) l = [].
Proof.
  induction l as [|tm l IH]; intros H; [reflexivity|]. cbn [List.filter].
  destruct (task tm) eqn:Ht; try (apply IH; intros x Hx; apply H; now right).
  exfalso. apply (H tm); [now left|exact Ht].
Qed.

Lemma ticks_advances (p q : Page) :
  advances p q ->
  pending_ticks q = pending_ticks p /\ autoRotateInterval_id q = autoRotateInterval_id p.
Proof.
  intros (q0 & (Ht & Hid & _) & cs & w & fr & acts & added & h & s & -> & F & _).
  split; [|exact Hid]. unfold pending_ticks. cbn [timers reshape].
  rewrite List.filter_app, Ht.
  rewrite (ticks_without added); [now rewrite app_nil_r|].
  intros tm Hin. rewrite List.Forall_forall in F. now destruct (F tm Hin).
Qed.

Lemma one_interval_advances (p q : Page) :
  advances p q -> one_interval p -> one_interval q.
Proof.
  intros H Hp. destruct (ticks_advances p q H) as [Ht Hid].
  unfold one_interval in *. now rewrite Hid, Ht.
Qed.

Lemma one_interval_startAutoRotation (p : Page) :
  timers_tracked p -> one_interval (startAutoRotation config p).
Proof.
  intros Hp. destruct (startAutoRotation_shape config p) as (Ht & Hid & _).
  unfold one_interval, pending_ticks. rewrite Hid, Ht, List.filter_app.
  rewrite ticks_without by (intros tm; now apply cleared_no_tick).
  exists (rotation_timer config p). now repeat split.
Qed.

Lemma one_interval_cleared (p : Page) : timers_tracked p -> one_interval (cleared p).
Proof.
  intros Hp. destruct (cleared_shape p) as (Ht & Hid & _).
  unfold one_interval, pending_ticks. rewrite Hid, Ht.
  apply ticks_without. intros tm. now apply cleared_no_tick.
Qed.

Lemma one_interval_run_task (tk : Task) (p : Page) :
  tk <> RotationTick -> timers_tracked p -> one_interval p ->
  one_interval (run_task config tk p).
Proof.
  intros Htk Hp Hone. destruct tk as [item|items| | | |]; try contradiction.
  1-4: eapply one_interval_advances; [|exact Hone];
       apply advances_extends, extends_run_task; discriminate.
  now apply one_interval_startAutoRotation.
Qed.

Lemma ticks_remove_other (s : nat) (l : list Timer) (tm : Timer) :
  List.filter (fun x => match task x with RotationTick => true | _ => false end) l = [tm] ->
  stamp tm <> s ->
  List.filter (fun x => match task x with RotationTick => true | _ => false end)
    (remove_stamp s l) = [tm].
Proof.
  intros Hl Hs. unfold remove_stamp.
  induction l as [|x l IH] in Hl |- *; [discriminate|].
  cbn [List.filter] in *.
  destruct (match task x with RotationTick => true | _ => false end) eqn:Hx.
  - injection Hl as -> Hl.
    destruct (Nat.eqb_spec (stamp tm) s) as [|_]; [contradiction|].
    cbn [negb List.filter]. rewrite Hx. f_equal.
    clear IH Hx. induction l as [|y l IH]; [reflexivity|].
    cbn [List.filter] in *.
    destruct (match task y with RotationTick => true | _ => false end) eqn:Hy;
      [discriminate|].
    destruct (negb (stamp y =? s)%nat); cbn [List.filter]; [rewrite Hy|]; now apply IH.
  - destruct (negb (stamp x =? s)%nat); cbn [List.filter]; [rewrite Hx|]; now apply IH.
Qed.

Lemma ticks_remove_self (l : list Timer) (tm : Timer) :
  List.filter (fun x => match task x with RotationTick => true | _ => false end) l = [tm] ->
  List.filter (fun x => match task x with RotationTick => true | _ => false end)
    (remove_stamp (stamp tm) l) = [].
Proof.
  intros Hl. apply ticks_without. intros x Hx Htask.
  unfold remove_stamp in Hx. apply filter_In in Hx as [Hx Hs].
  assert (Hin : In x (List.filter
                        (fun x => match task x with RotationTick => true | _ => false end) l)).
  { apply filter_In. split; [exact Hx|now rewrite Htask]. }
  rewrite Hl in Hin. destruct Hin as [<-|[]]. now rewrite Nat.eqb_refl in Hs.
Qed.

Lemma ticks_without_none (l : list Timer) (tm : Timer) :
  List.filter (fun x => match task x with RotationTick => true | _ => false end) l = [] ->
  In tm l -> task tm <> RotationTick.
Proof.
  intros Hl Hin Htask.
  assert (H : In tm (List.filter
                       (fun x => match task x with RotationTick => true | _ => false end) l)).
  { apply filter_In. split; [exact Hin|now rewrite Htask]. }
  now rewrite Hl in H.
Qed.

Lemma one_interval_fire (p : Page) :
  timers_tracked p -> one_interval p -> one_interval (fire config p).
Proof.
  intros Hp Hone. pose proof Hp as (T1 & T2 & T3 & T4). unfold fire.
  destruct (next_timer (timers p)) as [m|] eqn:Hm; [|exact Hone].
  apply next_timer_In in Hm as Hin.
  set (p1 := record_fired m (set_now (Z.max (now p) (due m)) p)).
  assert (Hp1 : timers_tracked p1) by exact Hp.
  assert (Hone1 : one_interval p1) by exact Hone.
  destruct (repeat_ m) eqn:Hrep.
  - pose proof (T4 m Hin Hrep) as Htask. rewrite Htask. cbn [run_task].
    destruct (ticks_advances _ _ (advances_rotate config p1)) as [Hticks Hid].
    assert (Hq : timers_tracked (rotate config p1)).
    { eapply tracked_advances; [exact Hp1|apply advances_rotate]. }
    pose proof (T1 m Hin Htask) as Hheld.
    unfold one_interval in Hone1. change (autoRotateInterval_id p1)
      with (autoRotateInterval_id p) in Hone1, Hid.
    rewrite Hheld in Hone1. destruct Hone1 as (tm & Htm & Hh & Hr).
    assert (Hmtm : tm = m).
    { assert (Hin1 : In m (pending_ticks p1)).
      { apply filter_In. split; [exact Hin|now rewrite Htask]. }
      rewrite Htm in Hin1. now destruct Hin1 as [->|[]]. }
    subst tm. unfold rearm.
    destruct (existsb _ (timers (rotate config p1))) eqn:Hex.
    + unfold one_interval, pending_ticks. cbn [autoRotateInterval_id timers].
      rewrite Hid, Hheld, List.filter_app.
      rewrite ticks_remove_self by (fold (pending_ticks (rotate config p1));
                                    now rewrite Hticks).
      cbn [app List.filter task]. rewrite Htask. eexists. now repeat split.
    + unfold one_interval. rewrite Hid, Hheld, Hticks. exists m. now repeat split.
  - assert (Hnot : task m <> RotationTick).
    { intros Htask. unfold one_interval in Hone.
      destruct (autoRotateInterval_id p) as [id|].
      - destruct Hone as (tm & Htm & _ & Hr).
        assert (Hin1 : In m (pending_ticks p)).
        { apply filter_In. split; [exact Hin|now rewrite Htask]. }
        rewrite Htm in Hin1. destruct Hin1 as [->|[]]. congruence.
      - now apply (ticks_without_none _ m Hone Hin). }
    apply one_interval_run_task; [exact Hnot|apply (tracked_filter _ p1 Hp1)|].
    unfold one_interval, pending_ticks in *. cbn [autoRotateInterval_id timers set_timers p1
      record_fired set_now].
    destruct (autoRotateInterval_id p) as [id|].
    + destruct Hone as (tm & Htm & Hh & Hr). exists tm.
      split; [|now split]. apply ticks_remove_other; [exact Htm|].
      intros Hs. assert (Hin1 : In tm (timers p)).
      { assert (H : In tm (pending_ticks p)) by (unfold pending_ticks; rewrite Htm; now left).
        now apply filter_In in H. }
      pose proof (same_stamp_same_timer (timers p) tm m T3 Hin1 Hin Hs) as ->.
      congruence.
    + apply ticks_without. intros x Hx. unfold remove_stamp in Hx.
      apply filter_In in Hx as [Hx _]. now apply (ticks_without_none _ x Hone).
Qed.

Lemma one_interval_click (i : nat) (p : Page) :
  timers_tracked p -> one_interval p -> one_interval (click config i p).
Proof.
  intros Hp Hone. destruct (tabs p !! i) as [tab|] eqn:Hi;
    [|unfold click; now rewrite Hi].
  destruct (truthy_value (tab_value tab)) as [v|] eqn:Hv;
    [|unfold click; now rewrite Hi, Hv].
  rewrite (click_shape config i p tab v Hi Hv).
  assert (H3 : one_interval
                 (switchContent config v true
                    (updateURL config v
                       (updateActiveTab i (set_currentTabIndex i (cleared p)))))).
  { eapply one_interval_advances; [apply advances_activate|].
    now apply one_interval_cleared. }
  destruct (autoRotate config); [|exact H3].
  eapply one_interval_advances; [|exact H3].
  apply advances_extends, extends_setTimeout. discriminate.
Qed.

Lemma one_interval_step (e : Event) (p : Page) :
  timers_tracked p -> one_interval p -> one_interval (step config e p).
Proof.
  intros Hp Hone. destruct e as [i|restored| | |d]; cbn [step].
  - now apply one_interval_click.
  - eapply one_interval_advances; [apply advances_popstate|exact Hone].
  - now apply one_interval_fire.
  - eapply one_interval_advances; [|exact Hone].
    apply advances_extends, extends_animation_frame.
  - exact Hone.
Qed.

Lemma one_interval_initTabs (p : Page) :
  timers p = [] -> tabs p <> [] -> contents p <> [] -> one_interval (initTabs config p).
Proof.
  intros Hnil Ht Hc. unfold initTabs.
  destruct (tabs p) as [|tab0 ts] eqn:Htabs; [contradiction|].
  destruct (contents p) as [|c0 cs] eqn:Hcontents; [contradiction|].
  match goal with |- context [switchContent config ?v false ?q] =>
    assert (H3 : one_interval (switchContent config v false q)) end.
  { eapply one_interval_advances; [apply advances_extends, extends_switchContent|].
    destruct (find_tab _ 0 (tabs _));
      unfold one_interval, pending_ticks; cbn; now rewrite Hnil. }
  match goal with |- context [match wrapper ?q with _ => _ end] =>
    assert (H4 : one_interval (match wrapper q with
                               | Some _ => setTimeout MeasureWrapper 100 q
                               | None => q
                               end)) end.
  { destruct (wrapper _); [|exact H3].
    eapply one_interval_advances; [|exact H3].
    apply advances_extends, extends_setTimeout. discriminate. }
  destruct (autoRotate config); [|exact H4].
  eapply one_interval_advances; [|exact H4].
  apply advances_extends, extends_setTimeout. discriminate.
Qed.

(** X19. Once [initTabs] has set up a group that has a trigger and a block,
    whatever clicks, navigations, timers and frames follow, at most one
    rotation interval is pending: the one whose handle the controller holds,
    and none when it holds none. Clicks in a row, each arming a restart, do
    not make the rotation run twice. *)
Theorem rotation_interval_unique (p : Page) (es : list Event) :
  timers p = [] -> tabs p <> [] -> contents p <> [] ->
  one_interval (run config es (initTabs config p))
  /\ (length (pending_ticks (run config es (initTabs config p))) <= 1)%nat
  /\ (forall tm,
        In tm (timers (run config es (initTabs config p))) ->
        task tm = RotationTick ->
        autoRotateInterval_id (run config es (initTabs config p)) = Some (handle tm)
        /\ pending_ticks (run config es (initTabs config p)) = [tm]).
Proof.
  intros Hnil Ht Hc.
  assert (Hrun : forall es0 q,
             timers_tracked q -> one_interval q ->
             timers_tracked (run config es0 q) /\ one_interval (run config es0 q)).
  { induction es0 as [|e es0 IH]; intros q Hq Hone; [now split|].
    cbn [run fold_left]. apply IH; [now apply tracked_step|now apply one_interval_step]. }
  destruct (Hrun es _ (tracked_initTabs config p Hnil) (one_interval_initTabs p Hnil Ht Hc))
    as [(T1 & _) Hone].
  split; [exact Hone|].
  unfold one_interval in Hone.
  destruct (autoRotateInterval_id (run config es (initTabs config p))) as [id|] eqn:Hid.
  - destruct Hone as (tm0 & Htm0 & Hh & Hr). rewrite Htm0. split; [simpl; lia|].
    intros tm Hin Htask. rewrite (T1 tm Hin Htask). split; [reflexivity|].
    assert (H : In tm (pending_ticks (run config es (initTabs config p)))).
    { apply filter_In. split; [exact Hin|now rewrite Htask]. }
    rewrite Htm0 in H. now destruct H as [->|[]].
  - rewrite Hone. split; [simpl; lia|].
    intros tm Hin Htask. specialize (T1 tm Hin Htask). discriminate.
Qed.

(** *** Handles of timers *)

Lemma handles_advances (p q : Page) : handles_apart p -> advances p q -> handles_apart q.
Proof.
  intros (H1 & H2 & H3)
         (q0 & (Ht & Hid & Hs & Hh & Hn & Hf)
             & cs & w & fr & acts & added & h & s & -> & F & N & S1 & Hle).
  unfold handles_apart. cbn [timers next_handle autoRotateInterval_id reshape].
  rewrite Ht, Hid. rewrite Hh in F, Hle. rewrite List.Forall_forall in F.
  split; [|split].
  - intros tm H. apply in_app_or in H as [H|H].
    + specialize (H1 tm H). lia.
    + destruct (F tm H) as (_ & _ & _ & ?). lia.
  - intros id Hheld. specialize (H2 id Hheld). lia.
  - intros tm H Htask. apply in_app_or in H as [H|H]; [now apply H3|].
    destruct (F tm H) as (_ & _ & _ & Hb). intros Heq. specialize (H2 _ Heq). lia.
Qed.

Lemma handles_filter (f : Timer -> bool) (p : Page) :
  handles_apart p -> handles_apart (set_timers (List.filter f (timers p)) p).
Proof.
  intros (H1 & H2 & H3). unfold handles_apart. cbn. split; [|split; [exact H2|]].
  - intros tm H. apply filter_In in H as [H _]. now apply H1.
  - intros tm H. apply filter_In in H as [H _]. now apply H3.
Qed.

Lemma handles_startAutoRotation (p : Page) :
  handles_apart p -> handles_apart (startAutoRotation config p).
Proof.
  intros (H1 & H2 & H3).
  destruct (startAutoRotation_shape config p) as (Ht & Hid & _ & Hh & _).
  unfold handles_apart. rewrite Ht, Hid, Hh. split; [|split].
  - intros tm H. apply in_app_or in H as [H|[<-|[]]]; [|simpl; lia].
    apply cleared_subset in H. specialize (H1 tm H). lia.
  - intros id [= <-]. lia.
  - intros tm H Htask. apply in_app_or in H as [H|[<-|[]]]; [|now contradiction Htask].
    apply cleared_subset in H. specialize (H1 tm H). intros [= Heq]. lia.
Qed.

Lemma handles_cleared (p : Page) : handles_apart p -> handles_apart (cleared p).
Proof.
  intros (H1 & H2 & H3).
  destruct (cleared_shape p) as (Ht & Hid & _ & Hh & _).
  unfold handles_apart. rewrite Ht, Hid, Hh. split; [|split; [discriminate|discriminate]].
  intros tm H. apply cleared_subset in H. now apply H1.
Qed.

Lemma handles_run_task (tk : Task) (p : Page) :
  handles_apart p -> handles_apart (run_task config tk p).
Proof.
  intros Hp. destruct tk as [item|items| | | |].
  1-4: eapply handles_advances; [exact Hp|];
       apply advances_extends, extends_run_task; discriminate.
  - now apply handles_startAutoRotation.
  - eapply handles_advances; [exact Hp|apply advances_rotate].
Qed.

Lemma handles_rearm (tm : Timer) (q : Page) :
  handles_apart q -> task tm = RotationTick -> (handle tm < next_handle q)%positive ->
  handles_apart (rearm tm q).
Proof.
  intros (H1 & H2 & H3) Htask Hlt. unfold rearm.
  destruct (existsb _ _); [|now repeat split].
  unfold handles_apart, remove_stamp. cbn. split; [|split; [exact H2|]].
  - intros x H. apply in_app_or in H as [H|[<-|[]]]; [|exact Hlt].
    apply filter_In in H as [H _]. now apply H1.
  - intros x H Hx. apply in_app_or in H as [H|[<-|[]]]; [|now contradiction Hx].
    apply filter_In in H as [H _]. now apply H3.
Qed.

Lemma handles_fire (p : Page) :
  timers_tracked p -> handles_apart p -> handles_apart (fire config p).
Proof.
  intros (T1 & T2 & T3 & T4) Hp. pose proof Hp as (H1 & H2 & H3). unfold fire.
  destruct (next_timer (timers p)) as [m|] eqn:Hm; [|exact Hp].
  apply next_timer_In in Hm as Hin.
  set (p1 := record_fired m (set_now (Z.max (now p) (due m)) p)).
  assert (Hp1 : handles_apart p1) by exact Hp.
  destruct (repeat_ m) eqn:Hrep.
  - pose proof (T4 m Hin Hrep) as Htask.
    apply handles_rearm; [now apply handles_run_task|exact Htask|].
    rewrite Htask. cbn [run_task].
    destruct (advances_frame _ _ (advances_rotate config p1)) as (_ & _ & _ & Hle & _).
    specialize (H1 m Hin). change (next_handle p1) with (next_handle p) in Hle. lia.
  - apply handles_run_task. apply (handles_filter _ p1 Hp1).
Qed.

Lemma handles_click (i : nat) (p : Page) :
  handles_apart p -> handles_apart (click config i p).
Proof.
  intros Hp. destruct (tabs p !! i) as [tab|] eqn:Hi;
    [|unfold click; now rewrite Hi].
  destruct (truthy_value (tab_value tab)) as [v|] eqn:Hv;
    [|unfold click; now rewrite Hi, Hv].
  rewrite (click_shape config i p tab v Hi Hv).
  assert (H3 : handles_apart
                 (switchContent config v true
                    (updateURL config v
                       (updateActiveTab i (set_currentTabIndex i (cleared p)))))).
  { apply (handles_advances (cleared p)); [now apply handles_cleared|].
    apply advances_activate. }
  destruct (autoRotate config); [|exact H3].
  eapply handles_advances; [exact H3|].
  apply advances_extends, extends_setTimeout. discriminate.
Qed.

Lemma handles_step (e : Event) (p : Page) :
  timers_tracked p -> handles_apart p -> handles_apart (step config e p).
Proof.
  intros Ht Hp. destruct e as [i|restored| | |d]; cbn [step].
  - now apply handles_click.
  - eapply handles_advances; [exact Hp|apply advances_popstate].
  - now apply handles_fire.
  - eapply handles_advances; [exact Hp|].
    apply advances_extends, extends_animation_frame.
  - exact Hp.
Qed.

Lemma handles_initTabs (p : Page) :
  timers p = [] -> tabs p <> [] -> contents p <> [] -> handles_apart (initTabs config p).
Proof.
  intros Hnil Ht Hc. unfold initTabs.
  destruct (tabs p) as [|tab0 ts] eqn:Htabs; [contradiction|].
  destruct (contents p) as [|c0 cs] eqn:Hcontents; [contradiction|].
  match goal with |- context [switchContent config ?v false ?q] =>
    assert (H3 : handles_apart (switchContent config v false q)) end.
  { eapply handles_advances; [|apply advances_extends, extends_switchContent].
    destruct (find_tab _ 0 (tabs _)); unfold handles_apart; cbn; rewrite Hnil;
      (split; [intros tm []|split; [discriminate|intros tm []]]). }
  match goal with |- context [match wrapper ?q with _ => _ end] =>
    assert (H4 : handles_apart (match wrapper q with
                                | Some _ => setTimeout MeasureWrapper 100 q
                                | None => q
                                end)) end.
  { destruct (wrapper _); [|exact H3].
    eapply handles_advances; [exact H3|].
    apply advances_extends, extends_setTimeout. discriminate. }
  destruct (autoRotate config); [|exact H4].
  eapply handles_advances; [exact H4|].
  apply advances_extends, extends_setTimeout. discriminate.
Qed.

(** The conditions on the timers hold on every page [initTabs] and the
    events after it lead to. *)
Lemma scheduled_run (p : Page) (es : list Event) :
  timers p = [] -> tabs p <> [] -> contents p <> [] ->
  timers_tracked (run config es (initTabs config p))
  /\ handles_apart (run config es (initTabs config p)).
Proof.
  intros Hnil Ht Hc.
  assert (Hrun : forall es0 q,
             timers_tracked q -> handles_apart q ->
             timers_tracked (run config es0 q) /\ handles_apart (run config es0 q)).
  { induction es0 as [|e es0 IH]; intros q Hq Hh; [now split|].
    cbn [run fold_left]. apply IH; [now apply tracked_step|now apply handles_step]. }
  apply Hrun; [now apply tracked_initTabs|now apply handles_initTabs].
Qed.

(** *** A switch, from the call to the last timer *)

Lemma frame_requests_hide_items (animate : bool) (items : list nat) (index : nat)
  (p : Page) :
  frame_requests (hide_items animate index items p) = frame_requests p.
Proof.
  revert index p. induction items as [|item rest IH]; intros index p; [reflexivity|].
  cbn [hide_items]. rewrite IH. unfold hide_item. now destruct animate.
Qed.

Lemma frame_requests_switchContent (tabValue : string) (animate : bool) (p : Page) :
  frame_requests (switchContent config tabValue animate p) = frame_requests p.
Proof.
  unfold switchContent. cbn [frame_requests setTimeout arm snd record_activation].
  rewrite frame_requests_hide_items.
  destruct (itemsToHide config tabValue p); [reflexivity|].
  destruct (negb (showAll config)); [|reflexivity].
  unfold pin_wrapper. destruct (wrapper p); [|reflexivity].
  now destruct (0 <? _).
Qed.

Lemma timers_hide_items_from (animate : bool) (items : list nat) (index : nat) (p : Page)
  (tm : Timer) :
  In tm (timers (hide_items animate index items p)) ->
  In tm (timers p)
  \/ (repeat_ tm = false /\ exists item, task tm = HideItem item /\ In item items).
Proof.
  revert index p. induction items as [|item rest IH]; intros index p; [now left|].
  cbn [hide_items]. intros H. apply IH in H as [H|(Hr & i & Ht & Hi)].
  - unfold hide_item in H. destruct animate; [|now left].
    cbn in H. apply in_app_or in H as [H|[<-|[]]]; [now left|].
    right. split; [reflexivity|]. exists item. split; [reflexivity|now left].
  - right. split; [exact Hr|]. exists i. split; [exact Ht|now right].
Qed.

Lemma timers_switchContent_from (tabValue : string) (animate : bool) (p : Page)
  (tm : Timer) :
  In tm (timers (switchContent config tabValue animate p)) ->
  In tm (timers p)
  \/ (repeat_ tm = false
      /\ (task tm = ShowItems (itemsToShow config tabValue p)
          \/ exists item, task tm = HideItem item
                          /\ In item (itemsToHide config tabValue p))).
Proof.
  unfold switchContent. cbn [timers setTimeout arm snd record_activation].
  intros H. apply in_app_or in H as [H|[<-|[]]].
  - apply timers_hide_items_from in H as [H|(Hr & i & Ht & Hi)].
    + left. destruct (itemsToHide config tabValue p); [exact H|].
      destruct (negb (showAll config)); [|exact H].
      unfold pin_wrapper in H. destruct (wrapper p); [|exact H].
      now destruct (0 <? _).
    + right. split; [exact Hr|]. right. now exists i.
  - right. split; [reflexivity|]. now left.
Qed.

Lemma frame_requests_show_items (items : list nat) (index : nat) (p : Page) :
  frame_requests (show_items config index items p) = (frame_requests p ++ items)%list.
Proof.
  revert index p. induction items as [|item rest IH]; intros index p.
  - cbn. now rewrite app_nil_r.
  - cbn [show_items]. rewrite IH. unfold show_item. cbn. now rewrite <- app_assoc.
Qed.

Lemma show_phase_shape (items : list nat) (p : Page) :
  frame_requests (show_phase config items p) = (frame_requests p ++ items)%list
  /\ forall tm,
       In tm (timers (show_phase config items p)) ->
       In tm (timers p)
       \/ (repeat_ tm = false /\ (task tm = MeasureWrapper \/ task tm = ReleaseWrapper)).
Proof.
  unfold show_phase.
  assert (Ht : timers (show_items config 0 items p) = timers p).
  { generalize 0%nat. revert p. induction items as [|item rest IH]; intros p n;
      [reflexivity|]. cbn [show_items]. now rewrite IH. }
  destruct (wrapper (show_items config 0 items p)) as [w|];
    [|split; [apply frame_requests_show_items|rewrite Ht; now left]].
  destruct (negb (showAll config));
    [|split; [apply frame_requests_show_items|rewrite Ht; now left]].
  split; [cbn; apply frame_requests_show_items|].
  intros tm H. cbn in H. rewrite Ht in H.
  apply in_app_or in H as [H|[<-|[]]].
  - apply in_app_or in H as [H|[<-|[]]]; [now left|].
    right. split; [reflexivity|now left].
  - right. split; [reflexivity|now right].
Qed.

Lemma contents_make_visible (l : list nat) (q : Page) (i : nat) (c : ContentElement) :
  contents q !! i = Some c ->
  exists c1,
    contents (fold_left
                (fun q0 item => set_contents (alter make_visible item (contents q0)) q0)
                l q) !! i = Some c1
    /\ content_value c1 = content_value c
    /\ style_display c1 = style_display c
    /\ (In i l -> class_contains "is-visible" (content_classes c1) = true)
    /\ (class_contains "is-visible" (content_classes c) = true ->
        class_contains "is-visible" (content_classes c1) = true)
    /\ (~ In i l -> c1 = c).
Proof.
  revert q c. induction l as [|item l IH]; intros q c Hc.
  - exists c. cbn. repeat split; auto.
  - cbn [fold_left]. destruct (decide (item = i)) as [->|Hne].
    + destruct (IH (set_contents (alter make_visible i (contents q)) q) (make_visible c))
        as (c1 & H1 & Hv & Hd & _ & Hkeep & _).
      { cbn. now rewrite list_lookup_alter_eq, Hc. }
      assert (Hvis : class_contains "is-visible" (content_classes (make_visible c)) = true).
      { unfold make_visible. cbn [content_classes].
        rewrite class_contains_add. reflexivity. }
      exists c1. split; [exact H1|]. repeat split; auto.
      intros Hno. exfalso. apply Hno. now left.
    + destruct (IH (set_contents (alter make_visible item (contents q)) q) c)
        as (c1 & H1 & Hv & Hd & Hin & Hkeep & Hout).
      { cbn. now rewrite list_lookup_alter_ne. }
      exists c1. split; [exact H1|]. repeat split; auto.
      * intros [Heq|Hl]; [contradiction|auto].
      * intros Hno. apply Hout. intros Hl. apply Hno. now right.
Qed.

Lemma items_to_hide (tabValue : string) (p : Page) (i : nat) :
  In i (itemsToHide config tabValue p)
  <-> exists c, contents p !! i = Some c /\ shouldShow config tabValue c = false.
Proof.
  unfold itemsToHide. rewrite positions_spec. split.
  - intros (_ & c & Hc & Hf). exists c. rewrite Nat.sub_0_r in Hc.
    split; [exact Hc|]. now apply negb_true_iff.
  - intros (c & Hc & Hf). split; [lia|]. exists c. rewrite Nat.sub_0_r.
    split; [exact Hc|]. now rewrite Hf.
Qed.

Lemma items_to_show (tabValue : string) (p : Page) (i : nat) :
  In i (itemsToShow config tabValue p)
  <-> exists c, contents p !! i = Some c /\ shouldShow config tabValue c = true.
Proof.
  unfold itemsToShow. rewrite positions_spec. split.
  - intros (_ & c & Hc & Hf). exists c. rewrite Nat.sub_0_r in Hc. now split.
  - intros (c & Hc & Hf). split; [lia|]. exists c. rewrite Nat.sub_0_r. now split.
Qed.

Lemma value_at (cs cs0 : list ContentElement) (i : nat) (c : ContentElement) :
  map content_value cs = map content_value cs0 -> cs0 !! i = Some c ->
  exists c1, cs !! i = Some c1 /\ content_value c1 = content_value c.
Proof.
  intros Hv Hc. apply (f_equal (fun l => l !! i)) in Hv.
  rewrite !list_lookup_fmap, Hc in Hv. cbn in Hv.
  destruct (cs !! i) as [c1|]; [|discriminate]. injection Hv as Hv. now exists c1.
Qed.

Lemma quiet_timers (p : Page) (tm : Timer) :
  content_quiet p = true -> In tm (timers p) -> content_task (task tm) = false.
Proof.
  unfold content_quiet. intros H Hin. apply andb_prop in H as [H _].
  rewrite forallb_forall in H. specialize (H tm Hin). now apply negb_true_iff.
Qed.

Lemma quiet_frames (p : Page) : content_quiet p = true -> frame_requests p = [].
Proof.
  unfold content_quiet. intros H. apply andb_prop in H as [_ H].
  now destruct (frame_requests p).
Qed.

Lemma quiet_same (p q : Page) :
  (forall tm, In tm (timers q) -> content_task (task tm) = true -> In tm (timers p)) ->
  frame_requests q = frame_requests p ->
  content_quiet p = true -> content_quiet q = true.
Proof.
  intros Ht Hf Hp. unfold content_quiet. rewrite Hf, (quiet_frames p Hp), andb_true_r.
  apply forallb_forall. intros tm Hin. apply negb_true_iff.
  destruct (content_task (task tm)) eqn:Hc; [|reflexivity].
  pose proof (quiet_timers p tm Hp (Ht tm Hin Hc)). congruence.
Qed.

Lemma settling_start (tabValue : string) (animate : bool) (p : Page) :
  timers_tracked p -> handles_apart p -> content_quiet p = true ->
  settling config tabValue p (switchContent config tabValue animate p).
Proof.
  intros Hp Hha Hquiet. pose proof (quiet_frames p Hquiet) as Hfr.
  destruct (contents_switchContent config tabValue animate p)
    as (p1 & Hc1 & Hn1 & Hcontents & Htimers).
  split; [|split; [|split; [|split; [|split]]]].
  - now destruct (elements_switchContent tabValue animate p).
  - eapply tracked_advances; [exact Hp|apply advances_extends, extends_switchContent].
  - eapply handles_advances; [exact Hha|apply advances_extends, extends_switchContent].
  - intros tm Hin Hct. apply timers_switchContent_from in Hin as [Hin|(Hr & Htask)].
    + pose proof (quiet_timers p tm Hquiet Hin). congruence.
    + destruct Htask as [Ht|(item & Ht & Hitem)]; [now left|].
      right. apply items_to_hide in Hitem as (c & Hc & Hf). now exists item, c.
  - intros i c Hi Hshow. rewrite frame_requests_switchContent, Hfr.
    split; [intros []|].
    assert (Hin : In i (itemsToHide config tabValue p)).
    { apply items_to_hide. now exists c. }
    rewrite Hcontents. destruct animate.
    + apply list_elem_of_In, list_elem_of_lookup_1 in Hin as [k Hk].
      exists (fade_out (0 + k) c).
      split; [apply contents_hide_items;
              [apply positions_NoDup|exact Hk|now rewrite Hc1]|].
      split; [reflexivity|].
      split; [unfold fade_out; cbn [content_classes];
              rewrite class_contains_remove; reflexivity|].
      right. destruct (timers_hide_items (itemsToHide config tabValue p) 0 k i p1 Hk)
        as (tm & Htm & Htask & _).
      exists tm. split; [now apply Htimers|exact Htask].
    + destruct (hide_items_now (itemsToHide config tabValue p) 0 p1)
        as (_ & _ & _ & _ & Hhide).
      exists (hide_now c).
      split; [apply Hhide; [apply positions_NoDup|exact Hin|now rewrite Hc1]|].
      split; [reflexivity|].
      split; [unfold hide_now; cbn [content_classes];
              rewrite class_contains_remove; reflexivity|].
      now left.
  - intros i c Hi Hshow. left. unfold switchContent, setTimeout, arm.
    cbn [snd timers]. eexists. split; [apply in_or_app; right; now left|reflexivity].
Qed.

Lemma remove_stamp_In (ts : list Timer) (tm x : Timer) :
  NoDup (map stamp ts) -> In tm ts ->
  In x (remove_stamp (stamp tm) ts) <-> In x ts /\ x <> tm.
Proof.
  intros Hnd Htm. unfold remove_stamp. rewrite filter_In. split.
  - intros [Hx Hs]. split; [exact Hx|]. intros ->. now rewrite Nat.eqb_refl in Hs.
  - intros [Hx Hne]. split; [exact Hx|].
    destruct (Nat.eqb_spec (stamp x) (stamp tm)) as [Heq|_]; [|reflexivity].
    exfalso. apply Hne. now apply (same_stamp_same_timer ts).
Qed.

Lemma timers_startAutoRotation (p : Page) (x : Timer) :
  handles_apart p -> task x <> RotationTick ->
  In x (timers (startAutoRotation config p)) <-> In x (timers p).
Proof.
  intros (_ & _ & H3) Hx.
  destruct (startAutoRotation_shape config p) as (Ht & _). rewrite Ht. split.
  - intros H. apply in_app_or in H as [H|[<-|[]]]; [now apply cleared_subset in H|].
    now contradiction Hx.
  - intros H. apply in_or_app. left. specialize (H3 x H Hx).
    destruct (autoRotateInterval_id p) as [id|]; [|exact H].
    apply filter_In. split; [exact H|].
    destruct (Pos.eqb_spec (handle x) id) as [Heq|_]; [|reflexivity].
    rewrite Heq in H3. now contradiction H3.
Qed.

Lemma startAutoRotation_content (p : Page) :
  contents (startAutoRotation config p) = contents p
  /\ frame_requests (startAutoRotation config p) = frame_requests p.
Proof. unfold startAutoRotation. destruct (autoRotateInterval_id p); now split. Qed.

Lemma settling_fire (tabValue : string) (p q : Page) :
  undisturbed Fire q = true ->
  settling config tabValue p q -> settling config tabValue p (fire config q).
Proof.
  intros Hun Hq. pose proof Hq as (Hval & Htr & Hha & Htimers & Hhide & Hshow).
  pose proof (tracked_fire config q Htr) as Htr1.
  pose proof (handles_fire q Htr Hha) as Hha1.
  unfold undisturbed in Hun.
  unfold fire in *. destruct (next_timer (timers q)) as [tm|] eqn:Hnext; [|exact Hq].
  apply next_timer_In in Hnext as Hin.
  assert (Htick : task tm <> RotationTick).
  { intros H. now rewrite H in Hun. }
  pose proof Htr as (_ & _ & Hnd & T4).
  assert (Hrep : repeat_ tm = false).
  { destruct (repeat_ tm) eqn:Hr; [|reflexivity]. exfalso. now apply Htick, T4. }
  rewrite Hrep in *.
  assert (Hcases :
            (exists j cj, task tm = HideItem j /\ contents p !! j = Some cj
                          /\ shouldShow config tabValue cj = false)
            \/ task tm = ShowItems (itemsToShow config tabValue p)
            \/ task tm = MeasureWrapper \/ task tm = ReleaseWrapper
            \/ task tm = RestartRotation).
  { pose proof (Htimers tm Hin) as Hmine. revert Hmine Htick.
    destruct (task tm) as [j|items| | | |]; intros Hmine Htick.
    - left. destruct (Hmine eq_refl) as [H|(i & c & [= <-] & Hc & Hs)]; [discriminate|].
      now exists j, c.
    - right. left. destruct (Hmine eq_refl) as [H|(i & c & H & _)];
        [exact H|discriminate].
    - right. right. now left.
    - right. right. right. now left.
    - right. right. right. now right.
    - now contradiction Htick. }
  set (q1 := set_timers
               (remove_stamp (stamp tm)
                  (timers (record_fired tm (set_now (Z.max (now q) (due tm)) q))))
               (record_fired tm (set_now (Z.max (now q) (due tm)) q))) in *.
  assert (Hq1 : forall x, In x (timers q1) <-> In x (timers q) /\ x <> tm).
  { intros x. apply (remove_stamp_In (timers q) tm x Hnd Hin). }
  assert (Hc1 : contents q1 = contents q) by reflexivity.
  assert (Hf1 : frame_requests q1 = frame_requests q) by reflexivity.
  assert (Hkeep : forall tm1, In tm1 (timers q) -> task tm1 <> task tm ->
                              In tm1 (timers q1)).
  { intros tm1 H1 Hne. apply Hq1. split; [exact H1|]. intros ->. now apply Hne. }
  assert (Hold : forall tk x, tk <> RotationTick -> tk <> RestartRotation ->
                              In x (timers q1) -> In x (timers (run_task config tk q1))).
  { intros tk x H1 H2. apply extends_timers. now apply extends_run_task. }
  destruct Hcases as [(j & cj & Ht & Hj & Hfj)|[Ht|[Ht|[Ht|Ht]]]]; rewrite Ht in *.
  - (* a block taken out of the layout *)
    cbn [run_task] in Htr1, Hha1 |- *.
    split; [cbn; rewrite values_alter by reflexivity; exact Hval|].
    split; [exact Htr1|]. split; [exact Hha1|]. split; [|split].
    + intros x Hx. cbn in Hx. apply Hq1 in Hx as [Hx _]. now apply Htimers.
    + intros i c Hi Hfs. destruct (Hhide i c Hi Hfs) as (Hno & c1 & H1 & Hv & Hcl & Hd).
      split; [exact Hno|]. cbn [contents set_contents timers]. rewrite Hc1.
      destruct (decide (j = i)) as [->|Hne].
      * exists (display_none c1). rewrite list_lookup_alter_eq, H1.
        repeat split; auto.
      * exists c1. rewrite list_lookup_alter_ne by exact Hne. repeat split; auto.
        destruct Hd as [Hd|(tm1 & Hin1 & Ht1)]; [now left|right].
        exists tm1. split; [|exact Ht1]. apply Hkeep; [exact Hin1|].
        rewrite Ht1. intros [= ->]. now apply Hne.
    + intros i c Hi Hs. destruct (Hshow i c Hi Hs) as [(tm1 & Hin1 & Ht1)|Hdone].
      * left. exists tm1. split; [|exact Ht1]. cbn [timers set_contents].
        apply Hkeep; [exact Hin1|congruence].
      * right. destruct Hdone as (c1 & H1 & Hrest). exists c1.
        cbn [contents set_contents frame_requests]. rewrite Hc1.
        rewrite list_lookup_alter_ne; [now split|].
        intros ->. congruence.
  - (* the show phase *)
    cbn [run_task] in Htr1, Hha1 |- *.
    destruct (show_phase_shape (itemsToShow config tabValue p) q1) as [Hfr Hnew].
    split; [|split; [exact Htr1|split; [exact Hha1|split; [|split]]]].
    + rewrite contents_show_phase, values_show_items. exact Hval.
    + intros x Hx Hct. apply Hnew in Hx as [Hx|[Hr Hx]].
      * apply Hq1 in Hx as [Hx _]. now apply Htimers.
      * destruct Hx as [Hx|Hx]; rewrite Hx in Hct; discriminate.
    + intros i c Hi Hf. destruct (Hhide i c Hi Hf) as (Hno & c1 & Hc & Hv & Hcl & Hd).
      assert (Hout : ~ In i (itemsToShow config tabValue p)).
      { intros H. apply items_to_show in H as (c0 & H0 & Hs0). congruence. }
      split.
      * rewrite Hfr, Hf1. intros H. apply in_app_or in H as [H|H]; auto.
      * exists c1. rewrite contents_show_phase, contents_show_items_other by exact Hout.
        split; [now rewrite Hc1|]. split; [exact Hv|]. split; [exact Hcl|].
        destruct Hd as [Hd|(tm1 & H1 & Ht1)]; [now left|right].
        exists tm1. split; [|exact Ht1].
        apply (Hold (ShowItems (itemsToShow config tabValue p)));
          [discriminate|discriminate|].
        apply Hkeep; [exact H1|congruence].
    + intros i c Hi Hs. right.
      assert (Hin1 : In i (itemsToShow config tabValue p)).
      { apply items_to_show. now exists c. }
      apply list_elem_of_In, list_elem_of_lookup_1 in Hin1 as [k Hk].
      destruct (value_at _ _ i c Hval Hi) as (c0 & H0 & Hv0).
      exists (reveal config (0 + k) c0).
      split; [rewrite contents_show_phase; apply contents_show_items;
              [apply positions_NoDup|exact Hk|now rewrite Hc1]|].
      split; [exact Hv0|]. split; [reflexivity|]. right.
      rewrite Hfr. apply in_or_app. right. eapply list_elem_of_In, list_elem_of_lookup_2.
      exact Hk.
  - (* the measure of the wrapper *)
    assert (Hsame : contents (run_task config MeasureWrapper q1) = contents q
                    /\ frame_requests (run_task config MeasureWrapper q1)
                       = frame_requests q
                    /\ timers (run_task config MeasureWrapper q1) = timers q1).
    { cbn [run_task]. unfold measure_wrapper, pin_wrapper.
      destruct (wrapper q1); [|repeat split]. destruct (0 <? _); repeat split. }
    destruct Hsame as (Hc & Hf & Htm).
    split; [now rewrite Hc|]. split; [exact Htr1|]. split; [exact Hha1|]. split; [|split].
    + intros x Hx. rewrite Htm in Hx. apply Hq1 in Hx as [Hx _]. now apply Htimers.
    + intros i c Hi Hfs. destruct (Hhide i c Hi Hfs) as (Hno & c1 & H1 & Hv & Hcl & Hd).
      split; [now rewrite Hf|]. exists c1. rewrite Hc. repeat split; auto.
      destruct Hd as [Hd|(tm1 & Hin1 & Ht1)]; [now left|right].
      exists tm1. split; [|exact Ht1]. rewrite Htm. apply Hkeep; [exact Hin1|congruence].
    + intros i c Hi Hs. destruct (Hshow i c Hi Hs) as [(tm1 & Hin1 & Ht1)|Hdone].
      * left. exists tm1. split; [|exact Ht1]. rewrite Htm.
        apply Hkeep; [exact Hin1|congruence].
      * right. now rewrite Hc, Hf.
  - (* the release of the wrapper *)
    assert (Hsame : contents (run_task config ReleaseWrapper q1) = contents q
                    /\ frame_requests (run_task config ReleaseWrapper q1)
                       = frame_requests q
                    /\ timers (run_task config ReleaseWrapper q1) = timers q1).
    { cbn [run_task]. unfold release_wrapper. destruct (wrapper q1); repeat split. }
    destruct Hsame as (Hc & Hf & Htm).
    split; [now rewrite Hc|]. split; [exact Htr1|]. split; [exact Hha1|]. split; [|split].
    + intros x Hx. rewrite Htm in Hx. apply Hq1 in Hx as [Hx _]. now apply Htimers.
    + intros i c Hi Hfs. destruct (Hhide i c Hi Hfs) as (Hno & c1 & H1 & Hv & Hcl & Hd).
      split; [now rewrite Hf|]. exists c1. rewrite Hc. repeat split; auto.
      destruct Hd as [Hd|(tm1 & Hin1 & Ht1)]; [now left|right].
      exists tm1. split; [|exact Ht1]. rewrite Htm. apply Hkeep; [exact Hin1|congruence].
    + intros i c Hi Hs. destruct (Hshow i c Hi Hs) as [(tm1 & Hin1 & Ht1)|Hdone].
      * left. exists tm1. split; [|exact Ht1]. rewrite Htm.
        apply Hkeep; [exact Hin1|congruence].
      * right. now rewrite Hc, Hf.
  - (* the rotation started again *)
    cbn [run_task] in Htr1, Hha1 |- *.
    assert (Hhq1 : handles_apart q1).
    { apply (handles_filter _ (record_fired tm (set_now (Z.max (now q) (due tm)) q))).
      exact Hha. }
    destruct (startAutoRotation_content q1) as [Hc Hf].
    assert (Hsame : forall x, task x <> RotationTick ->
                              In x (timers (startAutoRotation config q1))
                              <-> In x (timers q1)).
    { intros x Hx. now apply timers_startAutoRotation. }
    split; [now rewrite Hc|]. split; [exact Htr1|]. split; [exact Hha1|]. split; [|split].
    + intros x Hx Hct. apply Htimers; [|exact Hct].
      apply Hsame in Hx; [now apply Hq1 in Hx|]. intros Hx0. now rewrite Hx0 in Hct.
    + intros i c Hi Hfs. destruct (Hhide i c Hi Hfs) as (Hno & c1 & H1 & Hv & Hcl & Hd).
      split; [now rewrite Hf|]. exists c1. rewrite Hc. repeat split; auto.
      destruct Hd as [Hd|(tm1 & Hin1 & Ht1)]; [now left|right].
      exists tm1. split; [|exact Ht1].
      apply Hsame; [now rewrite Ht1|]. apply Hkeep; [exact Hin1|congruence].
    + intros i c Hi Hs. destruct (Hshow i c Hi Hs) as [(tm1 & Hin1 & Ht1)|Hdone].
      * left. exists tm1. split; [|exact Ht1].
        apply Hsame; [now rewrite Ht1|]. apply Hkeep; [exact Hin1|congruence].
      * right. now rewrite Hc, Hf.
Qed.

Lemma timers_make_visible (l : list nat) (q : Page) :
  timers (fold_left
            (fun q0 item => set_contents (alter make_visible item (contents q0)) q0) l q)
  = timers q.
Proof.
  revert q. induction l as [|item l IH]; intros q; [reflexivity|].
  cbn [fold_left]. now rewrite IH.
Qed.

Lemma settling_frame (tabValue : string) (p q : Page) :
  settling config tabValue p q -> settling config tabValue p (animation_frame q).
Proof.
  intros (Hval & Htr & Hha & Htimers & Hhide & Hshow).
  assert (Ht : timers (animation_frame q) = timers q).
  { unfold animation_frame. cbn [timers set_frame_requests].
    apply timers_make_visible. }
  assert (Hf : frame_requests (animation_frame q) = []) by reflexivity.
  assert (Hc : contents (animation_frame q)
               = contents (fold_left
                             (fun q0 item =>
                                set_contents (alter make_visible item (contents q0)) q0)
                             (frame_requests q) q)) by reflexivity.
  split; [|split; [|split; [|split; [|split]]]].
  - rewrite Hc, values_make_visible. exact Hval.
  - eapply tracked_advances; [exact Htr|].
    apply advances_extends, extends_animation_frame.
  - eapply handles_advances; [exact Hha|].
    apply advances_extends, extends_animation_frame.
  - intros tm Hin. rewrite Ht in Hin. now apply Htimers.
  - intros i c Hi Hfs. destruct (Hhide i c Hi Hfs) as (Hno & c1 & H1 & Hv & Hcl & Hd).
    split; [rewrite Hf; intros []|].
    destruct (contents_make_visible (frame_requests q) q i c1 H1)
      as (c2 & H2 & _ & _ & _ & _ & Hsame).
    rewrite (Hsame Hno) in H2. exists c1. rewrite Hc, Ht. repeat split; auto.
  - intros i c Hi Hs. destruct (Hshow i c Hi Hs) as [(tm1 & Hin1 & Ht1)|Hdone].
    + left. exists tm1. now rewrite Ht.
    + right. destruct Hdone as (c1 & H1 & Hv & Hd & Hvis).
      destruct (contents_make_visible (frame_requests q) q i c1 H1)
        as (c2 & H2 & Hv2 & Hd2 & Hin2 & Hkeep2 & _).
      exists c2. rewrite Hc. split; [exact H2|]. split; [congruence|].
      split; [congruence|]. left. destruct Hvis as [Hvis|Hvis]; auto.
Qed.

Lemma settling_run (tabValue : string) (p : Page) (es : list Event) (q : Page) :
  undisturbed_run config es q = true ->
  settling config tabValue p q -> settling config tabValue p (run config es q).
Proof.
  revert q. induction es as [|e es IH]; intros q Hes Hq; [exact Hq|].
  cbn [undisturbed_run] in Hes. apply andb_prop in Hes as [He Hes].
  cbn [run fold_left]. apply IH; [exact Hes|].
  destruct e as [i|restored| | |d]; try discriminate; cbn [step].
  - now apply settling_fire.
  - now apply settling_frame.
  - exact Hq.
Qed.

Lemma weight_remove (ts : list Timer) (tm : Timer) :
  NoDup (map stamp ts) -> In tm ts ->
  (list_sum (map timer_weight (remove_stamp (stamp tm) ts)) + timer_weight tm
   = list_sum (map timer_weight ts))%nat.
Proof.
  unfold remove_stamp. induction ts as [|x ts IH]; intros Hnd Hin; [destruct Hin|].
  cbn [map] in Hnd. apply NoDup_cons in Hnd as [Hx Hnd]. cbn [List.filter].
  destruct Hin as [->|Hin].
  - rewrite Nat.eqb_refl. cbn [negb map list_sum].
    assert (Hsame : List.filter (fun y => negb (stamp y =? stamp tm)%nat) ts = ts).
    { clear IH Hnd. induction ts as [|y ts IH]; [reflexivity|]. cbn [List.filter].
      destruct (Nat.eqb_spec (stamp y) (stamp tm)) as [Heq|_].
      - exfalso. apply Hx, list_elem_of_In. cbn [map]. rewrite Heq. now left.
      - cbn [negb]. f_equal. apply IH. intros H. apply Hx, list_elem_of_In.
        apply list_elem_of_In in H. cbn [map]. now right. }
    rewrite Hsame. unfold list_sum. cbn [fold_right]. lia.
  - destruct (Nat.eqb_spec (stamp x) (stamp tm)) as [Heq|_].
    + exfalso. apply Hx. rewrite Heq. now apply list_elem_of_In, in_map.
    + cbn [negb map]. specialize (IH Hnd Hin). unfold list_sum in *.
      cbn [fold_right]. lia.
Qed.

Lemma weight_zero (ts : list Timer) :
  list_sum (map timer_weight ts) = 0%nat ->
  forallb (fun tm => match task tm with RotationTick => true | _ => false end) ts = true.
Proof.
  induction ts as [|tm ts IH]; [reflexivity|]. cbn [map forallb]. unfold list_sum.
  cbn [fold_right]. fold (list_sum (map timer_weight ts)). intros H.
  assert (H1 : timer_weight tm = 0%nat) by lia.
  assert (H2 : list_sum (map timer_weight ts) = 0%nat) by lia.
  rewrite (IH H2), andb_true_r. unfold timer_weight in H1.
  destruct (task tm); try discriminate. reflexivity.
Qed.

Lemma weight_filter (f : Timer -> bool) (ts : list Timer) :
  (list_sum (map timer_weight (List.filter f ts)) <= list_sum (map timer_weight ts))%nat.
Proof.
  induction ts as [|x ts IH]; [apply Nat.le_refl|]. cbn [List.filter map].
  destruct (f x); cbn [map]; unfold list_sum in *; cbn [fold_right]; lia.
Qed.

Lemma timers_show_phase (items : list nat) (p : Page) :
  exists added,
    timers (show_phase config items p) = (timers p ++ added)%list
    /\ (list_sum (map timer_weight added) <= 2)%nat.
Proof.
  unfold show_phase.
  assert (Ht : timers (show_items config 0 items p) = timers p).
  { generalize 0%nat. revert p. induction items as [|item rest IH]; intros p n;
      [reflexivity|]. cbn [show_items]. now rewrite IH. }
  destruct (wrapper (show_items config 0 items p)) as [w|];
    [|exists []; rewrite app_nil_r; split; [exact Ht|simpl; lia]].
  destruct (negb (showAll config));
    [|exists []; rewrite app_nil_r; split; [exact Ht|simpl; lia]].
  eexists [_; _]. cbn [timers setTimeout arm snd set_wrapper]. rewrite Ht.
  split; [now rewrite <- app_assoc|]. cbn. lia.
Qed.

(** A timer that is no rotation tick takes more from what is left to run
    than it adds. *)
Lemma fire_weight (q : Page) (tm : Timer) :
  timers_tracked q -> next_timer (timers q) = Some tm -> task tm <> RotationTick ->
  (pending_weight (fire config q) < pending_weight q)%nat.
Proof.
  intros Htr Hnext Htick. pose proof Htr as (_ & _ & Hnd & T4).
  unfold fire. rewrite Hnext. apply next_timer_In in Hnext as Hin.
  assert (Hrep : repeat_ tm = false).
  { destruct (repeat_ tm) eqn:Hr; [|reflexivity]. exfalso. now apply Htick, T4. }
  rewrite Hrep.
  pose proof (weight_remove (timers q) tm Hnd Hin) as Hw.
  set (q1 := set_timers _ _).
  assert (Hq1 : (pending_weight q1 + timer_weight tm = pending_weight q)%nat)
    by exact Hw.
  assert (Hpos : (1 <= timer_weight tm)%nat).
  { unfold timer_weight. destruct (task tm); try lia. now contradiction Htick. }
  destruct (task tm) as [j|items| | | |] eqn:Ht; cbn [run_task].
  - unfold pending_weight at 1. cbn [timers set_contents]. fold (pending_weight q1). lia.
  - destruct (timers_show_phase items q1) as (added & Ha & Hle).
    unfold pending_weight at 1. rewrite Ha, map_app, list_sum_app.
    fold (pending_weight q1).
    assert (Hthree : timer_weight tm = 3%nat) by (unfold timer_weight; now rewrite Ht).
    lia.
  - assert (Hsame : timers (measure_wrapper q1) = timers q1).
    { unfold measure_wrapper, pin_wrapper. destruct (wrapper q1); [|reflexivity].
      now destruct (0 <? _). }
    unfold pending_weight at 1. rewrite Hsame. fold (pending_weight q1). lia.
  - assert (Hsame : timers (release_wrapper q1) = timers q1).
    { unfold release_wrapper. now destruct (wrapper q1). }
    unfold pending_weight at 1. rewrite Hsame. fold (pending_weight q1). lia.
  - destruct (startAutoRotation_shape config q1) as (Hs & _).
    unfold pending_weight at 1. rewrite Hs, map_app, list_sum_app.
    assert (Hle : (list_sum
                      (map timer_weight
                         (match autoRotateInterval_id q1 with
                          | Some id =>
                              List.filter (fun x => negb (Pos.eqb (handle x) id)) (timers q1)
                          | None => timers q1
                          end)) <= pending_weight q1)%nat).
    { destruct (autoRotateInterval_id q1); [apply weight_filter|apply Nat.le_refl]. }
    replace (list_sum (map timer_weight [rotation_timer config q1])) with 0%nat
      by reflexivity.
    lia.
  - now contradiction Htick.
Qed.

(** The timers of the content run out. *)
Lemma settling_drain (n : nat) (q : Page) :
  timers_tracked q -> undisturbed_run config (repeat Fire n) q = true ->
  (pending_weight q <= n)%nat ->
  only_ticks (run config (repeat Fire n) q) = true.
Proof.
  revert q. induction n as [|n IH]; intros q Htr Hun Hw.
  - cbn. apply weight_zero. unfold pending_weight in Hw. lia.
  - cbn [repeat undisturbed_run] in Hun. apply andb_prop in Hun as [He Hun].
    cbn [step] in Hun. cbn [repeat run fold_left step].
    apply IH; [now apply tracked_fire|exact Hun|].
    unfold undisturbed in He.
    destruct (next_timer (timers q)) as [tm|] eqn:Hnext.
    + assert (Htick : task tm <> RotationTick) by (intros H; now rewrite H in He).
      pose proof (fire_weight q tm Htr Hnext Htick). lia.
    + assert (Hfire : fire config q = q) by (unfold fire; now rewrite Hnext).
      rewrite Hfire. apply next_timer_none in Hnext. unfold pending_weight in *.
      rewrite Hnext. simpl. lia.
Qed.

Lemma quiet_after_frame (q : Page) :
  only_ticks q = true -> content_quiet (animation_frame q) = true.
Proof.
  intros H. unfold content_quiet.
  assert (Ht : timers (animation_frame q) = timers q).
  { unfold animation_frame. cbn [timers set_frame_requests].
    apply timers_make_visible. }
  rewrite Ht. change (frame_requests (animation_frame q)) with (@nil nat).
  rewrite andb_true_r. unfold only_ticks in H.
  rewrite forallb_forall in H. apply forallb_forall. intros tm Hin.
  specialize (H tm Hin). now destruct (task tm).
Qed.

Lemma quiet_after_drain (n : nat) (q : Page) :
  timers_tracked q -> undisturbed_run config (repeat Fire n) q = true ->
  (pending_weight q <= n)%nat ->
  content_quiet (run config (repeat Fire n ++ [Frame]) q) = true.
Proof.
  intros Htr Hun Hw. unfold run. rewrite fold_left_app. cbn [fold_left step].
  apply quiet_after_frame. now apply settling_drain.
Qed.

Lemma settled_when_quiet (tabValue : string) (p q : Page) :
  settling config tabValue p q -> content_quiet q = true -> settled config tabValue p q.
Proof.
  intros (Hval & _ & _ & _ & Hhide & Hshow) Hquiet i c Hi.
  pose proof (quiet_frames q Hquiet) as Hframe.
  destruct (value_at _ _ i c Hval Hi) as (c1 & H1 & Hv).
  exists c1. split; [exact H1|]. split; [exact Hv|]. split.
  - intros Hs.
    destruct (Hshow i c Hi Hs) as [(tm & Hin & Htask)|(c2 & H2 & _ & Hd & Hvis)].
    + pose proof (quiet_timers q tm Hquiet Hin) as Hno. now rewrite Htask in Hno.
    + rewrite H1 in H2. injection H2 as <-. split; [exact Hd|].
      destruct Hvis as [Hvis|Hin]; [exact Hvis|]. rewrite Hframe in Hin. destruct Hin.
  - intros Hs. destruct (Hhide i c Hi Hs) as (_ & c2 & H2 & _ & Hcl & Hd).
    rewrite H1 in H2. injection H2 as <-. split; [|exact Hcl].
    destruct Hd as [Hd|(tm & Hin & Htask)]; [exact Hd|].
    pose proof (quiet_timers q tm Hquiet Hin) as Hno. now rewrite Htask in Hno.
Qed.

(** *** The callers of [switchContent] *)

(** What holds of a switch called on [p'] holds of it on [p], with the
    same blocks, and on [q'], with the blocks, the frames and the content
    timers of [q]. *)
Lemma settling_same (tabValue : string) (p p' q q' : Page) :
  settling config tabValue p' q ->
  contents p' = contents p ->
  contents q' = contents q -> frame_requests q' = frame_requests q ->
  (forall tm, content_task (task tm) = true ->
              In tm (timers q') <-> In tm (timers q)) ->
  timers_tracked q' -> handles_apart q' ->
  settling config tabValue p q'.
Proof.
  intros (Hval & _ & _ & Htimers & Hhide & Hshow) Hp Hc Hf Ht Htr Hha.
  assert (Hitems : itemsToShow config tabValue p' = itemsToShow config tabValue p)
    by (unfold itemsToShow; now rewrite Hp).
  rewrite Hitems in Htimers, Hshow. rewrite Hp in Hval, Htimers, Hhide, Hshow.
  split; [|split; [exact Htr|split; [exact Hha|split; [|split]]]].
  - now rewrite Hc.
  - intros tm Hin Hct. apply Htimers; [now apply Ht|exact Hct].
  - intros i c Hi Hs. destruct (Hhide i c Hi Hs) as (Hno & c1 & H1 & Hv & Hcl & Hd).
    split; [now rewrite Hf|]. exists c1. rewrite Hc. repeat split; auto.
    destruct Hd as [Hd|(tm & Hin & Htask)]; [now left|right].
    exists tm. split; [|exact Htask]. apply Ht; [now rewrite Htask|exact Hin].
  - intros i c Hi Hs. destruct (Hshow i c Hi Hs) as [(tm & Hin & Htask)|Hdone].
    + left. exists tm. split; [|exact Htask]. apply Ht; [now rewrite Htask|exact Hin].
    + right. now rewrite Hc, Hf.
Qed.

Lemma activated_same (p : Page) (i k : nat) (v : string) :
  contents (updateURL config v (updateActiveTab i (set_currentTabIndex k p))) = contents p
  /\ timers (updateURL config v (updateActiveTab i (set_currentTabIndex k p))) = timers p
  /\ frame_requests (updateURL config v (updateActiveTab i (set_currentTabIndex k p)))
     = frame_requests p
  /\ (timers_tracked p ->
      timers_tracked (updateURL config v (updateActiveTab i (set_currentTabIndex k p))))
  /\ (handles_apart p ->
      handles_apart (updateURL config v (updateActiveTab i (set_currentTabIndex k p)))).
Proof.
  unfold updateURL. destruct (String.eqb v (defaultTab config));
    (split; [reflexivity|split; [reflexivity|split; [reflexivity|
       split; intros H; exact H]]]).
Qed.

Lemma quiet_cleared (p : Page) : content_quiet p = true -> content_quiet (cleared p) = true.
Proof.
  apply quiet_same.
  - intros tm Hin _. destruct (cleared_shape p) as (Ht & _). rewrite Ht in Hin.
    now apply cleared_subset in Hin.
  - unfold cleared. now destruct (autoRotateInterval_id p).
Qed.

Lemma content_timers_setTimeout (tk : Task) (d : Z) (p : Page) (tm : Timer) :
  content_task tk = false -> content_task (task tm) = true ->
  In tm (timers (setTimeout tk d p)) <-> In tm (timers p).
Proof.
  intros Htk Hct. unfold setTimeout, arm. cbn [snd timers]. split.
  - intros H. apply in_app_or in H as [H|[<-|[]]]; [exact H|].
    cbn [task] in Hct. congruence.
  - intros H. apply in_or_app. now left.
Qed.

Lemma settling_click (tabValue : string) (i : nat) (tab : TabElement) (p : Page) :
  timers_tracked p -> handles_apart p -> content_quiet p = true ->
  tabs p !! i = Some tab -> truthy_value (tab_value tab) = Some tabValue ->
  settling config tabValue p (click config i p).
Proof.
  intros Htr Hha Hquiet Hi Hv.
  pose proof (tracked_click config i p Htr) as Htr1.
  pose proof (handles_click i p Hha) as Hha1.
  rewrite (click_shape config i p tab tabValue Hi Hv) in *.
  destruct (activated_same (cleared p) i i tabValue) as (Hc & Ht & Hf & Htrk & Hhk).
  set (p2 := updateURL config tabValue
               (updateActiveTab i (set_currentTabIndex i (cleared p)))) in *.
  assert (Hcl : contents (cleared p) = contents p).
  { unfold cleared. now destruct (autoRotateInterval_id p). }
  assert (Hstart : settling config tabValue p2 (switchContent config tabValue true p2)).
  { apply settling_start;
      [apply Htrk, tracked_cleared, Htr|apply Hhk, handles_cleared, Hha|].
    apply (quiet_same (cleared p));
      [intros tm Hin _; now rewrite Ht in Hin|exact Hf|now apply quiet_cleared]. }
  apply (settling_same tabValue p p2 (switchContent config tabValue true p2));
    [exact Hstart|congruence| | | |exact Htr1|exact Hha1].
  - now destruct (autoRotate config).
  - now destruct (autoRotate config).
  - intros tm Hct. destruct (autoRotate config); [|reflexivity].
    now apply content_timers_setTimeout.
Qed.

Lemma settling_popstate (tabValue : string) (restored : list (string * string)) (i : nat)
  (p : Page) :
  timers_tracked p -> handles_apart p -> content_quiet p = true ->
  url_or_default config (set_location restored false p) = tabValue ->
  find_tab tabValue 0 (tabs p) = Some i ->
  settling config tabValue p (popstate config restored p).
Proof.
  intros Htr Hha Hquiet Hurl Hfind.
  assert (Hshape : popstate config restored p
                   = match find_tab (url_or_default config (set_location restored false p))
                             0 (tabs p) with
                     | Some k =>
                         set_currentTabIndex k
                           (switchContent config
                              (url_or_default config (set_location restored false p)) true
                              (updateActiveTab k (set_location restored false p)))
                     | None => set_location restored false p
                     end) by reflexivity.
  rewrite Hshape, Hurl, Hfind.
  set (p2 := updateActiveTab i (set_location restored false p)).
  assert (Hstart : settling config tabValue p2 (switchContent config tabValue true p2)).
  { apply settling_start; [exact Htr|exact Hha|exact Hquiet]. }
  apply (settling_same tabValue p p2 (switchContent config tabValue true p2));
    [exact Hstart|reflexivity|reflexivity|reflexivity|intros; reflexivity| |].
  - now destruct Hstart as (_ & H & _).
  - now destruct Hstart as (_ & _ & H & _).
Qed.

Lemma rotate_shape (p : Page) (tab : TabElement) (v : string) :
  tabs p !! Nat.modulo (currentTabIndex p + 1) (length (tabs p)) = Some tab ->
  truthy_value (tab_value tab) = Some v ->
  rotate config p
  = switchContent config v true
      (updateURL config v
         (updateActiveTab (Nat.modulo (currentTabIndex p + 1) (length (tabs p)))
            (set_currentTabIndex (Nat.modulo (currentTabIndex p + 1) (length (tabs p)))
               p))).
Proof.
  intros Hi Hv. unfold rotate.
  set (k := Nat.modulo (currentTabIndex p + 1) (length (tabs p))) in *.
  change (currentTabIndex (set_currentTabIndex k p)) with k.
  change (tabs (set_currentTabIndex k p)) with (tabs p).
  now rewrite Hi, Hv.
Qed.

Lemma settling_tick (tabValue : string) (tm : Timer) (tab : TabElement) (p : Page) :
  timers_tracked p -> handles_apart p -> content_quiet p = true ->
  next_timer (timers p) = Some tm -> task tm = RotationTick ->
  tabs p !! Nat.modulo (currentTabIndex p + 1) (length (tabs p)) = Some tab ->
  truthy_value (tab_value tab) = Some tabValue ->
  settling config tabValue p (fire config p).
Proof.
  intros Htr Hha Hquiet Hnext Htask Hi Hv.
  pose proof (tracked_fire config p Htr) as Htr1.
  pose proof (handles_fire p Htr Hha) as Hha1.
  apply next_timer_In in Hnext as Hin.
  unfold fire in *. rewrite Hnext in *. rewrite Htask in *. cbn [run_task] in *.
  set (k := Nat.modulo (currentTabIndex p + 1) (length (tabs p))) in *.
  destruct (repeat_ tm) eqn:Hrep.
  - (* the interval comes again *)
    set (p1 := record_fired tm (set_now (Z.max (now p) (due tm)) p)) in *.
    rewrite (rotate_shape p1 tab tabValue Hi Hv) in *.
    change (Nat.modulo (currentTabIndex p1 + 1) (length (tabs p1))) with k in *.
    destruct (activated_same p1 k k tabValue) as (Hc & Ht & Hf & Htrk & Hhk).
    set (p2 := updateURL config tabValue
                 (updateActiveTab k (set_currentTabIndex k p1))) in *.
    assert (Hstart : settling config tabValue p2 (switchContent config tabValue true p2)).
    { apply settling_start; [now apply Htrk|now apply Hhk|].
      apply (quiet_same p); [intros x Hx _; now rewrite Ht in Hx|exact Hf|exact Hquiet]. }
    assert (Hin2 : In tm (timers (switchContent config tabValue true p2))).
    { apply (extends_timers p2); [apply extends_switchContent|]. rewrite Ht. exact Hin. }
    apply (settling_same tabValue p p2 (switchContent config tabValue true p2));
      [exact Hstart|exact Hc| | | |exact Htr1|exact Hha1].
    + unfold rearm. now destruct (existsb _ _).
    + unfold rearm. now destruct (existsb _ _).
    + intros x Hct. unfold rearm. destruct (existsb _ _); [|reflexivity]. cbn [timers].
      destruct Hstart as (_ & (_ & _ & Hnd & _) & _). split.
      * intros H. apply in_app_or in H as [H|[<-|[]]].
        -- now apply (remove_stamp_In _ tm x Hnd Hin2) in H.
        -- cbn [task] in Hct. rewrite Htask in Hct. discriminate.
      * intros H. apply in_or_app. left.
        apply (remove_stamp_In _ tm x Hnd Hin2). split; [exact H|].
        intros ->. rewrite Htask in Hct. discriminate.
  - (* a tick that comes once *)
    set (p1 := set_timers
                 (remove_stamp (stamp tm)
                    (timers (record_fired tm (set_now (Z.max (now p) (due tm)) p))))
                 (record_fired tm (set_now (Z.max (now p) (due tm)) p))) in *.
    rewrite (rotate_shape p1 tab tabValue Hi Hv) in *.
    change (Nat.modulo (currentTabIndex p1 + 1) (length (tabs p1))) with k in *.
    destruct (activated_same p1 k k tabValue) as (Hc & Ht & Hf & Htrk & Hhk).
    set (p2 := updateURL config tabValue
                 (updateActiveTab k (set_currentTabIndex k p1))) in *.
    assert (Hstart : settling config tabValue p2 (switchContent config tabValue true p2)).
    { apply settling_start.
      - apply Htrk.
        apply (tracked_filter _ (record_fired tm (set_now (Z.max (now p) (due tm)) p))).
        exact Htr.
      - apply Hhk.
        apply (handles_filter _ (record_fired tm (set_now (Z.max (now p) (due tm)) p))).
        exact Hha.
      - apply (quiet_same p); [|exact Hf|exact Hquiet].
        intros x Hx _. rewrite Ht in Hx. now apply filter_In in Hx. }
    apply (settling_same tabValue p p2 (switchContent config tabValue true p2));
      [exact Hstart|exact Hc|reflexivity|reflexivity|intros; reflexivity
      |exact Htr1|exact Hha1].
Qed.

Lemma settling_switches (tabValue : string) (p q : Page) :
  timers_tracked p -> handles_apart p -> content_quiet p = true ->
  switches config tabValue p q -> settling config tabValue p q.
Proof.
  intros Htr Hha Hquiet Hsw.
  destruct Hsw as [animate|i tab Hi Hv|restored i Hurl Hfind|tm tab Hnext Htask Hi Hv].
  - now apply settling_start.
  - now apply (settling_click tabValue i tab).
  - now apply (settling_popstate tabValue restored i).
  - now apply (settling_tick tabValue tm tab).
Qed.

Lemma initTabs_shape (p : Page) :
  tabs p <> [] -> contents p <> [] ->
  initTabs config p
  = (if autoRotate config
     then setTimeout RestartRotation (autoRotateInterval config)
     else fun q => q)
      ((fun q => match wrapper q with
                 | Some _ => setTimeout MeasureWrapper 100 q
                 | None => q
                 end)
         (switchContent config (url_or_default config p) false
            (match find_tab (url_or_default config p) 0 (tabs p) with
             | Some i =>
                 updateActiveTab i
                   (set_autoRotateInterval_id None (set_currentTabIndex i p))
             | None => set_autoRotateInterval_id None (set_currentTabIndex 0 p)
             end))).
Proof.
  intros Ht Hc. unfold initTabs.
  destruct (tabs p) as [|tab0 ts] eqn:Htabs; [contradiction|].
  destruct (contents p) as [|c0 cs] eqn:Hcontents; [contradiction|].
  cbn zeta. cbn [tabs set_autoRotateInterval_id set_currentTabIndex]. rewrite Htabs.
  destruct (find_tab (url_or_default config p) 0 (tab0 :: ts));
    now destruct (autoRotate config).
Qed.

(** The switch [initTabs] makes on a page on which nothing is pending. *)
Lemma settling_initTabs (p : Page) :
  timers p = [] -> frame_requests p = [] -> tabs p <> [] -> contents p <> [] ->
  settling config (url_or_default config p) p (initTabs config p).
Proof.
  intros Hnil Hfr Ht Hc.
  pose proof (tracked_initTabs config p Hnil) as Htr1.
  pose proof (handles_initTabs p Hnil Ht Hc) as Hha1.
  rewrite (initTabs_shape p Ht Hc) in *.
  set (v := url_or_default config p) in *.
  set (p2 := match find_tab v 0 (tabs p) with
             | Some i =>
                 updateActiveTab i
                   (set_autoRotateInterval_id None (set_currentTabIndex i p))
             | None => set_autoRotateInterval_id None (set_currentTabIndex 0 p)
             end) in *.
  assert (Hbase : contents p2 = contents p /\ timers p2 = [] /\ frame_requests p2 = []
                  /\ autoRotateInterval_id p2 = None).
  { subst p2. destruct (find_tab v 0 (tabs p));
      (split; [reflexivity|split; [exact Hnil|split; [exact Hfr|reflexivity]]]). }
  destruct Hbase as (Hb1 & Hb2 & Hb3 & Hb4).
  assert (Hstart : settling config v p2 (switchContent config v false p2)).
  { apply settling_start.
    - unfold timers_tracked. rewrite Hb2. simpl.
      repeat split; try (intros tm []). apply NoDup_nil_2.
    - unfold handles_apart. rewrite Hb2, Hb4.
      split; [intros tm []|split; [discriminate|intros tm []]].
    - unfold content_quiet. now rewrite Hb2, Hb3. }
  apply (settling_same v p p2 (switchContent config v false p2));
    [exact Hstart|exact Hb1| | | |exact Htr1|exact Hha1].
  - destruct (autoRotate config); now destruct (wrapper _).
  - destruct (autoRotate config); now destruct (wrapper _).
  - intros tm Hct. destruct (autoRotate config); cbn beta;
      rewrite ?content_timers_setTimeout by first [exact Hct|reflexivity];
      destruct (wrapper _);
      rewrite ?content_timers_setTimeout by first [exact Hct|reflexivity];
      reflexivity.
Qed.

(** A switch called when the content is at rest, by any of its callers,
    and left to itself: once the content is at rest again, the blocks are
    as the switch is to leave them. *)
Lemma switch_settles (tabValue : string) (p q : Page) (es : list Event) :
  timers_tracked p -> handles_apart p -> content_quiet p = true ->
  switches config tabValue p q ->
  undisturbed_run config es q = true -> content_quiet (run config es q) = true ->
  settled config tabValue p (run config es q).
Proof.
  intros Htr Hha Hquiet Hsw Hes Hrest.
  apply settled_when_quiet; [|exact Hrest].
  apply settling_run; [exact Hes|]. now apply settling_switches.
Qed.

Lemma switches_tracked (tabValue : string) (p q : Page) :
  timers_tracked p -> switches config tabValue p q -> timers_tracked q.
Proof.
  intros Htr Hsw.
  destruct Hsw as [animate|i tab Hi Hv|restored i Hurl Hfind|tm tab Hnext Htask Hi Hv].
  - eapply tracked_advances; [exact Htr|apply advances_extends, extends_switchContent].
  - now apply tracked_click.
  - eapply tracked_advances; [exact Htr|apply advances_popstate].
  - now apply tracked_fire.
Qed.

(** X21. A navigation in the history shows the tab of the URL the browser
    restored: the trigger that declares its value, or the default value,
    becomes the one active trigger and the index of the rotation, and the
    content is switched to the value with animation. Unlike a click it
    writes nothing to the history and leaves the rotation alone: the
    interval held and the ticks pending are as they were, and the timers it
    arms are those of the switch. When no trigger declares the value, it
    does nothing. *)
Theorem popstate_keeps_rotation (restored : list (string * string)) (p : Page) :
  search (popstate config restored p) = restored
  /\ pushed (popstate config restored p) = pushed p
  /\ autoRotateInterval_id (popstate config restored p) = autoRotateInterval_id p
  /\ pending_ticks (popstate config restored p) = pending_ticks p
  /\ (forall tm,
        In tm (timers (popstate config restored p)) ->
        In tm (timers p) \/ content_task (task tm) = true)
  /\ (forall tm, In tm (timers p) -> In tm (timers (popstate config restored p)))
  /\ (find_tab (url_or_default config (set_location restored false p)) 0 (tabs p) = None ->
      popstate config restored p = set_location restored false p)
  /\ (forall i,
        find_tab (url_or_default config (set_location restored false p)) 0 (tabs p)
        = Some i ->
        currentTabIndex (popstate config restored p) = i
        /\ one_active (popstate config restored p) i
             (url_or_default config (set_location restored false p))
        /\ activations (popstate config restored p)
           = (url_or_default config (set_location restored false p), true)
             :: activations p).
Proof.
  destruct (ticks_advances _ _ (advances_popstate config restored p)) as [Hticks Hid].
  destruct (advances_frame _ _ (advances_popstate config restored p))
    as (_ & _ & _ & _ & _ & Hold & _).
  set (p0 := set_location restored false p) in *.
  set (v := url_or_default config p0) in *.
  assert (Hshape : popstate config restored p
                   = match find_tab v 0 (tabs p) with
                     | Some i =>
                         set_currentTabIndex i
                           (switchContent config v true (updateActiveTab i p0))
                     | None => p0
                     end) by reflexivity.
  split; [|split; [|split; [exact Hid|split; [exact Hticks|split; [|split;
            [exact Hold|split]]]]]].
  - rewrite Hshape. destruct (find_tab v 0 (tabs p)); [|reflexivity].
    cbn [search set_currentTabIndex].
    now destruct (extends_frame _ _
      (extends_switchContent config v true (updateActiveTab n p0))) as (_ & -> & _).
  - rewrite Hshape. destruct (find_tab v 0 (tabs p)); [|reflexivity].
    cbn [pushed set_currentTabIndex].
    now destruct (extends_frame _ _
      (extends_switchContent config v true (updateActiveTab n p0))) as (_ & _ & -> & _).
  - intros tm. rewrite Hshape. destruct (find_tab v 0 (tabs p)); [|now left].
    cbn [timers set_currentTabIndex]. intros H.
    apply timers_switchContent_from in H as [H|(_ & [Ht|(item & Ht & _)])];
      [now left| |]; right; now rewrite Ht.
  - intros Hnone. rewrite Hshape. now rewrite Hnone.
  - intros i Hi. rewrite Hshape, Hi. split; [reflexivity|].
    apply find_tab_lookup in Hi as (_ & tab & Hl & Hv). rewrite Nat.sub_0_r in Hl.
    split.
    + apply (one_active_marked p0 _ i tab v Hl Hv).
      cbn [tabs set_currentTabIndex]. now rewrite tabs_switchContent.
    + cbn [activations set_currentTabIndex]. now rewrite activations_switchContent.
Qed.

End ContentFacts.

(** X17 applies to the tech tabs after a click on the second trigger and
    the timer that follows. *)
Lemma rotation_index_in_bounds_witness :
  (exists tab,
      tabs (run tech_config [Click 1; Fire] (initTabs tech_config (tech_page [])))
      !! currentTabIndex
           (run tech_config [Click 1; Fire] (initTabs tech_config (tech_page [])))
      = Some tab)
  /\ (exists tab,
        tabs (run tech_config [Click 1; Fire] (initTabs tech_config (tech_page [])))
        !! Nat.modulo
             (currentTabIndex
                (run tech_config [Click 1; Fire] (initTabs tech_config (tech_page [])))
              + 1)
             (length
                (tabs (run tech_config [Click 1; Fire]
                         (initTabs tech_config (tech_page [])))))
        = Some tab)
  /\ same_elements (tech_page [])
       (run tech_config [Click 1; Fire] (initTabs tech_config (tech_page []))).
Proof.
  apply (rotation_index_in_bounds tech_config (tech_page []) [Click 1; Fire]);
    discriminate.
Defined.

(** X19 applies to the tech tabs after two clicks in a row. *)
Lemma rotation_interval_unique_witness :
  one_interval (run tech_config [Click 1; Click 2]
                  (initTabs tech_config (tech_page [])))
  /\ (length (pending_ticks (run tech_config [Click 1; Click 2]
                               (initTabs tech_config (tech_page [])))) <= 1)%nat
  /\ (forall tm,
        In tm (timers (run tech_config [Click 1; Click 2]
                         (initTabs tech_config (tech_page [])))) ->
        task tm = RotationTick ->
        autoRotateInterval_id (run tech_config [Click 1; Click 2]
                                 (initTabs tech_config (tech_page [])))
        = Some (handle tm)
        /\ pending_ticks (run tech_config [Click 1; Click 2]
                            (initTabs tech_config (tech_page []))) = [tm]).
Proof.
  apply (rotation_interval_unique tech_config (tech_page []) [Click 1; Click 2]);
    [reflexivity|discriminate|discriminate].
Defined.

(** X20. A switch of the content that is left to itself. Take a page that
    [initTabs], called with nothing pending on a group with a trigger and a
    block, and the events after it lead to, on which the content is at rest:
    no callback of a switch is pending and no frame is requested (rotation
    ticks and the restart of the rotation may be pending). Let
    [switchContent] be called on it with a value by any of its callers:
    directly, by a click on a trigger that declares the value, by a
    navigation in the history to the value, or by the rotation tick that
    lands on a trigger that declares it. As long as the events that follow
    leave the content to this switch (timers other than rotation ticks
    running, frames drawn, time passing; no click, no navigation, no tick):
    the timers of the content run out, a number of timers bounded by what
    is pending and a frame leave the content at rest; and whenever the
    content is at rest, every block the switch is to show (it declares the
    value, or the group shows all and the value is "all") is in the layout
    and faded in, and every other block is out of the layout and not faded
    in; the blocks declare the values they declared. The same holds of the
    switch [initTabs] itself makes, to the value of the URL or the default.
    The condition that the content is at rest cannot be dropped: on the
    feature tabs, a click on the second trigger and 20 ms later a click on
    the first leave the blocks of both in the layout once everything has
    run, the show phase of the first click coming after the second click
    has hidden its block. *)
Theorem switchContent_settles (config : TabConfig) (p0 : Page) (es0 : list Event)
  (tabValue : string) (q : Page) :
  timers p0 = [] -> tabs p0 <> [] -> contents p0 <> [] ->
  content_quiet (run config es0 (initTabs config p0)) = true ->
  switches config tabValue (run config es0 (initTabs config p0)) q ->
  (forall n,
      undisturbed_run config (repeat Fire n) q = true ->
      (pending_weight q <= n)%nat ->
      content_quiet (run config (repeat Fire n ++ [Frame]) q) = true)
  /\ (forall es,
        undisturbed_run config es q = true ->
        content_quiet (run config es q) = true ->
        settled config tabValue (run config es0 (initTabs config p0)) (run config es q))
  /\ (frame_requests p0 = [] ->
      forall es,
        undisturbed_run config es (initTabs config p0) = true ->
        content_quiet (run config es (initTabs config p0)) = true ->
        settled config (url_or_default config p0) p0
          (run config es (initTabs config p0)))
  /\ (timers two_quick_clicks = [] /\ frame_requests two_quick_clicks = []
      /\ current_value two_quick_clicks = Some "individuals"
      /\ map style_display (contents two_quick_clicks) = ["block"; "block"; "none"]).
Proof.
  intros Hnil Ht Hc Hquiet Hsw.
  destruct (scheduled_run config p0 es0 Hnil Ht Hc) as [Htr Hha].
  split; [|split; [|split]].
  - intros n Hun Hw. apply quiet_after_drain; [|exact Hun|exact Hw].
    now apply (switches_tracked config tabValue (run config es0 (initTabs config p0))).
  - intros es Hes Hrest. now apply (switch_settles config tabValue _ q es).
  - intros Hfr es Hes Hrest. apply settled_when_quiet; [|exact Hrest].
    apply settling_run; [exact Hes|]. now apply settling_initTabs.
  - vm_compute. repeat split.
Qed.

(** X20 applies to the tech tabs, loaded and at rest with the restart of
    the rotation pending, and a click on the second trigger: seven timers
    and a frame later the content is at rest, and the block of the second
    trigger is the one shown. *)
Lemma switchContent_settles_witness :
  content_quiet tech_loaded = true
  /\ content_quiet
       (run tech_config (repeat Fire 7 ++ [Frame]) (click tech_config 1 tech_loaded))
     = true
  /\ settled tech_config "real-time" tech_loaded
       (run tech_config (repeat Fire 7 ++ [Frame]) (click tech_config 1 tech_loaded)).
Proof.
  assert (Hquiet : content_quiet
                     (run tech_config (repeat Fire 4 ++ [Frame])
                        (initTabs tech_config (tech_page []))) = true)
    by (vm_compute; reflexivity).
  assert (Hsw : switches tech_config "real-time"
                  (run tech_config (repeat Fire 4 ++ [Frame])
                     (initTabs tech_config (tech_page [])))
                  (click tech_config 1
                     (run tech_config (repeat Fire 4 ++ [Frame])
                        (initTabs tech_config (tech_page []))))).
  { eapply (switches_click tech_config "real-time" _ 1);
      [vm_compute; reflexivity|reflexivity]. }
  destruct (switchContent_settles tech_config (tech_page []) (repeat Fire 4 ++ [Frame])
              "real-time" _ eq_refl ltac:(discriminate) ltac:(discriminate) Hquiet Hsw)
    as (Hdrain & Hsettled & _).
  split; [exact Hquiet|]. split.
  - apply (Hdrain 7%nat); vm_compute; [reflexivity|repeat constructor].
  - apply (Hsettled (repeat Fire 7 ++ [Frame])%list); vm_compute; reflexivity.
Defined.

(** X18 applies to the tech tabs: four ticks from the first trigger lead
    to the second. *)
Lemma rotation_goes_round_witness :
  currentTabIndex (Nat.iter 4 (run_task tech_config RotationTick) (tech_page []))
  = Nat.modulo (currentTabIndex (tech_page []) + 4) (length (tabs (tech_page [])))
  /\ same_elements (tech_page [])
       (Nat.iter 4 (run_task tech_config RotationTick) (tech_page [])).
Proof.
  apply (rotation_goes_round tech_config 4 (tech_page [])). cbn. lia.
Defined.




End TabsContentFacts.
